(** * Aggregate Schnorr signatures over secp256k1 (module [aggsig])

    A shallow embedding of [src/modules/aggsig/main_impl.h] and the
    properties of its session state machine, challenge derivation, partial
    signing, combination and verification.

    The scalar, field, group, hash and RNG code that [main_impl.h] calls lives
    in other files of the library.  The group, the hash function and the RNG
    are taken through the interface [Primitives]; scalars are integers modulo
    the group order.  The algebraic facts the proofs rely on are collected in
    [HashLaws], [GroupLaws] and [EndoLaws].  An instance is given at the
    end, for a build with and for a build without USE_ENDOMORPHISM: the
    curve [y^2 = x^3 + 7] over the field with 43 elements, for which every
    law is checked by enumeration and on which concrete runs are
    evaluated. *)

From Stdlib Require Import ZArith Lia List Bool.
From Stdlib Require Import Init.Byte Strings.Byte.
From stdpp Require Import base list.
From Equations Require Import Equations.

Local Open Scope Z_scope.

(** ** Byte strings and big-endian integers *)

Module Bytes.

Definition to_Z (b : byte) : Z := Z.of_N (Byte.to_N b).

Definition of_Z (z : Z) : byte :=
  match Byte.of_N (Z.to_N (z mod 256)) with
  | Some b => b
  | None => x00
  end.

(** [be2Z] reads a byte string as a big-endian unsigned integer. *)
Definition be2Z (l : list byte) : Z :=
  fold_left (fun acc b => acc * 256 + to_Z b) l 0.

(** [Z2be len v] writes the [len] low-order bytes of [v], most significant
    byte first. *)
Fixpoint Z2be (len : nat) (v : Z) : list byte :=
  match len with
  | O => []
  | S k => Z2be k (v / 256) ++ [of_Z v]
  end.

Lemma to_Z_range b : 0 <= to_Z b < 256.
Proof.
  unfold to_Z. pose proof (Byte.to_N_bounded b). lia.
Qed.

Lemma to_of_Z z : to_Z (of_Z z) = z mod 256.
Proof.
  unfold of_Z, to_Z.
  assert (Hr : 0 <= z mod 256 < 256) by (apply Z.mod_pos_bound; lia).
  destruct (Byte.of_N (Z.to_N (z mod 256))) as [b|] eqn:E.
  - apply Byte.to_of_N in E. rewrite E. lia.
  - apply Byte.of_N_None_iff in E. lia.
Qed.

Lemma of_to_Z b : of_Z (to_Z b) = b.
Proof.
  unfold of_Z. pose proof (to_Z_range b) as Hr.
  rewrite Z.mod_small by lia. unfold to_Z.
  rewrite N2Z.id, Byte.of_to_N. reflexivity.
Qed.

Lemma be2Z_fold l : forall a,
  fold_left (fun acc b => acc * 256 + to_Z b) l a
  = a * 256 ^ Z.of_nat (length l) + be2Z l.
Proof.
  unfold be2Z. induction l as [|b l IH]; intros a.
  - simpl. lia.
  - cbn [fold_left length]. rewrite IH, (IH (0 * 256 + to_Z b)).
    rewrite Nat2Z.inj_succ, Z.pow_succ_r by lia. ring.
Qed.

Lemma be2Z_cons b l :
  be2Z (b :: l) = to_Z b * 256 ^ Z.of_nat (length l) + be2Z l.
Proof.
  unfold be2Z at 1. cbn [fold_left]. rewrite be2Z_fold. ring.
Qed.

Lemma be2Z_snoc l b : be2Z (l ++ [b]) = be2Z l * 256 + to_Z b.
Proof.
  unfold be2Z. rewrite fold_left_app. reflexivity.
Qed.

Lemma be2Z_range l : 0 <= be2Z l < 256 ^ Z.of_nat (length l).
Proof.
  induction l as [|b l IH] using rev_ind.
  - cbn. lia.
  - rewrite be2Z_snoc, length_app. cbn [length].
    replace (Z.of_nat (length l + 1)) with (Z.succ (Z.of_nat (length l))) by lia.
    rewrite Z.pow_succ_r by lia.
    pose proof (to_Z_range b). nia.
Qed.

Lemma length_Z2be len : forall v, length (Z2be len v) = len.
Proof.
  induction len as [|k IH]; intros v; cbn [Z2be]; [reflexivity|].
  rewrite length_app, IH. cbn. lia.
Qed.

Lemma be2Z_Z2be len : forall v, be2Z (Z2be len v) = v mod 256 ^ Z.of_nat len.
Proof.
  induction len as [|k IH]; intros v.
  - cbn. rewrite Z.mod_1_r. reflexivity.
  - cbn [Z2be]. rewrite be2Z_snoc, IH, to_of_Z.
    rewrite Nat2Z.inj_succ, Z.pow_succ_r by lia.
    assert (Hp : 0 < 256 ^ Z.of_nat k) by (apply Z.pow_pos_nonneg; lia).
    rewrite Z.rem_mul_r by lia. ring.
Qed.

Lemma be2Z_Z2be_small len v :
  0 <= v < 256 ^ Z.of_nat len -> be2Z (Z2be len v) = v.
Proof.
  intros H. rewrite be2Z_Z2be. apply Z.mod_small; assumption.
Qed.

Lemma Z2be_be2Z l : Z2be (length l) (be2Z l) = l.
Proof.
  induction l as [|b l IH] using rev_ind; [reflexivity|].
  rewrite length_app. cbn [length].
  replace (length l + 1)%nat with (S (length l)) by lia.
  cbn [Z2be]. rewrite be2Z_snoc.
  pose proof (to_Z_range b) as Hb.
  replace ((be2Z l * 256 + to_Z b) / 256) with (be2Z l)
    by (apply Z.div_unique with (r := to_Z b); lia).
  rewrite IH. f_equal. f_equal.
  rewrite <- (of_to_Z b) at 2. unfold of_Z.
  rewrite Z.add_comm, Z.mod_add by lia. reflexivity.
Qed.

End Bytes.

(** ** Outcome of a call

    [CHECK(cond)] (util.h) aborts the process when [cond] is false; a call
    either returns a value or does not return.  A failed [ARG_CHECK(cond)]
    (secp256k1.c) makes the function return 0 after it has called the
    illegal-argument callback of the library context; the model has the
    [return 0]. *)

Inductive outcome (A : Type) : Type :=
| Returns (a : A)
| Aborts.
Arguments Returns {A} a.
Arguments Aborts {A}.

Definition obind {A B} (m : outcome A) (k : A -> outcome B) : outcome B :=
  match m with
  | Returns a => k a
  | Aborts => Aborts
  end.

Notation "'let*' x ':=' m 'in' k" := (obind m (fun x => k))
  (at level 10, x pattern, m at level 100, k at level 200).

(** ** The primitives the module is built on *)

Class Primitives := {
  (** group.h: a group element; the Jacobian ([secp256k1_gej]) and affine
      ([secp256k1_ge]) forms denote the same element. *)
  point : Type;
  point_eq_dec :: EqDecision point;
  infinity : point;
  secp256k1_ge_const_g : point;
  secp256k1_gej_add_var : point -> point -> point;
  secp256k1_gej_neg : point -> point;
  secp256k1_gej_has_quad_y_var : point -> bool;
  (** the normalised affine x coordinate *)
  ge_x : point -> Z;
  (** the point with the given x whose y is a quadratic residue *)
  secp256k1_ge_set_xquad : Z -> option point;
  (** 33-byte compressed encoding; fails on the point at infinity *)
  secp256k1_eckey_pubkey_serialize : point -> option (list byte);
  (** field.h: the characteristic of the base field *)
  field_p : Z;
  (** scalar.h: the group order *)
  order_n : Z;
  (** hash.h *)
  sha256 : list byte -> list byte;
  secp256k1_rfc6979_hmac_sha256_t : Type;
  secp256k1_rfc6979_hmac_sha256_initialize :
    list byte -> secp256k1_rfc6979_hmac_sha256_t;
  secp256k1_rfc6979_hmac_sha256_generate :
    secp256k1_rfc6979_hmac_sha256_t ->
    list byte * secp256k1_rfc6979_hmac_sha256_t;
  (** ecmult.h: capacity of the scratch arrays of the multi-exponentiation *)
  SECP256K1_ECMULT_MULTI_MAX_N : positive;
  (** the build option USE_ENDOMORPHISM, and the functions of scalar.h and
      group.h that only the build with that option calls *)
  USE_ENDOMORPHISM : bool;
  secp256k1_scalar_split_lambda : Z -> Z * Z;
  secp256k1_scalar_is_high : Z -> bool;
  secp256k1_gej_mul_lambda : point -> point
}.

(** ** Data model of [main_impl.h] *)

Inductive nonce_progress : Type :=
| NONCE_PROGRESS_UNKNOWN  (* nonce neither generated by us nor received *)
| NONCE_PROGRESS_OTHER    (* public nonce received from another party *)
| NONCE_PROGRESS_OURS     (* generated by us, not yet used in signing *)
| NONCE_PROGRESS_SIGNED.  (* generated by us and used in signing *)

Global Instance nonce_progress_eq_dec : EqDecision nonce_progress.
Proof. solve_decision. Defined.

(** The part of the library context the module looks at. *)
Record secp256k1_context := {
  ecmult_gen_ctx_built : bool
}.

(** The index loop of [secp256k1_compute_sighash]:
    [while (index > 0) { ch = index & 0x7f; write(&ch, 1); index >>= 7; }].
    The hasher is the string of bytes written so far. *)
Equations? sighash_index_loop (index : N) (hasher : list byte) : list byte
  by wf (N.to_nat index) lt :=
  sighash_index_loop index hasher with N.eq_dec index 0%N => {
    | left _ := hasher
    | right _ :=
        let ch := Bytes.of_Z (Z.of_N (N.land index 127%N)) in
        sighash_index_loop (N.shiftr index 7%N) (hasher ++ [ch]) }.
Proof.
  rewrite N.shiftr_div_pow2.
  assert (index / 2 ^ 7 < index)%N by (apply N.div_lt; [lia | reflexivity]).
  lia.
Qed.

Section Model.
Context `{Prims : Primitives}.

(** *** scalar.h, field.h: integers modulo the group order and the field
    characteristic *)

(** Modelled from the spec: [secp256k1_scalar_set_b32] (scalar_impl.h) is
    not under src/.  It reads 32 big-endian bytes, reduces modulo the group
    order and reports whether the integer was at least the order. *)
Definition secp256k1_scalar_set_b32 (b32 : list byte) : Z * bool :=
  let v := Bytes.be2Z (take 32 b32) in
  (v mod order_n, order_n <=? v).

(** Modelled from the spec: [secp256k1_scalar_get_b32] (scalar_impl.h). *)
Definition secp256k1_scalar_get_b32 (a : Z) : list byte := Bytes.Z2be 32 a.

(** Modelled from the spec: scalar arithmetic modulo the order
    (scalar_impl.h). *)
Definition secp256k1_scalar_set_int (v : Z) : Z := v mod order_n.
Definition secp256k1_scalar_is_zero (a : Z) : bool := a =? 0.
Definition secp256k1_scalar_negate (a : Z) : Z := (- a) mod order_n.
Definition secp256k1_scalar_add (a b : Z) : Z := (a + b) mod order_n.
Definition secp256k1_scalar_mul (a b : Z) : Z := (a * b) mod order_n.

(** Modelled from the spec: [secp256k1_fe_set_b32] (field_impl.h) rejects
    an encoding that is not below the field characteristic. *)
Definition secp256k1_fe_set_b32 (b32 : list byte) : option Z :=
  let v := Bytes.be2Z (take 32 b32) in
  if v <? field_p then Some v else None.

(** Modelled from the spec: [secp256k1_fe_normalize_var] and
    [secp256k1_fe_get_b32] (field_impl.h). *)
Definition secp256k1_fe_normalize_var (x : Z) : Z := x mod field_p.
Definition secp256k1_fe_get_b32 (x : Z) : list byte := Bytes.Z2be 32 x.

(** *** group.h, ecmult.h *)

Definition secp256k1_gej_is_infinity (a : point) : bool :=
  bool_decide (a = infinity).

(** Modelled from the spec: scalar multiplication [k * P]; the generator
    and multi-scalar multiplications (ecmult_gen_impl.h, ecmult_impl.h) are
    not under src/. *)
Definition ecmult (k : Z) (P : point) : point :=
  match k with
  | Z0 => infinity
  | Zpos q => Pos.iter_op secp256k1_gej_add_var q P
  | Zneg q => secp256k1_gej_neg (Pos.iter_op secp256k1_gej_add_var q P)
  end.

Definition secp256k1_ecmult_gen (gn : Z) : point :=
  ecmult gn secp256k1_ge_const_g.

(** [secp256k1_ecmult_multi(r, sc, pt, n)]: the sum of [sc[j] * pt[j]]
    over the first [n] entries of the two arrays. *)
Fixpoint ecmult_multi_sum (sc : list Z) (pt : list point) : point :=
  match sc, pt with
  | s :: sc', P :: pt' =>
      secp256k1_gej_add_var (ecmult s P) (ecmult_multi_sum sc' pt')
  | _, _ => infinity
  end.

Definition secp256k1_ecmult_multi (sc : list Z) (pt : list point) (n : nat) : point :=
  ecmult_multi_sum (take n sc) (take n pt).

(** *** hash.h: the streaming interface over [sha256] *)

Definition secp256k1_sha256_t := list byte.
Definition secp256k1_sha256_initialize : secp256k1_sha256_t := [].
Definition secp256k1_sha256_write (hasher : secp256k1_sha256_t)
    (data : list byte) (len : nat) : secp256k1_sha256_t :=
  hasher ++ take len data.
Definition secp256k1_sha256_finalize (hasher : secp256k1_sha256_t) : list byte :=
  sha256 hasher.

(** *** The session *)

Record secp256k1_aggsig_context := {
  progress : list nonce_progress;
  pubkeys : list point;
  secnonce : list Z;
  pubnonce_sum : point;
  n_sigs : nat;
  rng : secp256k1_rfc6979_hmac_sha256_t
}.

(** *** [secp256k1_compute_prehash] *)

(** The loop over the public keys; [CHECK] aborts when a key does not
    serialise. *)
Fixpoint prehash_pubkeys (pks : list point) (hasher : secp256k1_sha256_t)
    : outcome secp256k1_sha256_t :=
  match pks with
  | [] => Returns hasher
  | pk :: rest =>
      match secp256k1_eckey_pubkey_serialize pk with
      | None => Aborts
      | Some buf => prehash_pubkeys rest (secp256k1_sha256_write hasher buf 33)
      end
  end.

Definition secp256k1_compute_prehash (pks : list point) (n_pubkeys : nat)
    (nonce_ge : point) (msghash32 : list byte) : outcome (list byte) :=
  let hasher := secp256k1_sha256_initialize in
  let* hasher := prehash_pubkeys (take n_pubkeys pks) hasher in
  match secp256k1_eckey_pubkey_serialize nonce_ge with
  | None => Aborts
  | Some buf =>
      let hasher := secp256k1_sha256_write hasher buf 33 in
      let hasher := secp256k1_sha256_write hasher msghash32 32 in
      Returns (secp256k1_sha256_finalize hasher)
  end.

(** *** [secp256k1_compute_sighash]: the scalar and the return value *)

Definition secp256k1_compute_sighash (prehash : list byte) (index : nat)
    : Z * bool :=
  let hasher := secp256k1_sha256_initialize in
  let hasher := sighash_index_loop (N.of_nat index) hasher in
  let hasher := secp256k1_sha256_write hasher prehash 32 in
  let output := secp256k1_sha256_finalize hasher in
  let '(r, overflow) := secp256k1_scalar_set_b32 output in
  (r, negb overflow).

(** *** [secp256k1_aggsig_context_create]

    [heap] stands for the contents of the freshly allocated, not yet
    written [secnonce] array. *)
Definition secp256k1_aggsig_context_create (pks : list point)
    (n_pubkeys : nat) (seed : list byte) (heap : nat -> Z)
    : secp256k1_aggsig_context :=
  {| progress := replicate n_pubkeys NONCE_PROGRESS_UNKNOWN;
     pubkeys := take n_pubkeys pks;
     secnonce := map heap (seq 0 n_pubkeys);
     pubnonce_sum := infinity;
     n_sigs := n_pubkeys;
     rng := secp256k1_rfc6979_hmac_sha256_initialize (take 32 seed) |}.

(** *** [secp256k1_aggsig_generate_nonce] *)

(** The [do ... while (retry)] loop: draw 32 bytes, parse them, retry on
    overflow or zero.  [fuel] bounds the number of draws; [None] means the
    bound was reached. *)
Fixpoint nonce_loop (fuel : nat) (r : secp256k1_rfc6979_hmac_sha256_t)
    : option (Z * secp256k1_rfc6979_hmac_sha256_t) :=
  match fuel with
  | O => None
  | S fuel' =>
      let '(data, r') := secp256k1_rfc6979_hmac_sha256_generate r in
      let '(k, retry) := secp256k1_scalar_set_b32 data in
      let retry := retry || secp256k1_scalar_is_zero k in
      if retry then nonce_loop fuel' r' else Some (k, r')
  end.

Definition secp256k1_aggsig_generate_nonce (fuel : nat)
    (ctx : secp256k1_context) (aggctx : secp256k1_aggsig_context)
    (index : nat) : option (secp256k1_aggsig_context * bool) :=
  if negb (ecmult_gen_ctx_built ctx) then Some (aggctx, false) else
  if negb (index <? n_sigs aggctx)%nat then Some (aggctx, false) else
  match progress aggctx !! index with
  | Some NONCE_PROGRESS_UNKNOWN =>
      match nonce_loop fuel (rng aggctx) with
      | None => None
      | Some (k, r') =>
          let pubnon := secp256k1_ecmult_gen k in
          let '(k, pubnon) :=
            if negb (secp256k1_gej_has_quad_y_var pubnon)
            then (secp256k1_scalar_negate k, secp256k1_gej_neg pubnon)
            else (k, pubnon) in
          Some ({| progress := <[index := NONCE_PROGRESS_OURS]> (progress aggctx);
                   pubkeys := pubkeys aggctx;
                   secnonce := <[index := k]> (secnonce aggctx);
                   pubnonce_sum :=
                     secp256k1_gej_add_var (pubnonce_sum aggctx) pubnon;
                   n_sigs := n_sigs aggctx;
                   rng := r' |}, true)
      end
  | _ => Some (aggctx, false)
  end.

(** *** [secp256k1_aggsig_partial_sign] *)

(** The state-machine loop: is some index among the first [n] still
    [UNKNOWN]? *)
Fixpoint any_unknown (pr : list nonce_progress) : bool :=
  match pr with
  | [] => false
  | NONCE_PROGRESS_UNKNOWN :: _ => true
  | _ :: rest => any_unknown rest
  end.

Definition secp256k1_aggsig_partial_sign (ctx : secp256k1_context)
    (aggctx : secp256k1_aggsig_context) (partial : list byte)
    (msghash32 seckey32 : list byte) (index : nat)
    : outcome (secp256k1_aggsig_context * list byte * bool) :=
  if negb (ecmult_gen_ctx_built ctx) then Returns (aggctx, partial, false) else
  if negb (index <? n_sigs aggctx)%nat then Returns (aggctx, partial, false) else
  if any_unknown (take (n_sigs aggctx) (progress aggctx))
  then Returns (aggctx, partial, false) else
  match progress aggctx !! index with
  | Some NONCE_PROGRESS_OURS =>
      let tmp_ge := pubnonce_sum aggctx in
      let flip := negb (secp256k1_gej_has_quad_y_var (pubnonce_sum aggctx)) in
      let secnonce' :=
        if flip
        then <[index := secp256k1_scalar_negate
                          (default 0 (secnonce aggctx !! index))]> (secnonce aggctx)
        else secnonce aggctx in
      let tmp_ge := if flip then secp256k1_gej_neg tmp_ge else tmp_ge in
      let aggctx1 :=
        {| progress := progress aggctx; pubkeys := pubkeys aggctx;
           secnonce := secnonce'; pubnonce_sum := pubnonce_sum aggctx;
           n_sigs := n_sigs aggctx; rng := rng aggctx |} in
      let* prehash :=
        secp256k1_compute_prehash (pubkeys aggctx) (n_sigs aggctx) tmp_ge msghash32 in
      let '(sighash, ok) := secp256k1_compute_sighash prehash index in
      if negb ok then Returns (aggctx1, partial, false) else
      let '(sec, overflow) := secp256k1_scalar_set_b32 seckey32 in
      if overflow then Returns (aggctx1, partial, false) else
      let sec := secp256k1_scalar_mul sec sighash in
      let sec := secp256k1_scalar_add sec (default 0 (secnonce' !! index)) in
      Returns ({| progress := <[index := NONCE_PROGRESS_SIGNED]> (progress aggctx);
                  pubkeys := pubkeys aggctx;
                  secnonce := secnonce';
                  pubnonce_sum := pubnonce_sum aggctx;
                  n_sigs := n_sigs aggctx;
                  rng := rng aggctx |},
               secp256k1_scalar_get_b32 sec, true)
  | _ => Returns (aggctx, partial, false)
  end.

(** *** [secp256k1_aggsig_combine_signatures] *)

(** The summation loop; [None] when a partial overflows. *)
Fixpoint sum_partials (partial : list (list byte)) (s : Z) : option Z :=
  match partial with
  | [] => Some s
  | p :: rest =>
      let '(tmp, overflow) := secp256k1_scalar_set_b32 p in
      if overflow then None else sum_partials rest (secp256k1_scalar_add s tmp)
  end.

Definition secp256k1_aggsig_combine_signatures (ctx : secp256k1_context)
    (aggctx : secp256k1_aggsig_context) (sig64 : list byte)
    (partial : list (list byte)) (n : nat)
    : secp256k1_aggsig_context * list byte * bool :=
  if negb (n =? n_sigs aggctx)%nat then (aggctx, sig64, false) else
  match sum_partials (take n partial) (secp256k1_scalar_set_int 0) with
  | None => (aggctx, sig64, false)
  | Some s =>
      let sum :=
        if negb (secp256k1_gej_has_quad_y_var (pubnonce_sum aggctx))
        then secp256k1_gej_neg (pubnonce_sum aggctx)
        else pubnonce_sum aggctx in
      let final_x := secp256k1_fe_normalize_var (ge_x sum) in
      ({| progress := progress aggctx; pubkeys := pubkeys aggctx;
          secnonce := secnonce aggctx; pubnonce_sum := sum;
          n_sigs := n_sigs aggctx; rng := rng aggctx |},
       secp256k1_scalar_get_b32 s ++ secp256k1_fe_get_b32 final_x,
       true)
  end.

(** *** [secp256k1_aggsig_endo_split] (USE_ENDOMORPHISM)

    Splits the scalar in [*s1] into [*s1] and [*s2], puts lambda times [*p1]
    into [*p2], and negates a scalar together with its point when the scalar
    is high.  The result is the new [(s1, s2, p1, p2)]. *)
Definition secp256k1_aggsig_endo_split (s1 : Z) (p1 : point)
    : Z * Z * point * point :=
  let tmp := s1 in
  let '(s1, s2) := secp256k1_scalar_split_lambda tmp in
  let p2 := secp256k1_gej_mul_lambda p1 in
  let '(s1, p1) :=
    if secp256k1_scalar_is_high s1
    then (secp256k1_scalar_negate s1, secp256k1_gej_neg p1) else (s1, p1) in
  let '(s2, p2) :=
    if secp256k1_scalar_is_high s2
    then (secp256k1_scalar_negate s2, secp256k1_gej_neg p2) else (s2, p2) in
  (s1, s2, p1, p2).

(** *** [secp256k1_aggsig_verify]: the build without USE_ENDOMORPHISM *)

(** The inner [for (j = 0; j < n; j++)] loop of one chunk: derive the
    challenge of index [i + j], negate it, and store it with the public key
    at position [j + offset] of the scratch arrays.  [None] is the early
    [return 0] on a challenge that overflows. *)
Fixpoint verify_fill (prehash : list byte) (pks : list point)
    (i offset j todo : nat) (sc : list Z) (pt : list point)
    : option (list Z * list point) :=
  match todo with
  | O => Some (sc, pt)
  | S todo' =>
      let '(e, ok) := secp256k1_compute_sighash prehash (i + j) in
      if negb ok then None else
      let sc := <[(j + offset)%nat := secp256k1_scalar_negate e]> sc in
      let ge_tmp := default infinity (pks !! (i + j)%nat) in
      let pt := <[(j + offset)%nat := ge_tmp]> pt in
      verify_fill prehash pks i offset (S j) todo' sc pt
  end.

(** Size of the chunk that starts at index [i]. *)
Definition verify_chunk (n_pubkeys i offset : nat) : nat :=
  Nat.min (n_pubkeys - i) (Pos.to_nat SECP256K1_ECMULT_MULTI_MAX_N - offset).

(** The [while (i < n_pubkeys)] loop.  It terminates because the scratch
    arrays hold at least one entry. *)
Equations? verify_loop (prehash : list byte) (pks : list point)
    (n_pubkeys i offset : nat) (sc : list Z) (pt : list point)
    (pk_sum : point) : option point
  by wf (n_pubkeys - i + offset)%nat lt :=
  verify_loop prehash pks n_pubkeys i offset sc pt pk_sum
    with decide (i < n_pubkeys)%nat => {
    | right _ := Some pk_sum
    | left _ with
        verify_fill prehash pks i offset 0
          (verify_chunk n_pubkeys i offset) sc pt => {
        | None := None
        | Some (sc', pt') :=
            let n := verify_chunk n_pubkeys i offset in
            let multi := secp256k1_ecmult_multi sc' pt' (n + offset) in
            verify_loop prehash pks n_pubkeys (i + n) 0 sc' pt'
              (secp256k1_gej_add_var pk_sum multi) } }.
Proof.
  subst n. unfold verify_chunk.
  pose proof (Pos2Nat.is_pos SECP256K1_ECMULT_MULTI_MAX_N). lia.
Qed.

(** *** [secp256k1_aggsig_verify]: the build with USE_ENDOMORPHISM *)

(** The inner [for (j = 0; j < n/2; j++)] loop: the negated challenge and
    the public key of index [i + j] go to position [2*j + offset], and
    [secp256k1_aggsig_endo_split] spreads them over that position and the
    next. *)
Fixpoint verify_fill_endo (prehash : list byte) (pks : list point)
    (i offset j todo : nat) (sc : list Z) (pt : list point)
    : option (list Z * list point) :=
  match todo with
  | O => Some (sc, pt)
  | S todo' =>
      let '(e, ok) := secp256k1_compute_sighash prehash (i + j) in
      if negb ok then None else
      let sc := <[(2 * j + offset)%nat := secp256k1_scalar_negate e]> sc in
      let ge_tmp := default infinity (pks !! (i + j)%nat) in
      let pt := <[(2 * j + offset)%nat := ge_tmp]> pt in
      let '(s1, s2, p1, p2) :=
        secp256k1_aggsig_endo_split
          (default 0 (sc !! (2 * j + offset)%nat))
          (default infinity (pt !! (2 * j + offset)%nat)) in
      let sc := <[(2 * j + 1 + offset)%nat := s2]>
                  (<[(2 * j + offset)%nat := s1]> sc) in
      let pt := <[(2 * j + 1 + offset)%nat := p2]>
                  (<[(2 * j + offset)%nat := p1]> pt) in
      verify_fill_endo prehash pks i offset (S j) todo' sc pt
  end.

(** [n] of the chunk that starts at index [i]: twice the number of keys
    left, or what the arrays still hold. *)
Definition verify_chunk_endo (n_pubkeys i offset : nat) : nat :=
  Nat.min (2 * (n_pubkeys - i))
          (Pos.to_nat SECP256K1_ECMULT_MULTI_MAX_N - offset).

(** The [while (i < n_pubkeys)] loop.  Each key takes two entries, so the
    loop only makes progress when the arrays hold two; [secp256k1_aggsig_verify]
    below does not enter it otherwise. *)
Equations? verify_loop_endo (prehash : list byte) (pks : list point)
    (n_pubkeys i offset : nat) (sc : list Z) (pt : list point)
    (pk_sum : point) : option point
  by wf (n_pubkeys - i + offset)%nat lt :=
  verify_loop_endo prehash pks n_pubkeys i offset sc pt pk_sum
    with decide (i < n_pubkeys
                 /\ 2 <= Pos.to_nat SECP256K1_ECMULT_MULTI_MAX_N)%nat => {
    | right _ := Some pk_sum
    | left _ with
        verify_fill_endo prehash pks i offset 0
          (verify_chunk_endo n_pubkeys i offset / 2) sc pt => {
        | None := None
        | Some (sc', pt') :=
            let n := verify_chunk_endo n_pubkeys i offset in
            let multi := secp256k1_ecmult_multi sc' pt' (n + offset) in
            verify_loop_endo prehash pks n_pubkeys (i + n / 2) 0 sc' pt'
              (secp256k1_gej_add_var pk_sum multi) } }.
Proof.
  subst n. unfold verify_chunk_endo.
  match goal with
  | |- context [fst (Nat.divmod ?x 1 0 1)] =>
      change (fst (Nat.divmod x 1 0 1)) with (x / 2)%nat;
      assert (offset = 0 -> 1 <= x / 2)%nat
        by (intros ->; apply Nat.div_le_lower_bound; lia);
      generalize dependent (x / 2)%nat
  end.
  intros q Hq. destruct offset; [specialize (Hq eq_refl)|]; lia.
Qed.

(** *** [secp256k1_aggsig_verify]

    [sc0] and [pt0] stand for the contents of the scratch arrays on entry.
    With USE_ENDOMORPHISM the second entry of the arrays is written
    unconditionally: the behaviour is undefined when there is none, and the
    call is taken not to return. *)
Definition secp256k1_aggsig_verify (ctx : secp256k1_context)
    (sig64 msg32 : list byte) (pks : list point) (n_pubkeys : nat)
    (sc0 : list Z) (pt0 : list point) : outcome bool :=
  if (n_pubkeys =? 0)%nat then Returns false else
  let pk_sum := infinity in
  let '(s, overflow) := secp256k1_scalar_set_b32 sig64 in
  if overflow then Returns false else
  let sc := <[0%nat := s]> sc0 in
  let pt := <[0%nat := secp256k1_ge_const_g]> pt0 in
  match secp256k1_fe_set_b32 (drop 32 sig64) with
  | None => Returns false
  | Some fe_tmp =>
      match secp256k1_ge_set_xquad fe_tmp with
      | None => Returns false
      | Some r_ge =>
          let* prehash := secp256k1_compute_prehash pks n_pubkeys r_ge msg32 in
          let* looped :=
            if USE_ENDOMORPHISM
            then
              if (Pos.to_nat SECP256K1_ECMULT_MULTI_MAX_N <? 2)%nat then Aborts
              else
                let '(s1, s2, p1, p2) :=
                  secp256k1_aggsig_endo_split
                    (default 0 (sc !! 0%nat)) (default infinity (pt !! 0%nat)) in
                let sc := <[1%nat := s2]> (<[0%nat := s1]> sc) in
                let pt := <[1%nat := p2]> (<[0%nat := p1]> pt) in
                Returns (verify_loop_endo prehash pks n_pubkeys 0 2 sc pt pk_sum)
            else Returns (verify_loop prehash pks n_pubkeys 0 1 sc pt pk_sum) in
          match looped with
          | None => Returns false
          | Some pk_sum =>
              let r_ge := secp256k1_gej_neg r_ge in
              let pk_sum := secp256k1_gej_add_var pk_sum r_ge in
              Returns (secp256k1_gej_is_infinity pk_sum)
          end
      end
  end.

End Model.

Arguments secp256k1_aggsig_context {Prims}.

(** ** Calls on a live session *)

Section Calls.
Context `{Prims : Primitives}.

Inductive call : Type :=
| CallGenerateNonce (fuel index : nat)
| CallPartialSign (partial msghash32 seckey32 : list byte) (index : nat)
| CallCombine (sig64 : list byte) (partial : list (list byte)) (n : nat)
| CallDestroy.

(** The session after one call.  There is none when the call does not
    return (the draw loop exceeds its bound, [CHECK] aborts) and after
    [secp256k1_aggsig_context_destroy], which zeroes the three arrays and
    releases the session. *)
Definition step (ctx : secp256k1_context) (aggctx : secp256k1_aggsig_context)
    (c : call) : option secp256k1_aggsig_context :=
  match c with
  | CallGenerateNonce fuel index =>
      match secp256k1_aggsig_generate_nonce fuel ctx aggctx index with
      | Some (aggctx', _) => Some aggctx'
      | None => None
      end
  | CallPartialSign partial msghash32 seckey32 index =>
      match secp256k1_aggsig_partial_sign ctx aggctx partial msghash32 seckey32 index with
      | Returns (aggctx', _, _) => Some aggctx'
      | Aborts => None
      end
  | CallCombine sig64 partial n =>
      Some (secp256k1_aggsig_combine_signatures ctx aggctx sig64 partial n).1.1
  | CallDestroy => None
  end.

Fixpoint run (ctx : secp256k1_context) (calls : list call)
    (aggctx : secp256k1_aggsig_context) : option secp256k1_aggsig_context :=
  match calls with
  | [] => Some aggctx
  | c :: rest =>
      match step ctx aggctx c with
      | Some aggctx' => run ctx rest aggctx'
      | None => None
      end
  end.

(** The representative of a point and its negation that the module settles
    on: the point itself when its y is a quadratic residue, its negation
    otherwise. *)
Definition qr_rep (P : point) : point :=
  if secp256k1_gej_has_quad_y_var P then P else secp256k1_gej_neg P.

(** The arrays of a session have [n_sigs] entries. *)
Definition wf_session (aggctx : secp256k1_aggsig_context) : Prop :=
  length (progress aggctx) = n_sigs aggctx /\
  length (pubkeys aggctx) = n_sigs aggctx /\
  length (secnonce aggctx) = n_sigs aggctx.

End Calls.

(** ** The index encoding of the challenge, as the specification words it

    [varint7 i] lists the 7-bit limbs of [i], least significant first, one
    byte each, up to the last non-zero limb. *)

Definition limb_count (i : N) : nat :=
  if (i =? 0)%N then O else S (N.to_nat (N.log2 i / 7)).

Definition varint7 (i : N) : list byte :=
  map (fun j => Bytes.of_Z (Z.of_N ((i / 128 ^ N.of_nat j) mod 128)))
      (seq 0 (limb_count i)).

(** ** Facts assumed of the primitives *)

Class HashLaws `{Prims : Primitives} : Prop := {
  sha256_length : forall m, length (sha256 m) = 32%nat
}.

Class GroupLaws `{Prims : Primitives} : Prop := {
  add_assoc : forall P Q R,
    secp256k1_gej_add_var P (secp256k1_gej_add_var Q R)
    = secp256k1_gej_add_var (secp256k1_gej_add_var P Q) R;
  add_comm : forall P Q,
    secp256k1_gej_add_var P Q = secp256k1_gej_add_var Q P;
  add_infinity_l : forall P, secp256k1_gej_add_var infinity P = P;
  add_neg_r : forall P,
    secp256k1_gej_add_var P (secp256k1_gej_neg P) = infinity;
  (** the group has [order_n] elements and the generator generates it *)
  order_n_gt_1 : 1 < order_n;
  order_n_lt : order_n < 2 ^ 256;
  ecmult_order : forall P, ecmult order_n P = infinity;
  generator_order : forall k,
    0 < k < order_n -> ecmult k secp256k1_ge_const_g <> infinity;
  (** exactly one of [P] and [-P] has a quadratic-residue y *)
  has_quad_y_neg : forall P, P <> infinity ->
    secp256k1_gej_has_quad_y_var (secp256k1_gej_neg P)
    = negb (secp256k1_gej_has_quad_y_var P);
  (** coordinates *)
  field_p_lt : field_p < 2 ^ 256;
  ge_x_range : forall P, 0 <= ge_x P < field_p;
  ge_x_neg : forall P, ge_x (secp256k1_gej_neg P) = ge_x P;
  set_xquad_sound : forall x P,
    secp256k1_ge_set_xquad x = Some P ->
    P <> infinity /\ secp256k1_gej_has_quad_y_var P = true /\ ge_x P = x;
  set_xquad_complete : forall P,
    P <> infinity -> secp256k1_gej_has_quad_y_var P = true ->
    secp256k1_ge_set_xquad (ge_x P) = Some P;
  serialize_infinity : forall P,
    secp256k1_eckey_pubkey_serialize P = None <-> P = infinity
}.

(** What a build with USE_ENDOMORPHISM relies on: the two halves of a
    scalar recombine through lambda, and the scratch arrays hold an even
    number of entries (two for each key).  A build without the option asks
    for nothing. *)
Class EndoLaws `{Prims : Primitives} : Prop := {
  split_lambda_sound : USE_ENDOMORPHISM = true -> forall k P,
    secp256k1_gej_add_var
      (ecmult (secp256k1_scalar_split_lambda k).1 P)
      (ecmult (secp256k1_scalar_split_lambda k).2 (secp256k1_gej_mul_lambda P))
    = ecmult k P;
  endo_capacity : USE_ENDOMORPHISM = true ->
    Nat.Even (Pos.to_nat SECP256K1_ECMULT_MULTI_MAX_N)
}.

(** ** The challenge derivation *)

Section Sighash.
Context `{Prims : Primitives}.

Lemma limb_count_0 : limb_count 0 = O.
Proof. reflexivity. Qed.

Lemma limb_count_pos i :
  (i <> 0)%N -> limb_count i = S (limb_count (N.shiftr i 7)).
Proof.
  intros Hi. unfold limb_count.
  destruct (N.eqb_spec i 0) as [|_]; [contradiction|].
  rewrite N.shiftr_div_pow2.
  destruct (N.eqb_spec (i / 2 ^ 7) 0) as [Hz|Hnz].
  - f_equal. apply N.div_small_iff in Hz; [|discriminate].
    assert (N.log2 i < 7)%N by (apply N.log2_lt_pow2; lia).
    rewrite N.div_small by assumption. reflexivity.
  - f_equal.
    assert (Hge : (2 ^ 7 <= i)%N).
    { destruct (N.le_gt_cases (2 ^ 7) i) as [H|H]; [exact H|].
      apply N.div_small in H. contradiction. }
    rewrite <- N.shiftr_div_pow2, N.log2_shiftr.
    assert (7 <= N.log2 i)%N by (apply N.log2_le_pow2; lia).
    replace (N.log2 i) with ((N.log2 i - 7) + 1 * 7)%N at 1 by lia.
    rewrite N.div_add by discriminate. lia.
Qed.

Lemma varint7_0 : varint7 0 = [].
Proof. reflexivity. Qed.

Lemma varint7_pos i :
  (i <> 0)%N ->
  varint7 i = Bytes.of_Z (Z.of_N (N.land i 127)) :: varint7 (N.shiftr i 7).
Proof.
  intros Hi. unfold varint7. rewrite (limb_count_pos i Hi).
  cbn [seq map]. f_equal.
  - change 127%N with (N.ones 7). rewrite N.land_ones.
    cbn [N.of_nat]. rewrite N.pow_0_r, N.div_1_r. reflexivity.
  - rewrite <- seq_shift, map_map. apply map_ext. intros j.
    rewrite N.shiftr_div_pow2, Nat2N.inj_succ, N.pow_succ_r'.
    rewrite N.Div0.div_div. reflexivity.
Qed.

(** The loop appends exactly [varint7 index] to what was written before. *)
Lemma sighash_index_loop_varint7 index hasher :
  sighash_index_loop index hasher = hasher ++ varint7 index.
Proof.
  funelim (sighash_index_loop index hasher).
  - subst. rewrite varint7_0, app_nil_r. reflexivity.
  - rewrite H, (varint7_pos index) by assumption.
    rewrite <- app_assoc. reflexivity.
Qed.

Lemma varint7_top_bit_clear i :
  Forall (fun b => Bytes.to_Z b < 128) (varint7 i).
Proof.
  unfold varint7. apply List.Forall_forall. intros b Hb.
  apply in_map_iff in Hb as (j & <- & _).
  rewrite Bytes.to_of_Z.
  assert (Hm : ((i / 128 ^ N.of_nat j) mod 128 < 128)%N)
    by (apply N.mod_upper_bound; discriminate).
  revert Hm. generalize ((i / 128 ^ N.of_nat j) mod 128)%N. intros m Hm.
  rewrite Z.mod_small; lia.
Qed.

End Sighash.

Section SighashSpec.
Context `{Prims : Primitives} {HLaws : HashLaws}.

(** C5.  The challenge of index [i] is the SHA-256 digest of
    [varint7 i ++ H0] read as a big-endian integer and reduced to a scalar;
    the derivation reports failure exactly when the digest, as an integer,
    is at least the group order.  The bytes of [varint7 i] have their top
    bit clear, and nothing is emitted for index 0. *)
Theorem compute_sighash_spec (prehash : list byte) (index : nat) :
  length prehash = 32%nat ->
  let digest := sha256 (varint7 (N.of_nat index) ++ prehash) in
  secp256k1_compute_sighash prehash index
    = (Bytes.be2Z digest mod order_n, Bytes.be2Z digest <? order_n)
  /\ ((secp256k1_compute_sighash prehash index).2 = false
      <-> order_n <= Bytes.be2Z digest)
  /\ (Bytes.be2Z digest < order_n ->
      (secp256k1_compute_sighash prehash index).1 = Bytes.be2Z digest)
  /\ Forall (fun b => Bytes.to_Z b < 128) (varint7 (N.of_nat index))
  /\ (index = O -> digest = sha256 prehash).
Proof.
  intros Hlen digest.
  assert (Heq : secp256k1_compute_sighash prehash index
                = (Bytes.be2Z digest mod order_n, Bytes.be2Z digest <? order_n)).
  { unfold secp256k1_compute_sighash, secp256k1_sha256_write,
      secp256k1_sha256_finalize, secp256k1_sha256_initialize,
      secp256k1_scalar_set_b32.
    rewrite sighash_index_loop_varint7. cbn [app].
    rewrite (firstn_all2 prehash) by lia.
    fold digest. rewrite (firstn_all2 digest)
      by (subst digest; rewrite sha256_length; lia).
    rewrite Z.ltb_antisym. reflexivity. }
  rewrite Heq. cbn [fst snd].
  repeat split.
  - intros Hd. apply Z.ltb_ge in Hd. exact Hd.
  - intros Hd. apply Z.ltb_ge. exact Hd.
  - intros Hd. apply Z.mod_small.
    pose proof (Bytes.be2Z_range digest). lia.
  - apply varint7_top_bit_clear.
  - intros ->. subst digest. reflexivity.
Qed.

End SighashSpec.

(** ** The session state machine *)

Definition Zsum (l : list Z) : Z := fold_right Z.add 0 l.

Section Session.
Context `{Prims : Primitives}.

Implicit Types aggctx : secp256k1_aggsig_context.

(** *** generate_nonce *)

(** C9.  [generate_nonce] needs [index < n_sigs] and
    [progress[index] = UNKNOWN]; when either fails it returns 0 and the
    session, including the RNG state, is what it was. *)
Theorem generate_nonce_requires fuel ctx aggctx index :
  ~ ((index < n_sigs aggctx)%nat
     /\ progress aggctx !! index = Some NONCE_PROGRESS_UNKNOWN) ->
  secp256k1_aggsig_generate_nonce fuel ctx aggctx index = Some (aggctx, false).
Proof.
  intros Hpre. unfold secp256k1_aggsig_generate_nonce.
  destruct (ecmult_gen_ctx_built ctx); cbn [negb]; [|reflexivity].
  destruct (Nat.ltb_spec index (n_sigs aggctx)) as [Hlt|Hge]; cbn [negb];
    [|reflexivity].
  destruct (progress aggctx !! index) as [[]|] eqn:E; try reflexivity.
  exfalso. apply Hpre. split; [exact Hlt | reflexivity].
Qed.

Lemma generate_nonce_success fuel ctx aggctx index aggctx' :
  secp256k1_aggsig_generate_nonce fuel ctx aggctx index = Some (aggctx', true) ->
  ecmult_gen_ctx_built ctx = true /\ (index < n_sigs aggctx)%nat /\
  progress aggctx !! index = Some NONCE_PROGRESS_UNKNOWN /\
  exists k r', nonce_loop fuel (rng aggctx) = Some (k, r') /\
    let R := secp256k1_ecmult_gen k in
    let k' := if secp256k1_gej_has_quad_y_var R then k
              else secp256k1_scalar_negate k in
    aggctx' = {| progress := <[index := NONCE_PROGRESS_OURS]> (progress aggctx);
                 pubkeys := pubkeys aggctx;
                 secnonce := <[index := k']> (secnonce aggctx);
                 pubnonce_sum :=
                   secp256k1_gej_add_var (pubnonce_sum aggctx) (qr_rep R);
                 n_sigs := n_sigs aggctx;
                 rng := r' |}.
Proof.
  unfold secp256k1_aggsig_generate_nonce, qr_rep.
  destruct (ecmult_gen_ctx_built ctx); cbn [negb]; [|intros [=]].
  destruct (Nat.ltb_spec index (n_sigs aggctx)) as [Hlt|Hge]; cbn [negb];
    [|intros [=]].
  destruct (progress aggctx !! index) as [[]|] eqn:E;
    try (intros Hs; discriminate Hs).
  destruct (nonce_loop fuel (rng aggctx)) as [[k r']|] eqn:El;
    [|intros Hs; discriminate Hs].
  intros Hs. repeat split; try assumption.
  exists k, r'. split; [reflexivity|].
  destruct (secp256k1_gej_has_quad_y_var (secp256k1_ecmult_gen k));
    cbn [negb] in Hs |- *; injection Hs as <-; reflexivity.
Qed.

Lemma nonce_loop_valid fuel : forall r k r',
  nonce_loop fuel r = Some (k, r') ->
  0 < order_n -> 0 < k < order_n.
Proof.
  induction fuel as [|fuel IH]; intros r k r'; cbn [nonce_loop]; [intros [=]|].
  destruct (secp256k1_rfc6979_hmac_sha256_generate r) as [data r1].
  unfold secp256k1_scalar_set_b32, secp256k1_scalar_is_zero.
  destruct (Z.leb_spec order_n (Bytes.be2Z (take 32 data))) as [Ho|Ho];
    cbn [orb]; [apply IH|].
  destruct (Z.eqb_spec (Bytes.be2Z (take 32 data) mod order_n) 0) as [Hz|Hz];
    [apply IH|].
  intros [= <- <-] Hn.
  pose proof (Z.mod_pos_bound (Bytes.be2Z (take 32 data)) order_n Hn). lia.
Qed.

(** *** partial_sign *)

Lemma qr_rep_flip P :
  (if negb (secp256k1_gej_has_quad_y_var P) then secp256k1_gej_neg P else P)
  = qr_rep P.
Proof. unfold qr_rep. destruct (secp256k1_gej_has_quad_y_var P); reflexivity. Qed.

(** The [secnonce] array after the sign fix of [partial_sign]. *)
Definition flipped_secnonce aggctx (index : nat) : list Z :=
  if secp256k1_gej_has_quad_y_var (pubnonce_sum aggctx)
  then secnonce aggctx
  else <[index := secp256k1_scalar_negate (default 0 (secnonce aggctx !! index))]>
         (secnonce aggctx).

Lemma partial_sign_success ctx aggctx partial msghash32 seckey32 index aggctx' partial' :
  secp256k1_aggsig_partial_sign ctx aggctx partial msghash32 seckey32 index
    = Returns (aggctx', partial', true) ->
  ecmult_gen_ctx_built ctx = true /\ (index < n_sigs aggctx)%nat /\
  any_unknown (take (n_sigs aggctx) (progress aggctx)) = false /\
  progress aggctx !! index = Some NONCE_PROGRESS_OURS /\
  exists prehash e x,
    secp256k1_compute_prehash (pubkeys aggctx) (n_sigs aggctx)
      (qr_rep (pubnonce_sum aggctx)) msghash32 = Returns prehash /\
    secp256k1_compute_sighash prehash index = (e, true) /\
    secp256k1_scalar_set_b32 seckey32 = (x, false) /\
    partial' = secp256k1_scalar_get_b32
                 (secp256k1_scalar_add (secp256k1_scalar_mul x e)
                    (default 0 (flipped_secnonce aggctx index !! index))) /\
    aggctx' = {| progress := <[index := NONCE_PROGRESS_SIGNED]> (progress aggctx);
                 pubkeys := pubkeys aggctx;
                 secnonce := flipped_secnonce aggctx index;
                 pubnonce_sum := pubnonce_sum aggctx;
                 n_sigs := n_sigs aggctx;
                 rng := rng aggctx |}.
Proof.
  unfold secp256k1_aggsig_partial_sign, flipped_secnonce.
  rewrite qr_rep_flip.
  destruct (ecmult_gen_ctx_built ctx); cbn [negb]; [|intros Hs; discriminate Hs].
  destruct (Nat.ltb_spec index (n_sigs aggctx)) as [Hlt|Hge]; cbn [negb];
    [|intros Hs; discriminate Hs].
  destruct (any_unknown (take (n_sigs aggctx) (progress aggctx))) eqn:Eu;
    [intros Hs; discriminate Hs|].
  destruct (progress aggctx !! index) as [[]|] eqn:E;
    try (intros Hs; discriminate Hs).
  destruct (secp256k1_compute_prehash (pubkeys aggctx) (n_sigs aggctx)
              (qr_rep (pubnonce_sum aggctx)) msghash32) as [prehash|] eqn:Ep;
    cbn [obind]; [|intros Hs; discriminate Hs].
  destruct (secp256k1_compute_sighash prehash index) as [e ok] eqn:Ee.
  destruct ok; cbn [negb]; [|intros Hs; discriminate Hs].
  destruct (secp256k1_scalar_set_b32 seckey32) as [x overflow] eqn:Ex.
  destruct overflow; [intros Hs; discriminate Hs|].
  intros Hs. repeat split; try assumption.
  exists prehash, e, x. repeat split; try assumption;
    destruct (secp256k1_gej_has_quad_y_var (pubnonce_sum aggctx));
    cbn [negb] in Hs |- *; injection Hs as <- <-; reflexivity.
Qed.

Lemma partial_sign_failure ctx aggctx partial msghash32 seckey32 index aggctx' partial' :
  secp256k1_aggsig_partial_sign ctx aggctx partial msghash32 seckey32 index
    = Returns (aggctx', partial', false) ->
  partial' = partial /\
  progress aggctx' = progress aggctx /\ pubkeys aggctx' = pubkeys aggctx /\
  pubnonce_sum aggctx' = pubnonce_sum aggctx /\ n_sigs aggctx' = n_sigs aggctx /\
  rng aggctx' = rng aggctx /\
  (secnonce aggctx' = secnonce aggctx
   \/ secnonce aggctx' = flipped_secnonce aggctx index).
Proof.
  unfold secp256k1_aggsig_partial_sign, flipped_secnonce.
  rewrite qr_rep_flip.
  destruct (ecmult_gen_ctx_built ctx); cbn [negb];
    [|intros [= <- <-]; tauto].
  destruct (Nat.ltb_spec index (n_sigs aggctx)) as [Hlt|Hge]; cbn [negb];
    [|intros [= <- <-]; tauto].
  destruct (any_unknown (take (n_sigs aggctx) (progress aggctx))) eqn:Eu;
    [intros [= <- <-]; tauto|].
  destruct (progress aggctx !! index) as [[]|] eqn:E;
    try (intros [= <- <-]; tauto).
  destruct (secp256k1_compute_prehash (pubkeys aggctx) (n_sigs aggctx)
              (qr_rep (pubnonce_sum aggctx)) msghash32) as [prehash|] eqn:Ep;
    cbn [obind]; [|intros Hs; discriminate Hs].
  destruct (secp256k1_compute_sighash prehash index) as [e ok] eqn:Ee.
  destruct (secp256k1_gej_has_quad_y_var (pubnonce_sum aggctx)); cbn [negb];
    (destruct ok; cbn [negb]; [|intros [= <- <-]; cbn; tauto]);
    (destruct (secp256k1_scalar_set_b32 seckey32) as [x overflow] eqn:Ex;
     destruct overflow; [intros [= <- <-]; cbn; tauto|intros Hs; discriminate Hs]).
Qed.

(** *** combine *)

Lemma sum_partials_spec partial : forall a,
  sum_partials partial (a mod order_n)
  = if forallb (fun p => Bytes.be2Z (take 32 p) <? order_n) partial
    then Some ((a + Zsum (map (fun p => Bytes.be2Z (take 32 p)) partial))
               mod order_n)
    else None.
Proof.
  induction partial as [|p rest IH]; intros a; cbn [sum_partials forallb map Zsum fold_right].
  - rewrite Z.add_0_r. reflexivity.
  - unfold secp256k1_scalar_set_b32.
    rewrite (Z.ltb_antisym order_n (Bytes.be2Z (take 32 p))).
    destruct (order_n <=? Bytes.be2Z (take 32 p)); cbn [negb andb]; [reflexivity|].
    unfold secp256k1_scalar_add. rewrite <- Zplus_mod, IH.
    fold (Zsum (map (fun p => Bytes.be2Z (take 32 p)) rest)).
    rewrite Z.add_assoc. reflexivity.
Qed.

Lemma combine_unfold ctx aggctx sig64 partial n :
  secp256k1_aggsig_combine_signatures ctx aggctx sig64 partial n
  = if (n =? n_sigs aggctx)%nat
       && forallb (fun p => Bytes.be2Z (take 32 p) <? order_n) (take n partial)
    then ({| progress := progress aggctx; pubkeys := pubkeys aggctx;
             secnonce := secnonce aggctx;
             pubnonce_sum := qr_rep (pubnonce_sum aggctx);
             n_sigs := n_sigs aggctx; rng := rng aggctx |},
          Bytes.Z2be 32
            (Zsum (map (fun p => Bytes.be2Z (take 32 p)) (take n partial))
             mod order_n)
          ++ Bytes.Z2be 32
               (secp256k1_fe_normalize_var (ge_x (qr_rep (pubnonce_sum aggctx)))),
          true)
    else (aggctx, sig64, false).
Proof.
  unfold secp256k1_aggsig_combine_signatures, secp256k1_scalar_set_int.
  destruct (n =? n_sigs aggctx)%nat; cbn [negb andb]; [|reflexivity].
  rewrite sum_partials_spec, qr_rep_flip. cbn [Z.add].
  destruct (forallb _ (take n partial)); reflexivity.
Qed.

Lemma forallb_below_false (f : list byte -> Z) (l : list (list byte)) :
  forallb (fun p => f p <? order_n) l = false
  <-> Exists (fun p => order_n <= f p) l.
Proof.
  induction l as [|p l IH]; cbn [forallb].
  - split; [discriminate | intros HE; inversion HE].
  - destruct (Z.ltb_spec (f p) order_n) as [Hlt|Hge]; cbn [andb].
    + rewrite IH. split; [intros HE; right; exact HE|].
      intros HE. inversion HE; subst; [lia | assumption].
    + split; [intros _; left; exact Hge | reflexivity].
Qed.

Lemma map_be2Z_take32 (l : list (list byte)) :
  Forall (fun p => length p = 32%nat) l ->
  map (fun p => Bytes.be2Z (take 32 p)) l = map Bytes.be2Z l.
Proof.
  induction 1 as [|p l Hp _ IH]; cbn [map]; [reflexivity|].
  rewrite IH, (firstn_all2 p) by lia. reflexivity.
Qed.

Lemma forallb_take32 (l : list (list byte)) :
  Forall (fun p => length p = 32%nat) l ->
  forallb (fun p => Bytes.be2Z (take 32 p) <? order_n) l
  = forallb (fun p => Bytes.be2Z p <? order_n) l.
Proof.
  induction 1 as [|p l Hp _ IH]; cbn [forallb]; [reflexivity|].
  rewrite IH, (firstn_all2 p) by lia. reflexivity.
Qed.

(** C8.  [combine] fails exactly when the count differs from the session's
    or some partial encodes an integer that is at least the group order,
    whatever the progress states are; on success bytes 0..31 hold the sum
    of the partial scalars modulo the order, big-endian, and bytes 32..63
    the normalised x coordinate of the quadratic-residue representative of
    [pubnonce_sum]. *)
Theorem combine_signatures_spec ctx aggctx sig64 (partial : list (list byte)) n :
  length partial = n ->
  Forall (fun p => length p = 32%nat) partial ->
  let r := secp256k1_aggsig_combine_signatures ctx aggctx sig64 partial n in
  (r.2 = false <->
     n <> n_sigs aggctx \/ Exists (fun p => order_n <= Bytes.be2Z p) partial)
  /\ (r.2 = true ->
      length r.1.2 = 64%nat
      /\ take 32 r.1.2
         = Bytes.Z2be 32 (Zsum (map Bytes.be2Z partial) mod order_n)
      /\ drop 32 r.1.2
         = Bytes.Z2be 32
             (secp256k1_fe_normalize_var (ge_x (qr_rep (pubnonce_sum aggctx)))))
  /\ (r.2 = false -> r.1.2 = sig64)
  /\ (forall pr,
        let r' := secp256k1_aggsig_combine_signatures ctx
                    {| progress := pr; pubkeys := pubkeys aggctx;
                       secnonce := secnonce aggctx;
                       pubnonce_sum := pubnonce_sum aggctx;
                       n_sigs := n_sigs aggctx; rng := rng aggctx |}
                    sig64 partial n in
        r'.2 = r.2 /\ r'.1.2 = r.1.2).
Proof.
  intros Hlen H32 r.
  assert (Htake : take n partial = partial) by (apply firstn_all2; lia).
  pose proof (forallb_below_false Bytes.be2Z partial) as Hex.
  assert (Hpr : forall pr,
    let r' := secp256k1_aggsig_combine_signatures ctx
                {| progress := pr; pubkeys := pubkeys aggctx;
                   secnonce := secnonce aggctx;
                   pubnonce_sum := pubnonce_sum aggctx;
                   n_sigs := n_sigs aggctx; rng := rng aggctx |}
                sig64 partial n in
    r'.2 = r.2 /\ r'.1.2 = r.1.2).
  { intros pr r'. subst r r'. rewrite !combine_unfold.
    cbn [pubnonce_sum n_sigs]. destruct (_ && _); split; reflexivity. }
  refine ((fun H3 => match H3 with
                     | conj Ha (conj Hb Hc) => conj Ha (conj Hb (conj Hc Hpr))
                     end) _).
  clear Hpr. subst r. rewrite !combine_unfold.
  rewrite Htake, (map_be2Z_take32 partial H32), (forallb_take32 partial H32).
  destruct (Nat.eqb_spec n (n_sigs aggctx)) as [Hn|Hn]; cbn [andb].
  - destruct (forallb _ partial) eqn:Ef; cbn [fst snd].
    + split; [|split].
      * split; [discriminate|].
        intros [Hc|Hc]; [contradiction|]. apply Hex in Hc. discriminate Hc.
      * intros _. split; [|split].
        -- rewrite length_app, !Bytes.length_Z2be. reflexivity.
        -- rewrite take_app_length'; [reflexivity|].
           symmetry. apply Bytes.length_Z2be.
        -- rewrite drop_app_length'; [reflexivity|].
           symmetry. apply Bytes.length_Z2be.
      * discriminate.
    + split; [|split].
      * split; [|reflexivity]. intros _. right. apply Hex. reflexivity.
      * discriminate.
      * reflexivity.
  - cbn [fst snd]. split; [|split].
    + split; [|reflexivity]. intros _. left. exact Hn.
    + discriminate.
    + reflexivity.
Qed.

(** C3, as amended.  [combine] leaves [progress], the roster, [secnonce],
    [n_sigs] and the RNG as they were; when it fails [pubnonce_sum] is
    unchanged as well, and when it succeeds [pubnonce_sum] is overwritten
    with its quadratic-residue representative. *)
Theorem combine_frame ctx aggctx sig64 (partial : list (list byte)) n :
  let r := secp256k1_aggsig_combine_signatures ctx aggctx sig64 partial n in
  progress r.1.1 = progress aggctx
  /\ pubkeys r.1.1 = pubkeys aggctx
  /\ secnonce r.1.1 = secnonce aggctx
  /\ n_sigs r.1.1 = n_sigs aggctx
  /\ rng r.1.1 = rng aggctx
  /\ pubnonce_sum r.1.1
     = (if r.2 then qr_rep (pubnonce_sum aggctx) else pubnonce_sum aggctx).
Proof.
  intros r. subst r. rewrite combine_unfold.
  destruct (_ && _); cbn; repeat split; reflexivity.
Qed.

(** *** SIGNED is terminal *)

Lemma generate_nonce_failure fuel ctx aggctx index aggctx' :
  secp256k1_aggsig_generate_nonce fuel ctx aggctx index = Some (aggctx', false) ->
  aggctx' = aggctx.
Proof.
  unfold secp256k1_aggsig_generate_nonce.
  destruct (ecmult_gen_ctx_built ctx); cbn [negb]; [|intros [= <-]; reflexivity].
  destruct (index <? n_sigs aggctx)%nat; cbn [negb]; [|intros [= <-]; reflexivity].
  destruct (progress aggctx !! index) as [[]|];
    try (intros [= <-]; reflexivity).
  destruct (nonce_loop fuel (rng aggctx)) as [[k r']|];
    [|intros Hs; discriminate Hs].
  destruct (negb _); intros Hs; discriminate Hs.
Qed.

Lemma step_keeps_signed ctx aggctx c aggctx' i :
  progress aggctx !! i = Some NONCE_PROGRESS_SIGNED ->
  step ctx aggctx c = Some aggctx' ->
  progress aggctx' !! i = Some NONCE_PROGRESS_SIGNED.
Proof.
  intros Hi. destruct c as [fuel index|partial msg key index|sig64 partial n|];
    cbn [step].
  - destruct (secp256k1_aggsig_generate_nonce fuel ctx aggctx index)
      as [[a [|]]|] eqn:Eg; [| |intros Hs; discriminate Hs]; intros [= <-].
    + apply generate_nonce_success in Eg as (_ & _ & Hu & k & r' & _ & ->).
      cbn [progress]. rewrite list_lookup_insert_ne; [exact Hi|].
      intros ->. congruence.
    + apply generate_nonce_failure in Eg as ->. exact Hi.
  - destruct (secp256k1_aggsig_partial_sign ctx aggctx partial msg key index)
      as [[[a p'] [|]]|] eqn:Es; [| |intros Hs; discriminate Hs]; intros [= <-].
    + apply partial_sign_success in Es
        as (_ & _ & _ & Ho & prehash & e & x & _ & _ & _ & _ & ->).
      cbn [progress]. rewrite list_lookup_insert_ne; [exact Hi|].
      intros ->. congruence.
    + apply partial_sign_failure in Es as (_ & -> & _). exact Hi.
  - intros [= <-].
    rewrite combine_unfold. destruct (_ && _); exact Hi.
  - intros Hs; discriminate Hs.
Qed.

(** A successful [partial_sign] leaves its index SIGNED. *)
Lemma partial_sign_marks_signed ctx aggctx partial msghash32 seckey32 index aggctx' partial' :
  secp256k1_aggsig_partial_sign ctx aggctx partial msghash32 seckey32 index
    = Returns (aggctx', partial', true) ->
  progress aggctx' !! index = Some NONCE_PROGRESS_SIGNED.
Proof.
  intros Hs. apply partial_sign_success in Hs
    as (_ & _ & _ & Ho & prehash & e & x & _ & _ & _ & _ & ->).
  cbn [progress]. apply list_lookup_insert_eq.
  apply lookup_lt_Some in Ho. exact Ho.
Qed.

Lemma partial_sign_on_signed ctx aggctx partial msghash32 seckey32 i :
  progress aggctx !! i = Some NONCE_PROGRESS_SIGNED ->
  secp256k1_aggsig_partial_sign ctx aggctx partial msghash32 seckey32 i
  = Returns (aggctx, partial, false).
Proof.
  intros Hi. unfold secp256k1_aggsig_partial_sign. rewrite Hi.
  repeat match goal with
         | |- (if ?b then _ else _) = _ => destruct b
         end; reflexivity.
Qed.

Lemma run_keeps_signed ctx i calls : forall aggctx aggctx',
  progress aggctx !! i = Some NONCE_PROGRESS_SIGNED ->
  run ctx calls aggctx = Some aggctx' ->
  progress aggctx' !! i = Some NONCE_PROGRESS_SIGNED.
Proof.
  induction calls as [|c calls IH]; intros aggctx aggctx' Hi; cbn [run].
  - intros [= <-]. exact Hi.
  - destruct (step ctx aggctx c) as [a|] eqn:Es; [|intros Hs; discriminate Hs].
    apply IH. exact (step_keeps_signed _ _ _ _ _ Hi Es).
Qed.

(** C6.  SIGNED is terminal: whatever calls are made on a live session, an
    index that is SIGNED stays SIGNED; [partial_sign] on a SIGNED index
    returns 0 and writes neither the session nor the partial; so after a
    successful [partial_sign] on an index, and whatever calls follow, a
    second [partial_sign] on that index returns 0 and produces no partial. *)
Theorem signed_is_terminal ctx i :
  (forall aggctx calls aggctx',
     progress aggctx !! i = Some NONCE_PROGRESS_SIGNED ->
     run ctx calls aggctx = Some aggctx' ->
     progress aggctx' !! i = Some NONCE_PROGRESS_SIGNED)
  /\ (forall aggctx partial msghash32 seckey32,
        progress aggctx !! i = Some NONCE_PROGRESS_SIGNED ->
        secp256k1_aggsig_partial_sign ctx aggctx partial msghash32 seckey32 i
        = Returns (aggctx, partial, false))
  /\ (forall aggctx0 partial0 msg0 key0 aggctx1 partial1 calls aggctx2,
        secp256k1_aggsig_partial_sign ctx aggctx0 partial0 msg0 key0 i
        = Returns (aggctx1, partial1, true) ->
        run ctx calls aggctx1 = Some aggctx2 ->
        forall partial msghash32 seckey32,
          secp256k1_aggsig_partial_sign ctx aggctx2 partial msghash32 seckey32 i
          = Returns (aggctx2, partial, false)).
Proof.
  split; [|split].
  - intros aggctx calls aggctx'. apply run_keeps_signed.
  - intros aggctx partial msg key. apply partial_sign_on_signed.
  - intros aggctx0 partial0 msg0 key0 aggctx1 partial1 calls aggctx2 Hs Hr
      partial msg key.
    apply partial_sign_on_signed.
    apply (run_keeps_signed ctx i calls aggctx1); [|exact Hr].
    exact (partial_sign_marks_signed _ _ _ _ _ _ _ _ Hs).
Qed.

End Session.

(** ** Consequences of the group laws *)

Section Group.
Context `{Prims : Primitives} {GLaws : GroupLaws} {ELaws : EndoLaws}.

Local Notation "P ⊕ Q" := (secp256k1_gej_add_var P Q) (at level 50, left associativity).
Local Notation "⊖ P" := (secp256k1_gej_neg P) (at level 35, right associativity).

Lemma add_infinity_r P : P ⊕ infinity = P.
Proof. rewrite add_comm. apply add_infinity_l. Qed.

Lemma add_neg_l P : ⊖ P ⊕ P = infinity.
Proof. rewrite add_comm. apply add_neg_r. Qed.

Lemma add_cancel_l P Q R : P ⊕ Q = P ⊕ R -> Q = R.
Proof.
  intros HE.
  rewrite <- (add_infinity_l Q), <- (add_infinity_l R), <- (add_neg_l P).
  rewrite <- !add_assoc, HE. reflexivity.
Qed.

Lemma neg_infinity : ⊖ infinity = infinity.
Proof. rewrite <- (add_infinity_l (⊖ infinity)). apply add_neg_r. Qed.

Lemma neg_unique P Q : P ⊕ Q = infinity -> Q = ⊖ P.
Proof.
  intros HE. apply (add_cancel_l P). rewrite HE, add_neg_r. reflexivity.
Qed.

Lemma neg_neg P : ⊖ ⊖ P = P.
Proof. symmetry. apply neg_unique. apply add_neg_l. Qed.

Lemma neg_add P Q : ⊖ (P ⊕ Q) = ⊖ P ⊕ ⊖ Q.
Proof.
  symmetry. apply neg_unique.
  rewrite add_assoc, <- (add_assoc P Q), (add_comm Q), (add_assoc P).
  rewrite add_neg_r, add_infinity_l. apply add_neg_r.
Qed.

Lemma neg_eq_infinity P : ⊖ P = infinity <-> P = infinity.
Proof.
  split; intros HE.
  - rewrite <- (neg_neg P), HE. apply neg_infinity.
  - rewrite HE. apply neg_infinity.
Qed.

Lemma add_neg_eq_infinity P Q : P ⊕ ⊖ Q = infinity <-> P = Q.
Proof.
  split; intros HE.
  - rewrite <- (neg_neg Q). apply neg_unique. rewrite add_comm. exact HE.
  - subst. apply add_neg_r.
Qed.

(** *** Scalar multiplication *)

Lemma ecmult_pos_succ q P :
  ecmult (Zpos (Pos.succ q)) P = P ⊕ ecmult (Zpos q) P.
Proof. cbn [ecmult]. apply Pos.iter_op_succ. exact add_assoc. Qed.

Lemma ecmult_succ k P : ecmult (Z.succ k) P = P ⊕ ecmult k P.
Proof.
  destruct k as [|q|q].
  - cbn. rewrite add_infinity_r. reflexivity.
  - replace (Z.succ (Z.pos q)) with (Z.pos (Pos.succ q)) by lia.
    apply ecmult_pos_succ.
  - destruct (Pos.eq_dec q 1%positive) as [->|Hq].
    + cbn. rewrite add_neg_r. reflexivity.
    + replace (Z.succ (Z.neg q)) with (Z.neg (Pos.pred q)) by lia.
      change (ecmult (Z.neg (Pos.pred q)) P) with (⊖ ecmult (Z.pos (Pos.pred q)) P).
      change (ecmult (Z.neg q) P) with (⊖ ecmult (Z.pos q) P).
      rewrite <- (Pos.succ_pred q Hq) at 2.
      rewrite ecmult_pos_succ, neg_add, add_assoc, add_neg_r, add_infinity_l.
      reflexivity.
Qed.

Lemma ecmult_pred k P : ecmult (Z.pred k) P = ⊖ P ⊕ ecmult k P.
Proof.
  rewrite <- (Z.succ_pred k) at 2.
  rewrite ecmult_succ, add_assoc, add_neg_l, add_infinity_l. reflexivity.
Qed.

Lemma ecmult_0 P : ecmult 0 P = infinity.
Proof. reflexivity. Qed.

Lemma ecmult_1 P : ecmult 1 P = P.
Proof. reflexivity. Qed.

Lemma ecmult_add a b P : ecmult (a + b) P = ecmult a P ⊕ ecmult b P.
Proof.
  induction a as [|a IH|a IH] using Z.peano_ind.
  - rewrite Z.add_0_l, ecmult_0, add_infinity_l. reflexivity.
  - rewrite Z.add_succ_l, !ecmult_succ, IH, add_assoc. reflexivity.
  - rewrite Z.add_pred_l, !ecmult_pred, IH, add_assoc. reflexivity.
Qed.

Lemma ecmult_opp k P : ecmult (- k) P = ⊖ ecmult k P.
Proof.
  destruct k as [|q|q]; cbn [Z.opp ecmult].
  - symmetry. apply neg_infinity.
  - reflexivity.
  - symmetry. apply neg_neg.
Qed.

Lemma ecmult_infinity k : ecmult k infinity = infinity.
Proof.
  induction k as [|k IH|k IH] using Z.peano_ind.
  - reflexivity.
  - rewrite ecmult_succ, IH. apply add_infinity_l.
  - rewrite ecmult_pred, IH, neg_infinity. apply add_infinity_l.
Qed.

Lemma ecmult_mul a b P : ecmult (a * b) P = ecmult a (ecmult b P).
Proof.
  induction a as [|a IH|a IH] using Z.peano_ind.
  - reflexivity.
  - rewrite Z.mul_succ_l, ecmult_add, ecmult_succ, IH. apply add_comm.
  - rewrite Z.mul_pred_l, ecmult_pred.
    replace (a * b - b) with (a * b + - b) by lia.
    rewrite ecmult_add, ecmult_opp, IH. apply add_comm.
Qed.

Lemma ecmult_mod k P : ecmult (k mod order_n) P = ecmult k P.
Proof.
  pose proof order_n_gt_1 as Hn.
  rewrite (Z.div_mod k order_n) at 2 by lia.
  rewrite ecmult_add, (Z.mul_comm order_n), ecmult_mul, ecmult_order.
  rewrite ecmult_infinity, add_infinity_l. reflexivity.
Qed.

Lemma ecmult_gen_negate k :
  secp256k1_ecmult_gen (secp256k1_scalar_negate k) = ⊖ secp256k1_ecmult_gen k.
Proof.
  unfold secp256k1_ecmult_gen, secp256k1_scalar_negate.
  rewrite ecmult_mod. apply ecmult_opp.
Qed.

Lemma ecmult_neg_point k P : ecmult k (⊖ P) = ⊖ ecmult k P.
Proof.
  induction k as [|k IH|k IH] using Z.peano_ind.
  - symmetry. apply neg_infinity.
  - rewrite !ecmult_succ, IH, neg_add. reflexivity.
  - rewrite !ecmult_pred, IH, neg_add. reflexivity.
Qed.

Lemma ecmult_negate_neg k P :
  ecmult (secp256k1_scalar_negate k) (⊖ P) = ecmult k P.
Proof.
  unfold secp256k1_scalar_negate.
  rewrite ecmult_mod, ecmult_opp, ecmult_neg_point. apply neg_neg.
Qed.

(** [secp256k1_aggsig_endo_split] keeps [s1*p1 + s2*p2] equal to the
    product it was given. *)
Lemma endo_split_sound s P :
  USE_ENDOMORPHISM = true ->
  let '(s1, s2, p1, p2) := secp256k1_aggsig_endo_split s P in
  ecmult s1 p1 ⊕ ecmult s2 p2 = ecmult s P.
Proof.
  intros Hendo. unfold secp256k1_aggsig_endo_split.
  pose proof (split_lambda_sound Hendo s P) as Hsplit.
  destruct (secp256k1_scalar_split_lambda s) as [r1 r2]. cbn [fst snd] in Hsplit.
  destruct (secp256k1_scalar_is_high r1), (secp256k1_scalar_is_high r2);
    rewrite ?ecmult_negate_neg; exact Hsplit.
Qed.

(** *** The quadratic-residue representative *)

Lemma qr_rep_has_quad_y P :
  P <> infinity -> secp256k1_gej_has_quad_y_var (qr_rep P) = true.
Proof.
  intros HP. unfold qr_rep.
  destruct (secp256k1_gej_has_quad_y_var P) eqn:E; [exact E|].
  rewrite has_quad_y_neg, E by exact HP. reflexivity.
Qed.

Lemma qr_rep_idem P : qr_rep (qr_rep P) = qr_rep P.
Proof.
  destruct (decide (P = infinity)) as [->|HP].
  - unfold qr_rep. rewrite neg_infinity.
    destruct (secp256k1_gej_has_quad_y_var infinity) eqn:E; rewrite ?E;
      [reflexivity | apply neg_infinity].
  - pose proof (qr_rep_has_quad_y P HP) as Hq.
    unfold qr_rep at 1. rewrite Hq. reflexivity.
Qed.

Lemma qr_rep_infinity P : qr_rep P = infinity <-> P = infinity.
Proof.
  unfold qr_rep. destruct (secp256k1_gej_has_quad_y_var P); [tauto|].
  apply neg_eq_infinity.
Qed.

Lemma ge_x_qr_rep P : ge_x (qr_rep P) = ge_x P.
Proof.
  unfold qr_rep. destruct (secp256k1_gej_has_quad_y_var P);
    [reflexivity | apply ge_x_neg].
Qed.

(** C10.  A second [combine] on the session the first one left, with the
    same partials and the buffer the first one wrote, returns the same
    value, writes the same bytes and leaves the session as it is: after a
    successful first call [pubnonce_sum] is its own quadratic-residue
    representative. *)
Theorem combine_idempotent ctx (aggctx : secp256k1_aggsig_context) sig64
    (partial : list (list byte)) n :
  let r := secp256k1_aggsig_combine_signatures ctx aggctx sig64 partial n in
  secp256k1_aggsig_combine_signatures ctx r.1.1 r.1.2 partial n = r
  /\ (r.2 = true ->
      pubnonce_sum r.1.1 = qr_rep (pubnonce_sum aggctx)
      /\ qr_rep (pubnonce_sum r.1.1) = pubnonce_sum r.1.1).
Proof.
  intros r. subst r. rewrite (combine_unfold ctx aggctx).
  destruct (_ && _) eqn:E; cbn [fst snd]; rewrite combine_unfold;
    cbn [pubnonce_sum n_sigs progress pubkeys secnonce rng]; rewrite E.
  - rewrite qr_rep_idem. split; [reflexivity|].
    intros _. split; reflexivity.
  - split; [reflexivity | discriminate].
Qed.

(** C7.  After a successful [generate_nonce] at [index], with [k] the
    scalar that was drawn and [R = k*G] the point that was drawn:
    [secnonce[index]*G] is [R] when [R] has a quadratic-residue y and [-R]
    otherwise, [pubnonce_sum] has grown by that representative, and the
    representative has a quadratic-residue y. *)
Theorem generate_nonce_canonical fuel ctx (aggctx : secp256k1_aggsig_context)
    index aggctx' :
  wf_session aggctx ->
  secp256k1_aggsig_generate_nonce fuel ctx aggctx index = Some (aggctx', true) ->
  exists k r',
    nonce_loop fuel (rng aggctx) = Some (k, r') /\ 0 < k < order_n /\
    let R := secp256k1_ecmult_gen k in
    secp256k1_ecmult_gen (default 0 (secnonce aggctx' !! index))
      = (if secp256k1_gej_has_quad_y_var R then R else ⊖ R)
    /\ pubnonce_sum aggctx'
       = pubnonce_sum aggctx ⊕ (if secp256k1_gej_has_quad_y_var R then R else ⊖ R)
    /\ secp256k1_gej_has_quad_y_var
         (if secp256k1_gej_has_quad_y_var R then R else ⊖ R) = true
    /\ progress aggctx' !! index = Some NONCE_PROGRESS_OURS.
Proof.
  intros (Hlp & _ & Hls) Hg.
  apply generate_nonce_success in Hg as (_ & Hlt & Hu & k & r' & Hloop & ->).
  exists k, r'. split; [exact Hloop|].
  pose proof order_n_gt_1 as Hn.
  assert (Hk : 0 < k < order_n) by (apply (nonce_loop_valid _ _ _ _ Hloop); lia).
  split; [exact Hk|].
  assert (HR : secp256k1_ecmult_gen k <> infinity) by (apply generator_order; exact Hk).
  cbn [secnonce pubnonce_sum progress]. cbv zeta.
  rewrite !list_lookup_insert_eq by lia. cbn [default].
  fold (qr_rep (secp256k1_ecmult_gen k)).
  split; [|split; [reflexivity | split; [apply qr_rep_has_quad_y; exact HR | reflexivity]]].
  unfold qr_rep.
  destruct (secp256k1_gej_has_quad_y_var (secp256k1_ecmult_gen k));
    [reflexivity | apply ecmult_gen_negate].
Qed.

End Group.

(** ** Verification *)

Section Verify.
Context `{Prims : Primitives} {GLaws : GroupLaws} {ELaws : EndoLaws}.

Local Notation "P ⊕ Q" := (secp256k1_gej_add_var P Q) (at level 50, left associativity).
Local Notation "⊖ P" := (secp256k1_gej_neg P) (at level 35, right associativity).

(** [pubkeys[k]] *)
Definition pubkey_at (pks : list point) (k : nat) : point :=
  default infinity (pks !! k).

(** Does the challenge of index [k] parse as a scalar? *)
Definition challenge_ok (prehash : list byte) (k : nat) : bool :=
  (secp256k1_compute_sighash prehash k).2.

(** [e_k * P_k] *)
Definition challenge_term (prehash : list byte) (pks : list point) (k : nat) : point :=
  ecmult (secp256k1_compute_sighash prehash k).1 (pubkey_at pks k).

(** The sum of [f k] over the indices [ks]. *)
Definition point_sum (f : nat -> point) (ks : list nat) : point :=
  fold_right (fun k acc => f k ⊕ acc) infinity ks.

(** What one chunk adds: [(-e_k) * P_k]. *)
Definition negated_term (prehash : list byte) (pks : list point) (k : nat) : point :=
  ecmult (secp256k1_scalar_negate (secp256k1_compute_sighash prehash k).1)
         (pubkey_at pks k).

Lemma point_sum_app f ks1 ks2 :
  point_sum f (ks1 ++ ks2) = point_sum f ks1 ⊕ point_sum f ks2.
Proof.
  induction ks1 as [|k ks1 IH]; cbn [app point_sum fold_right].
  - rewrite add_infinity_l. reflexivity.
  - fold (point_sum f (ks1 ++ ks2)). fold (point_sum f ks1).
    rewrite IH, add_assoc. reflexivity.
Qed.

Lemma point_sum_neg f ks :
  point_sum (fun k => ⊖ f k) ks = ⊖ point_sum f ks.
Proof.
  induction ks as [|k ks IH]; cbn [point_sum fold_right].
  - symmetry. apply neg_infinity.
  - fold (point_sum f ks). fold (point_sum (fun k => ⊖ f k) ks).
    rewrite IH, neg_add. reflexivity.
Qed.

Lemma point_sum_ext f g ks :
  (forall k, In k ks -> f k = g k) -> point_sum f ks = point_sum g ks.
Proof.
  induction ks as [|k ks IH]; intros Hfg; cbn [point_sum fold_right]; [reflexivity|].
  fold (point_sum f ks). fold (point_sum g ks).
  rewrite IH, Hfg; [reflexivity | left; reflexivity | ].
  intros k' Hk'. apply Hfg. right. exact Hk'.
Qed.

Lemma negated_term_neg prehash pks k :
  negated_term prehash pks k = ⊖ challenge_term prehash pks k.
Proof.
  unfold negated_term, challenge_term, secp256k1_scalar_negate.
  rewrite ecmult_mod. apply ecmult_opp.
Qed.

(** *** The multi-scalar multiplication on array prefixes *)

Lemma ecmult_multi_sum_app sc1 pt1 sc2 pt2 :
  length sc1 = length pt1 ->
  ecmult_multi_sum (sc1 ++ sc2) (pt1 ++ pt2)
  = ecmult_multi_sum sc1 pt1 ⊕ ecmult_multi_sum sc2 pt2.
Proof.
  revert pt1. induction sc1 as [|s sc1 IH]; intros [|P pt1] Hlen;
    try discriminate Hlen; cbn [app ecmult_multi_sum length] in *.
  - rewrite add_infinity_l. reflexivity.
  - rewrite IH by lia. apply add_assoc.
Qed.

Lemma ecmult_multi_store (sc : list Z) (pt : list point) m s P :
  (m < length sc)%nat -> length pt = length sc ->
  secp256k1_ecmult_multi (<[m := s]> sc) (<[m := P]> pt) (S m)
  = secp256k1_ecmult_multi sc pt m ⊕ ecmult s P.
Proof.
  intros Hm Hlen. unfold secp256k1_ecmult_multi.
  rewrite !(take_S_r _ m) with (x := s) by (apply list_lookup_insert_eq; lia).
  rewrite (take_S_r _ m P) by (apply list_lookup_insert_eq; lia).
  rewrite !take_insert_ge by lia.
  rewrite ecmult_multi_sum_app by (rewrite !length_take; lia).
  cbn [ecmult_multi_sum]. rewrite add_infinity_r. reflexivity.
Qed.

Lemma ecmult_multi_store_above (sc : list Z) (pt : list point) m m' s P :
  (m <= m')%nat ->
  secp256k1_ecmult_multi (<[m' := s]> sc) (<[m' := P]> pt) m
  = secp256k1_ecmult_multi sc pt m.
Proof.
  intros Hm. unfold secp256k1_ecmult_multi.
  rewrite !take_insert_ge by lia. reflexivity.
Qed.

(** *** One chunk *)

Lemma verify_fill_spec prehash pks i offset todo : forall j sc pt,
  (j + offset + todo <= length sc)%nat -> length pt = length sc ->
  match verify_fill prehash pks i offset j todo sc pt with
  | None => forallb (challenge_ok prehash) (seq (i + j) todo) = false
  | Some (sc', pt') =>
      forallb (challenge_ok prehash) (seq (i + j) todo) = true
      /\ length sc' = length sc /\ length pt' = length pt
      /\ secp256k1_ecmult_multi sc' pt' (j + offset + todo)
         = secp256k1_ecmult_multi sc pt (j + offset)
           ⊕ point_sum (negated_term prehash pks) (seq (i + j) todo)
  end.
Proof.
  induction todo as [|todo IH]; intros j sc pt Hsc Hpt; cbn [verify_fill seq forallb].
  - repeat split; cbn [point_sum fold_right].
    rewrite Nat.add_0_r, add_infinity_r. reflexivity.
  - destruct (secp256k1_compute_sighash prehash (i + j)) as [e ok] eqn:Ee.
    assert (Hc : challenge_ok prehash (i + j) = ok)
      by (unfold challenge_ok; rewrite Ee; reflexivity).
    rewrite Hc. destruct ok; cbn [negb andb]; [|reflexivity].
    specialize (IH (S j)
                  (<[(j + offset)%nat := secp256k1_scalar_negate e]> sc)
                  (<[(j + offset)%nat := default infinity (pks !! (i + j)%nat)]> pt)).
    rewrite !length_insert in IH. specialize (IH ltac:(lia) Hpt).
    replace (i + S j)%nat with (S (i + j)) in IH by lia.
    destruct (verify_fill _ _ _ _ _ _ _ _) as [[sc' pt']|]; [|exact IH].
    destruct IH as (Hok & Hl1 & Hl2 & Hm).
    repeat split; try assumption.
    replace (j + offset + S todo)%nat with (S j + offset + todo)%nat by lia.
    rewrite Hm. cbn [point_sum fold_right].
    fold (point_sum (negated_term prehash pks) (seq (S (i + j)) todo)).
    replace (S j + offset)%nat with (S (j + offset)) by lia.
    rewrite ecmult_multi_store by lia.
    unfold negated_term at 2, pubkey_at. rewrite Ee. cbn [fst].
    rewrite add_assoc. reflexivity.
Qed.

(** *** The chunk loop *)

Lemma ecmult_multi_0 (sc : list Z) (pt : list point) :
  secp256k1_ecmult_multi sc pt 0 = infinity.
Proof. reflexivity. Qed.

Lemma seq_chunk_split n_pubkeys i offset :
  seq i (n_pubkeys - i)
  = seq i (verify_chunk n_pubkeys i offset)
    ++ seq (i + verify_chunk n_pubkeys i offset)
           (n_pubkeys - (i + verify_chunk n_pubkeys i offset)).
Proof.
  rewrite <- seq_app. f_equal. unfold verify_chunk. lia.
Qed.

Lemma verify_loop_spec prehash pks n_pubkeys i offset sc pt pk_sum :
  (offset <= Pos.to_nat SECP256K1_ECMULT_MULTI_MAX_N)%nat ->
  length sc = Pos.to_nat SECP256K1_ECMULT_MULTI_MAX_N ->
  length pt = Pos.to_nat SECP256K1_ECMULT_MULTI_MAX_N ->
  (i < n_pubkeys \/ offset = 0)%nat ->
  verify_loop prehash pks n_pubkeys i offset sc pt pk_sum
  = if forallb (challenge_ok prehash) (seq i (n_pubkeys - i))
    then Some (pk_sum ⊕ (secp256k1_ecmult_multi sc pt offset
                         ⊕ point_sum (negated_term prehash pks)
                             (seq i (n_pubkeys - i))))
    else None.
Proof.
  funelim (verify_loop prehash pks n_pubkeys i offset sc pt pk_sum).
  all: intros Hoff Hsc Hpt Hi.
  - assert (offset = 0%nat) as -> by lia.
    replace (n_pubkeys - i)%nat with 0%nat by lia.
    cbn [seq forallb point_sum fold_right].
    rewrite ecmult_multi_0, !add_infinity_r. reflexivity.
  - pose proof (verify_fill_spec prehash pks i offset
                  (verify_chunk n_pubkeys i offset) 0 sc pt) as Hf.
    rewrite Heq in Hf. cbn [Nat.add] in Hf. rewrite Nat.add_0_r in Hf.
    destruct Hf as (Hok & Hl1 & Hl2 & Hm);
      [unfold verify_chunk; lia | congruence |].
    rewrite H by (try lia; right; reflexivity).
    rewrite (seq_chunk_split n_pubkeys i offset), forallb_app, Hok. cbn [andb].
    destruct (forallb _ _); [|reflexivity].
    f_equal. rewrite ecmult_multi_0, add_infinity_l, point_sum_app.
    rewrite (Nat.add_comm _ offset), Hm, !add_assoc. reflexivity.
  - pose proof (verify_fill_spec prehash pks i offset
                  (verify_chunk n_pubkeys i offset) 0 sc pt) as Hf.
    rewrite Heq in Hf. rewrite Nat.add_0_r in Hf.
    rewrite (seq_chunk_split n_pubkeys i offset), forallb_app, Hf;
      [reflexivity | unfold verify_chunk; cbn [Nat.add]; lia | congruence].
Qed.

(** *** The prehash *)

(** The 33 bytes [secp256k1_compute_prehash] hashes for a point. *)
Definition compressed (P : point) : list byte :=
  take 33 (default [] (secp256k1_eckey_pubkey_serialize P)).

Lemma prehash_pubkeys_spec pks : forall hasher,
  Forall (fun P => P <> infinity) pks ->
  prehash_pubkeys pks hasher = Returns (hasher ++ concat (map compressed pks)).
Proof.
  induction pks as [|P pks IH]; intros hasher Hv; cbn [prehash_pubkeys map concat].
  - rewrite app_nil_r. reflexivity.
  - inversion Hv as [|? ? HP Hrest]; subst.
    destruct (secp256k1_eckey_pubkey_serialize P) as [buf|] eqn:E.
    + rewrite IH by exact Hrest. unfold secp256k1_sha256_write, compressed.
      rewrite E, <- app_assoc. reflexivity.
    + apply serialize_infinity in E. contradiction.
Qed.

(** H0 = SHA256(compressed keys, in order || compressed nonce || msg32). *)
Lemma compute_prehash_spec pks n_pubkeys R msg32 :
  length pks = n_pubkeys ->
  Forall (fun P => P <> infinity) pks -> R <> infinity ->
  secp256k1_compute_prehash pks n_pubkeys R msg32
  = Returns (sha256 (concat (map compressed pks) ++ compressed R ++ take 32 msg32)).
Proof.
  intros Hlen Hv HR. unfold secp256k1_compute_prehash.
  rewrite firstn_all2 by lia.
  rewrite prehash_pubkeys_spec by exact Hv. cbn [obind].
  destruct (secp256k1_eckey_pubkey_serialize R) as [buf|] eqn:E.
  - unfold secp256k1_sha256_finalize, secp256k1_sha256_write,
      secp256k1_sha256_initialize, compressed.
    rewrite E. cbn [app default]. rewrite <- app_assoc. reflexivity.
  - apply serialize_infinity in E. contradiction.
Qed.

Lemma forallb_seq_true (f : nat -> bool) n :
  forallb f (seq 0 n) = true <-> forall i, (i < n)%nat -> f i = true.
Proof.
  rewrite forallb_forall. split; intros Hf i Hi.
  - apply Hf. apply in_seq. lia.
  - apply Hf. apply in_seq in Hi. lia.
Qed.

(** *** One chunk and the loop with USE_ENDOMORPHISM *)

Lemma verify_fill_endo_spec prehash pks i offset todo :
  USE_ENDOMORPHISM = true ->
  forall j sc pt,
  (2 * j + offset + 2 * todo <= length sc)%nat -> length pt = length sc ->
  match verify_fill_endo prehash pks i offset j todo sc pt with
  | None => forallb (challenge_ok prehash) (seq (i + j) todo) = false
  | Some (sc', pt') =>
      forallb (challenge_ok prehash) (seq (i + j) todo) = true
      /\ length sc' = length sc /\ length pt' = length pt
      /\ secp256k1_ecmult_multi sc' pt' (2 * j + offset + 2 * todo)
         = secp256k1_ecmult_multi sc pt (2 * j + offset)
           ⊕ point_sum (negated_term prehash pks) (seq (i + j) todo)
  end.
Proof.
  intros Hendo.
  induction todo as [|todo IH]; intros j sc pt Hsc Hpt;
    cbn [verify_fill_endo seq forallb].
  - repeat split; cbn [point_sum fold_right].
    rewrite Nat.mul_0_r, Nat.add_0_r, add_infinity_r. reflexivity.
  - destruct (secp256k1_compute_sighash prehash (i + j)) as [e ok] eqn:Ee.
    assert (Hc : challenge_ok prehash (i + j) = ok)
      by (unfold challenge_ok; rewrite Ee; reflexivity).
    rewrite Hc. destruct ok; cbn [negb andb]; [|reflexivity].
    set (m := (2 * j + offset)%nat) in *.
    replace (2 * j + 1 + offset)%nat with (S m) by lia.
    rewrite !list_lookup_insert_eq by lia. cbn [default]. unfold id.
    pose proof (endo_split_sound (secp256k1_scalar_negate e)
                  (default infinity (pks !! (i + j)%nat)) Hendo) as Hsplit.
    destruct (secp256k1_aggsig_endo_split _ _) as [[[s1 s2] p1] p2].
    rewrite !list_insert_insert_eq.
    specialize (IH (S j) (<[S m := s2]> (<[m := s1]> sc))
                  (<[S m := p2]> (<[m := p1]> pt))).
    rewrite !length_insert in IH. specialize (IH ltac:(lia) Hpt).
    replace (i + S j)%nat with (S (i + j)) in IH by lia.
    destruct (verify_fill_endo _ _ _ _ _ _ _ _) as [[sc' pt']|]; [|exact IH].
    destruct IH as (Hok & Hl1 & Hl2 & Hm).
    repeat split; try assumption.
    replace (m + 2 * S todo)%nat with (2 * S j + offset + 2 * todo)%nat by lia.
    rewrite Hm. cbn [point_sum fold_right].
    fold (point_sum (negated_term prehash pks) (seq (S (i + j)) todo)).
    replace (2 * S j + offset)%nat with (S (S m)) by lia.
    rewrite ecmult_multi_store by (rewrite ?length_insert; lia).
    rewrite ecmult_multi_store by lia.
    unfold negated_term at 2, pubkey_at. rewrite Ee. cbn [fst].
    rewrite <- Hsplit, !add_assoc. reflexivity.
Qed.

Lemma seq_chunk_endo_split n_pubkeys i offset :
  seq i (n_pubkeys - i)
  = seq i (verify_chunk_endo n_pubkeys i offset / 2)
    ++ seq (i + verify_chunk_endo n_pubkeys i offset / 2)
           (n_pubkeys - (i + verify_chunk_endo n_pubkeys i offset / 2)).
Proof.
  rewrite <- seq_app. f_equal. unfold verify_chunk_endo.
  assert (Nat.min (2 * (n_pubkeys - i))
            (Pos.to_nat SECP256K1_ECMULT_MULTI_MAX_N - offset) / 2
          <= n_pubkeys - i)%nat
    by (apply Nat.Div0.div_le_upper_bound; lia).
  lia.
Qed.

Lemma verify_chunk_endo_even n_pubkeys i offset :
  Nat.Even (Pos.to_nat SECP256K1_ECMULT_MULTI_MAX_N) -> Nat.Even offset ->
  (offset <= Pos.to_nat SECP256K1_ECMULT_MULTI_MAX_N)%nat ->
  verify_chunk_endo n_pubkeys i offset
  = (2 * (verify_chunk_endo n_pubkeys i offset / 2))%nat.
Proof.
  intros [a Ha] [b Hb] Hle. unfold verify_chunk_endo. rewrite Ha, Hb.
  replace (Nat.min (2 * (n_pubkeys - i)) (2 * a - 2 * b))
    with (2 * Nat.min (n_pubkeys - i) (a - b))%nat by lia.
  rewrite (Nat.mul_comm 2 (Nat.min _ _)), Nat.div_mul by discriminate. lia.
Qed.

Lemma verify_loop_endo_spec prehash pks n_pubkeys i offset sc pt pk_sum :
  USE_ENDOMORPHISM = true ->
  Nat.Even offset ->
  (offset <= Pos.to_nat SECP256K1_ECMULT_MULTI_MAX_N)%nat ->
  length sc = Pos.to_nat SECP256K1_ECMULT_MULTI_MAX_N ->
  length pt = Pos.to_nat SECP256K1_ECMULT_MULTI_MAX_N ->
  (i < n_pubkeys \/ offset = 0)%nat ->
  verify_loop_endo prehash pks n_pubkeys i offset sc pt pk_sum
  = if forallb (challenge_ok prehash) (seq i (n_pubkeys - i))
    then Some (pk_sum ⊕ (secp256k1_ecmult_multi sc pt offset
                         ⊕ point_sum (negated_term prehash pks)
                             (seq i (n_pubkeys - i))))
    else None.
Proof.
  funelim (verify_loop_endo prehash pks n_pubkeys i offset sc pt pk_sum).
  all: intros Hendo Heo Hoff Hsc Hpt Hi.
  all: pose proof (endo_capacity Hendo) as Heven.
  all: assert (H2 : (2 <= Pos.to_nat SECP256K1_ECMULT_MULTI_MAX_N)%nat)
         by (destruct Heven as [half Hhalf];
             pose proof (Pos2Nat.is_pos SECP256K1_ECMULT_MULTI_MAX_N); lia).
  - assert (offset = 0%nat) as -> by lia.
    replace (n_pubkeys - i)%nat with 0%nat by lia.
    cbn [seq forallb point_sum fold_right].
    rewrite ecmult_multi_0, !add_infinity_r. reflexivity.
  - pose proof (verify_chunk_endo_even n_pubkeys i offset Heven Heo Hoff) as Hn.
    pose proof (verify_fill_endo_spec prehash pks i offset
                  (verify_chunk_endo n_pubkeys i offset / 2) Hendo 0 sc pt) as Hf.
    rewrite Heq in Hf. cbn [Nat.mul Nat.add] in Hf.
    rewrite Nat.add_0_r in Hf. rewrite Nat.add_0_r in Hf.
    destruct Hf as (Hok & Hl1 & Hl2 & Hm);
      [unfold verify_chunk_endo in *; lia | congruence |].
    rewrite H;
      [| exact Hendo | exists 0%nat; reflexivity | lia | lia | lia
       | right; reflexivity].
    rewrite (seq_chunk_endo_split n_pubkeys i offset), forallb_app, Hok.
    cbn [andb].
    destruct (forallb _ _); [|reflexivity].
    f_equal. rewrite ecmult_multi_0, add_infinity_l, point_sum_app.
    rewrite (Nat.add_comm _ offset).
    replace (offset + verify_chunk_endo n_pubkeys i offset)%nat
      with (offset + (verify_chunk_endo n_pubkeys i offset / 2
                      + verify_chunk_endo n_pubkeys i offset / 2))%nat by lia.
    rewrite Hm, !add_assoc. reflexivity.
  - pose proof (verify_chunk_endo_even n_pubkeys i offset Heven Heo Hoff) as Hn.
    pose proof (verify_fill_endo_spec prehash pks i offset
                  (verify_chunk_endo n_pubkeys i offset / 2) Hendo 0 sc pt) as Hf.
    rewrite Heq in Hf. rewrite Nat.add_0_r in Hf.
    rewrite (seq_chunk_endo_split n_pubkeys i offset), forallb_app, Hf;
      [reflexivity | unfold verify_chunk_endo in *; lia | congruence].
Qed.

(** *** [verify], unfolded *)

Lemma verify_unfold ctx sig64 msg32 pks n_pubkeys sc0 pt0 :
  length pks = n_pubkeys ->
  Forall (fun P => P <> infinity) pks ->
  length sig64 = 64%nat ->
  length sc0 = Pos.to_nat SECP256K1_ECMULT_MULTI_MAX_N ->
  length pt0 = Pos.to_nat SECP256K1_ECMULT_MULTI_MAX_N ->
  let s := Bytes.be2Z (take 32 sig64) in
  let rx := Bytes.be2Z (drop 32 sig64) in
  secp256k1_aggsig_verify ctx sig64 msg32 pks n_pubkeys sc0 pt0
  = if (n_pubkeys =? 0)%nat then Returns false
    else if order_n <=? s then Returns false
    else if rx <? field_p
    then match secp256k1_ge_set_xquad rx with
         | None => Returns false
         | Some R =>
             let prehash :=
               sha256 (concat (map compressed pks) ++ compressed R
                       ++ take 32 msg32) in
             if forallb (challenge_ok prehash) (seq 0 n_pubkeys)
             then Returns
                    (bool_decide
                       (ecmult s secp256k1_ge_const_g
                        ⊕ ⊖ point_sum (challenge_term prehash pks)
                              (seq 0 n_pubkeys)
                        = R))
             else Returns false
         end
    else Returns false.
Proof.
  intros Hlen Hv H64 Hsc Hpt s rx.
  pose proof order_n_gt_1 as Hn.
  pose proof (Pos2Nat.is_pos SECP256K1_ECMULT_MULTI_MAX_N) as HM.
  unfold secp256k1_aggsig_verify.
  destruct (Nat.eqb_spec n_pubkeys 0) as [HN|HN]; [reflexivity|].
  unfold secp256k1_scalar_set_b32. fold s.
  destruct (order_n <=? s); [reflexivity|].
  unfold secp256k1_fe_set_b32.
  rewrite (firstn_all2 (drop 32 sig64)) by (rewrite length_drop; lia). fold rx.
  destruct (rx <? field_p); [|reflexivity].
  destruct (secp256k1_ge_set_xquad rx) as [R|] eqn:ER; [|reflexivity].
  destruct (set_xquad_sound _ _ ER) as (HR & Hq & Hx).
  rewrite (compute_prehash_spec pks n_pubkeys R msg32 Hlen Hv HR). cbn [obind].
  cbv zeta. set (prehash := sha256 _).
  assert (Hloop :
    (if USE_ENDOMORPHISM
     then
       if (Pos.to_nat SECP256K1_ECMULT_MULTI_MAX_N <? 2)%nat then Aborts
       else
         let '(s1, s2, p1, p2) :=
           secp256k1_aggsig_endo_split
             (default 0 (<[0%nat := s mod order_n]> sc0 !! 0%nat))
             (default infinity (<[0%nat := secp256k1_ge_const_g]> pt0 !! 0%nat)) in
         Returns
           (verify_loop_endo prehash pks n_pubkeys 0 2
              (<[1%nat := s2]> (<[0%nat := s1]> (<[0%nat := s mod order_n]> sc0)))
              (<[1%nat := p2]> (<[0%nat := p1]>
                                  (<[0%nat := secp256k1_ge_const_g]> pt0)))
              infinity)
     else Returns
            (verify_loop prehash pks n_pubkeys 0 1
               (<[0%nat := s mod order_n]> sc0)
               (<[0%nat := secp256k1_ge_const_g]> pt0) infinity))
    = Returns
        (if forallb (challenge_ok prehash) (seq 0 n_pubkeys)
         then Some (ecmult s secp256k1_ge_const_g
                    ⊕ ⊖ point_sum (challenge_term prehash pks) (seq 0 n_pubkeys))
         else None)).
  { assert (Hneg : point_sum (negated_term prehash pks) (seq 0 n_pubkeys)
                   = ⊖ point_sum (challenge_term prehash pks) (seq 0 n_pubkeys)).
    { rewrite <- point_sum_neg. apply point_sum_ext.
      intros k _. apply negated_term_neg. }
    destruct USE_ENDOMORPHISM eqn:Hendo.
    - pose proof (endo_capacity Hendo) as [a Ha].
      destruct (Nat.ltb_spec (Pos.to_nat SECP256K1_ECMULT_MULTI_MAX_N) 2)
        as [Hlt|Hge]; [lia|].
      rewrite !list_lookup_insert_eq by lia. cbn [default]. unfold id.
      pose proof (endo_split_sound (s mod order_n) secp256k1_ge_const_g Hendo)
        as Hsplit.
      destruct (secp256k1_aggsig_endo_split _ _) as [[[s1 s2] p1] p2].
      rewrite !list_insert_insert_eq.
      f_equal.
      rewrite verify_loop_endo_spec;
        [| exact Hendo | exists 1%nat; reflexivity | lia
         | rewrite !length_insert; exact Hsc
         | rewrite !length_insert; exact Hpt | left; lia].
      rewrite Nat.sub_0_r.
      destruct (forallb _ _); [|reflexivity].
      f_equal.
      rewrite (ecmult_multi_store (<[0%nat := s1]> sc0) (<[0%nat := p1]> pt0) 1)
        by (rewrite ?length_insert; lia).
      rewrite (ecmult_multi_store sc0 pt0 0) by lia.
      rewrite ecmult_multi_0, !add_infinity_l, Hsplit, ecmult_mod, Hneg.
      reflexivity.
    - f_equal.
      rewrite verify_loop_spec;
        [| lia | rewrite length_insert; exact Hsc
         | rewrite length_insert; exact Hpt | left; lia].
      rewrite Nat.sub_0_r.
      destruct (forallb _ _); [|reflexivity].
      f_equal.
      rewrite (ecmult_multi_store sc0 pt0 0) by lia.
      rewrite ecmult_multi_0, !add_infinity_l, ecmult_mod, Hneg.
      reflexivity. }
  rewrite Hloop. cbn [obind].
  destruct (forallb _ _); [|reflexivity].
  f_equal. unfold secp256k1_gej_is_infinity.
  apply bool_decide_ext. apply add_neg_eq_infinity.
Qed.

(** C2.  On a roster of valid keys [verify] returns, and it returns 1
    exactly when the roster is not empty, [s = sig64[0..32]] is below the
    group order, [sig64[32..64]] is below the field characteristic and is
    the x coordinate of a curve point, every challenge [e_i] parses as a
    scalar, and [s*G - sum_i e_i*P_i] is the point [R] with that x
    coordinate and a quadratic-residue y. *)
Theorem verify_spec ctx sig64 msg32 pks n_pubkeys sc0 pt0 :
  length pks = n_pubkeys ->
  Forall (fun P => P <> infinity) pks ->
  length sig64 = 64%nat ->
  length sc0 = Pos.to_nat SECP256K1_ECMULT_MULTI_MAX_N ->
  length pt0 = Pos.to_nat SECP256K1_ECMULT_MULTI_MAX_N ->
  let s := Bytes.be2Z (take 32 sig64) in
  let rx := Bytes.be2Z (drop 32 sig64) in
  exists b,
    secp256k1_aggsig_verify ctx sig64 msg32 pks n_pubkeys sc0 pt0 = Returns b
    /\ (b = true <->
        n_pubkeys <> 0%nat /\ s < order_n /\ rx < field_p
        /\ (exists P, P <> infinity /\ ge_x P = rx)
        /\ exists R prehash,
             R <> infinity /\ secp256k1_gej_has_quad_y_var R = true
             /\ ge_x R = rx
             /\ secp256k1_compute_prehash pks n_pubkeys R msg32 = Returns prehash
             /\ (forall i, (i < n_pubkeys)%nat -> challenge_ok prehash i = true)
             /\ ecmult s secp256k1_ge_const_g
                ⊕ ⊖ point_sum (challenge_term prehash pks) (seq 0 n_pubkeys)
                = R).
Proof.
  intros Hlen Hv H64 Hsc Hpt s rx.
  rewrite (verify_unfold ctx sig64 msg32 pks n_pubkeys sc0 pt0 Hlen Hv H64 Hsc Hpt).
  fold s rx.
  destruct (Nat.eqb_spec n_pubkeys 0) as [HN|HN].
  { exists false. split; [reflexivity|]. split; [discriminate | tauto]. }
  destruct (Z.leb_spec order_n s) as [Hs|Hs].
  { exists false. split; [reflexivity|]. split; [discriminate | lia]. }
  destruct (Z.ltb_spec rx field_p) as [Hrx|Hrx].
  2:{ exists false. split; [reflexivity|]. split; [discriminate | lia]. }
  destruct (secp256k1_ge_set_xquad rx) as [R|] eqn:ER.
  2:{ exists false. split; [reflexivity|]. split; [discriminate|].
      intros (_ & _ & _ & _ & R & prehash & HR & Hq & Hx & _).
      rewrite <- Hx, (set_xquad_complete R HR Hq) in ER. discriminate ER. }
  destruct (set_xquad_sound _ _ ER) as (HR & Hq & Hx).
  pose proof (compute_prehash_spec pks n_pubkeys R msg32 Hlen Hv HR) as Hpre.
  cbv zeta. set (prehash := sha256 _) in *.
  assert (Hunique : forall R', R' <> infinity ->
            secp256k1_gej_has_quad_y_var R' = true -> ge_x R' = rx -> R' = R).
  { intros R' HR' Hq' Hx'.
    pose proof (set_xquad_complete R' HR' Hq') as Hc.
    rewrite Hx', ER in Hc. congruence. }
  destruct (forallb (challenge_ok prehash) (seq 0 n_pubkeys)) eqn:Eok.
  2:{ exists false. split; [reflexivity|]. split; [discriminate|].
      intros (_ & _ & _ & _ & R' & prehash' & HR' & Hq' & Hx' & Hp' & Hall & _).
      rewrite (Hunique R' HR' Hq' Hx'), Hpre in Hp'.
      injection Hp' as <-. apply forallb_seq_true in Hall. congruence. }
  eexists. split; [reflexivity|].
  rewrite bool_decide_eq_true.
  split.
  - intros HT. repeat split; try assumption.
    + exists R. split; assumption.
    + exists R, prehash. repeat split; try assumption.
      apply forallb_seq_true. exact Eok.
  - intros (_ & _ & _ & _ & R' & prehash' & HR' & Hq' & Hx' & Hp' & _ & HT).
    pose proof (Hunique R' HR' Hq' Hx') as ->.
    rewrite Hpre in Hp'. injection Hp' as <-. exact HT.
Qed.

End Verify.

(** ** The signing ceremony

    [generate_nonce] on every index, then [partial_sign] on every index with
    the secret key of that index, then [combine].  A ceremony has a result
    only when every call returns 1. *)

Section Ceremony.
Context `{Prims : Primitives}.

Fixpoint generate_nonces (fuel : nat) (ctx : secp256k1_context)
    (aggctx : secp256k1_aggsig_context) (indices : list nat)
    : option secp256k1_aggsig_context :=
  match indices with
  | [] => Some aggctx
  | index :: rest =>
      match secp256k1_aggsig_generate_nonce fuel ctx aggctx index with
      | Some (aggctx', true) => generate_nonces fuel ctx aggctx' rest
      | _ => None
      end
  end.

Definition seckey_at (seckeys : list (list byte)) (index : nat) : list byte :=
  default [] (seckeys !! index).

Fixpoint partial_sign_all (ctx : secp256k1_context)
    (aggctx : secp256k1_aggsig_context) (msghash32 : list byte)
    (seckeys : list (list byte)) (indices : list nat)
    : option (secp256k1_aggsig_context * list (list byte)) :=
  match indices with
  | [] => Some (aggctx, [])
  | index :: rest =>
      match secp256k1_aggsig_partial_sign ctx aggctx (replicate 32 x00)
              msghash32 (seckey_at seckeys index) index with
      | Returns (aggctx', partial, true) =>
          match partial_sign_all ctx aggctx' msghash32 seckeys rest with
          | Some (aggctx'', partials) => Some (aggctx'', partial :: partials)
          | None => None
          end
      | _ => None
      end
  end.

Definition combine_all (ctx : secp256k1_context)
    (aggctx : secp256k1_aggsig_context) (partials : list (list byte))
    : option (secp256k1_aggsig_context * list byte) :=
  match secp256k1_aggsig_combine_signatures ctx aggctx (replicate 64 x00)
          partials (length partials) with
  | (aggctx', sig64, true) => Some (aggctx', sig64)
  | _ => None
  end.

Definition ceremony (fuel : nat) (ctx : secp256k1_context)
    (pks : list point) (seckeys : list (list byte)) (msg32 seed : list byte)
    (heap : nat -> Z) : option (secp256k1_aggsig_context * list byte) :=
  let n := length pks in
  let aggctx := secp256k1_aggsig_context_create pks n seed heap in
  match generate_nonces fuel ctx aggctx (seq 0 n) with
  | None => None
  | Some aggctx =>
      match partial_sign_all ctx aggctx msg32 seckeys (seq 0 n) with
      | None => None
      | Some (aggctx, partials) => combine_all ctx aggctx partials
      end
  end.

(** The scalars that [n] successive runs of the draw loop produce. *)
Fixpoint nonce_draws (fuel n : nat) (r : secp256k1_rfc6979_hmac_sha256_t)
    : option (list Z * secp256k1_rfc6979_hmac_sha256_t) :=
  match n with
  | O => Some ([], r)
  | S n' =>
      match nonce_loop fuel r with
      | None => None
      | Some (k, r1) =>
          match nonce_draws fuel n' r1 with
          | None => None
          | Some (ks, r2) => Some (k :: ks, r2)
          end
      end
  end.

(** The sign fix of [generate_nonce] on a drawn scalar. *)
Definition canonical_nonce (k : Z) : Z :=
  if secp256k1_gej_has_quad_y_var (secp256k1_ecmult_gen k) then k
  else secp256k1_scalar_negate k.

(** The sum of a list of points. *)
Definition psum (l : list point) : point :=
  fold_right secp256k1_gej_add_var infinity l.

(** All nonces are known, none is used, and [pubnonce_sum] is the sum of
    the public nonces of the stored secret nonces. *)
Definition ready_to_sign (aggctx : secp256k1_aggsig_context) : Prop :=
  wf_session aggctx
  /\ (forall j, (j < n_sigs aggctx)%nat ->
        progress aggctx !! j = Some NONCE_PROGRESS_OURS)
  /\ pubnonce_sum aggctx = psum (map secp256k1_ecmult_gen (secnonce aggctx)).

Lemma lookup_map {A B} (f : A -> B) (l : list A) i :
  map f l !! i = f <$> (l !! i).
Proof.
  revert i. induction l as [|a l IH]; intros [|i]; cbn; try reflexivity.
  apply IH.
Qed.

Lemma generate_nonce_run fuel ctx aggctx index k r' :
  ecmult_gen_ctx_built ctx = true -> (index < n_sigs aggctx)%nat ->
  progress aggctx !! index = Some NONCE_PROGRESS_UNKNOWN ->
  nonce_loop fuel (rng aggctx) = Some (k, r') ->
  secp256k1_aggsig_generate_nonce fuel ctx aggctx index
  = Some ({| progress := <[index := NONCE_PROGRESS_OURS]> (progress aggctx);
             pubkeys := pubkeys aggctx;
             secnonce := <[index := canonical_nonce k]> (secnonce aggctx);
             pubnonce_sum :=
               secp256k1_gej_add_var (pubnonce_sum aggctx)
                 (qr_rep (secp256k1_ecmult_gen k));
             n_sigs := n_sigs aggctx;
             rng := r' |}, true).
Proof.
  intros Hb Hlt Hu Hl. unfold secp256k1_aggsig_generate_nonce.
  apply Nat.ltb_lt in Hlt. rewrite Hb, Hlt, Hu, Hl. cbn [negb].
  unfold canonical_nonce, qr_rep.
  destruct (secp256k1_gej_has_quad_y_var (secp256k1_ecmult_gen k)); reflexivity.
Qed.

Lemma nonce_draws_length fuel n : forall r ks r',
  nonce_draws fuel n r = Some (ks, r') -> length ks = n.
Proof.
  induction n as [|n IH]; intros r ks r'; cbn [nonce_draws].
  - intros [= <- _]. reflexivity.
  - destruct (nonce_loop fuel r) as [[k r1]|]; [|intros Hs; discriminate Hs].
    destruct (nonce_draws fuel n r1) as [[ks' r2]|] eqn:E;
      [|intros Hs; discriminate Hs].
    intros [= <- _]. cbn [length]. f_equal. exact (IH _ _ _ E).
Qed.

End Ceremony.

Section CeremonyProofs.
Context `{Prims : Primitives} {GLaws : GroupLaws} {ELaws : EndoLaws}.

Local Notation "P ⊕ Q" := (secp256k1_gej_add_var P Q) (at level 50, left associativity).
Local Notation "⊖ P" := (secp256k1_gej_neg P) (at level 35, right associativity).

(** The nonce phase, from index [i] on. *)
Lemma generate_nonces_spec fuel ctx m : forall i aggctx ks r',
  ecmult_gen_ctx_built ctx = true ->
  (i + m <= n_sigs aggctx)%nat ->
  (i + m <= length (secnonce aggctx))%nat ->
  (forall j, (i <= j < i + m)%nat ->
     progress aggctx !! j = Some NONCE_PROGRESS_UNKNOWN) ->
  nonce_draws fuel m (rng aggctx) = Some (ks, r') ->
  exists aggctx',
    generate_nonces fuel ctx aggctx (seq i m) = Some aggctx'
    /\ n_sigs aggctx' = n_sigs aggctx /\ pubkeys aggctx' = pubkeys aggctx
    /\ rng aggctx' = r'
    /\ length (progress aggctx') = length (progress aggctx)
    /\ length (secnonce aggctx') = length (secnonce aggctx)
    /\ (forall j, progress aggctx' !! j
                  = if bool_decide (i <= j < i + m)%nat
                    then Some NONCE_PROGRESS_OURS else progress aggctx !! j)
    /\ (forall j, secnonce aggctx' !! j
                  = if bool_decide (i <= j < i + m)%nat
                    then canonical_nonce <$> (ks !! (j - i)%nat)
                    else secnonce aggctx !! j)
    /\ pubnonce_sum aggctx'
       = secp256k1_gej_add_var (pubnonce_sum aggctx)
           (psum (map (fun k => qr_rep (secp256k1_ecmult_gen k)) ks)).
Proof.
  induction m as [|m IH]; intros i aggctx ks r' Hb Hn Hls Hu Hd.
  - cbn [nonce_draws] in Hd. injection Hd as <- <-.
    exists aggctx. cbn [seq generate_nonces map psum fold_right].
    repeat split; try reflexivity.
    + intros j. rewrite bool_decide_eq_false_2 by lia. reflexivity.
    + intros j. rewrite bool_decide_eq_false_2 by lia. reflexivity.
    + rewrite add_infinity_r. reflexivity.
  - cbn [nonce_draws] in Hd.
    destruct (nonce_loop fuel (rng aggctx)) as [[k r1]|] eqn:El;
      [|discriminate Hd].
    destruct (nonce_draws fuel m r1) as [[ks' r2]|] eqn:Ed; [|discriminate Hd].
    injection Hd as <- <-.
    assert (Hui : progress aggctx !! i = Some NONCE_PROGRESS_UNKNOWN)
      by (apply Hu; lia).
    pose proof (lookup_lt_Some _ _ _ Hui) as Hlp.
    cbn [seq generate_nonces].
    rewrite (generate_nonce_run fuel ctx aggctx i k r1 Hb ltac:(lia) Hui El).
    set (a1 := {| progress := <[i := NONCE_PROGRESS_OURS]> (progress aggctx);
                  pubkeys := pubkeys aggctx;
                  secnonce := <[i := canonical_nonce k]> (secnonce aggctx);
                  pubnonce_sum :=
                    pubnonce_sum aggctx ⊕ qr_rep (secp256k1_ecmult_gen k);
                  n_sigs := n_sigs aggctx; rng := r1 |}).
    assert (H1 : (S i + m <= n_sigs a1)%nat) by (cbn [a1 n_sigs]; lia).
    assert (H2 : (S i + m <= length (secnonce a1))%nat)
      by (cbn [a1 secnonce]; rewrite length_insert; lia).
    assert (H3 : forall j, (S i <= j < S i + m)%nat ->
              progress a1 !! j = Some NONCE_PROGRESS_UNKNOWN).
    { intros j Hj. cbn [a1 progress].
      rewrite list_lookup_insert_ne by lia. apply Hu. lia. }
    destruct (IH (S i) a1 ks' r2 Hb H1 H2 H3 Ed)
      as (a' & Hg & Hn' & Hpk' & Hr' & Hlp' & Hls' & Hp' & Hs' & Hsum').
    clear H1 H2 H3. subst a1.
    + exists a'. cbn [n_sigs pubkeys secnonce progress pubnonce_sum] in *.
      rewrite length_insert in Hlp'. rewrite length_insert in Hls'.
      repeat split; try assumption.
      * intros j. rewrite Hp'.
        destruct (decide (j = i)) as [->|Hji].
        -- rewrite bool_decide_eq_false_2, bool_decide_eq_true_2 by lia.
           apply list_lookup_insert_eq. exact Hlp.
        -- rewrite list_lookup_insert_ne by lia.
           destruct (decide (S i <= j < S i + m)%nat).
           ++ rewrite !bool_decide_eq_true_2 by lia. reflexivity.
           ++ rewrite !bool_decide_eq_false_2 by lia. reflexivity.
      * intros j. rewrite Hs'.
        destruct (decide (j = i)) as [->|Hji].
        -- rewrite bool_decide_eq_false_2, bool_decide_eq_true_2 by lia.
           rewrite Nat.sub_diag. cbn.
           apply list_lookup_insert_eq. lia.
        -- rewrite list_lookup_insert_ne by lia.
           destruct (decide (S i <= j < S i + m)%nat).
           ++ rewrite !bool_decide_eq_true_2 by lia.
              replace (j - i)%nat with (S (j - S i)) by lia. reflexivity.
           ++ rewrite !bool_decide_eq_false_2 by lia. reflexivity.
      * rewrite Hsum'. cbn [map psum fold_right].
        rewrite <- add_assoc. reflexivity.
Qed.

Lemma ecmult_gen_canonical k :
  secp256k1_ecmult_gen (canonical_nonce k) = qr_rep (secp256k1_ecmult_gen k).
Proof.
  unfold canonical_nonce, qr_rep.
  destruct (secp256k1_gej_has_quad_y_var (secp256k1_ecmult_gen k));
    [reflexivity | apply ecmult_gen_negate].
Qed.

(** The nonce phase on a fresh session. *)
Lemma nonce_phase fuel ctx pks seed heap ks r' :
  ecmult_gen_ctx_built ctx = true ->
  nonce_draws fuel (length pks)
    (secp256k1_rfc6979_hmac_sha256_initialize (take 32 seed)) = Some (ks, r') ->
  exists aggctx,
    generate_nonces fuel ctx
      (secp256k1_aggsig_context_create pks (length pks) seed heap)
      (seq 0 (length pks)) = Some aggctx
    /\ ready_to_sign aggctx
    /\ n_sigs aggctx = length pks /\ pubkeys aggctx = pks
    /\ secnonce aggctx = map canonical_nonce ks
    /\ pubnonce_sum aggctx
       = psum (map (fun k => qr_rep (secp256k1_ecmult_gen k)) ks).
Proof.
  intros Hb Hd.
  pose proof (nonce_draws_length _ _ _ _ _ Hd) as Hlk.
  set (a0 := secp256k1_aggsig_context_create pks (length pks) seed heap).
  assert (H1 : (0 + length pks <= n_sigs a0)%nat) by (cbn; lia).
  assert (H2 : (0 + length pks <= length (secnonce a0))%nat)
    by (cbn; rewrite length_map, length_seq; lia).
  assert (H3 : forall j, (0 <= j < 0 + length pks)%nat ->
            progress a0 !! j = Some NONCE_PROGRESS_UNKNOWN)
    by (intros j Hj; cbn; apply lookup_replicate_2; lia).
  destruct (generate_nonces_spec fuel ctx (length pks) 0 a0 ks r' Hb H1 H2 H3 Hd)
    as (a & Hg & Hn & Hpk & _ & Hlp & Hls & Hp & Hs & Hsum).
  exists a. cbn [a0 secp256k1_aggsig_context_create n_sigs pubkeys secnonce
                 progress pubnonce_sum] in *.
  rewrite length_replicate in Hlp. rewrite length_map, length_seq in Hls.
  rewrite firstn_all in Hpk. rewrite add_infinity_l in Hsum.
  assert (Hsec : secnonce a = map canonical_nonce ks).
  { apply list_eq. intros j. rewrite Hs, (lookup_map canonical_nonce).
    destruct (decide (j < length pks)%nat).
    - rewrite bool_decide_eq_true_2 by lia. rewrite Nat.sub_0_r. reflexivity.
    - rewrite bool_decide_eq_false_2 by lia.
      rewrite lookup_map.
      rewrite (proj2 (lookup_ge_None (seq 0 (length pks)) j))
        by (rewrite length_seq; lia).
      rewrite (proj2 (lookup_ge_None ks j)) by lia. reflexivity. }
  split; [exact Hg|]. split; [|repeat split; assumption].
  split; [|split].
  - unfold wf_session. rewrite Hlp, Hls, Hn, Hpk. repeat split; reflexivity.
  - intros j Hj. rewrite Hp, bool_decide_eq_true_2 by lia. reflexivity.
  - rewrite Hsum, Hsec, map_map. f_equal. apply map_ext.
    intros k. symmetry. apply ecmult_gen_canonical.
Qed.

(** *** Facts read off from a prehash that was computed *)

Lemma prehash_pubkeys_returns pks : forall hasher hasher',
  prehash_pubkeys pks hasher = Returns hasher' ->
  Forall (fun P => P <> infinity) pks.
Proof.
  induction pks as [|P pks IH]; intros hasher hasher'; cbn [prehash_pubkeys].
  - intros _. constructor.
  - destruct (secp256k1_eckey_pubkey_serialize P) as [buf|] eqn:E;
      [|intros Hs; discriminate Hs].
    intros Hr. constructor; [|exact (IH _ _ Hr)].
    intros HP. apply serialize_infinity in HP. congruence.
Qed.

Lemma compute_prehash_returns pks n_pubkeys R msg32 prehash :
  secp256k1_compute_prehash pks n_pubkeys R msg32 = Returns prehash ->
  Forall (fun P => P <> infinity) (take n_pubkeys pks) /\ R <> infinity.
Proof.
  unfold secp256k1_compute_prehash.
  destruct (prehash_pubkeys (take n_pubkeys pks) secp256k1_sha256_initialize)
    as [h|] eqn:Ep; cbn [obind]; [|intros Hs; discriminate Hs].
  destruct (secp256k1_eckey_pubkey_serialize R) as [buf|] eqn:E;
    [|intros Hs; discriminate Hs].
  intros _. split; [exact (prehash_pubkeys_returns _ _ _ Ep)|].
  intros HR. apply serialize_infinity in HR. congruence.
Qed.

Lemma any_unknown_false (pr : list nonce_progress) :
  (forall j x, pr !! j = Some x -> x <> NONCE_PROGRESS_UNKNOWN) ->
  any_unknown pr = false.
Proof.
  induction pr as [|x pr IH]; intros Hx; cbn [any_unknown]; [reflexivity|].
  assert (x <> NONCE_PROGRESS_UNKNOWN) by (apply (Hx 0%nat); reflexivity).
  destruct x; try contradiction;
    apply IH; intros j y Hj; apply (Hx (S j)); exact Hj.
Qed.

End CeremonyProofs.

(** ** The signing phase on a session whose nonces are all known *)

Section SignPhase.
Context `{Prims : Primitives} {GLaws : GroupLaws} {ELaws : EndoLaws}.
Variables (ctx : secp256k1_context) (msg32 : list byte)
          (seckeys : list (list byte)).
Variables (aggctx1 : secp256k1_aggsig_context) (prehash : list byte).

Local Notation "P ⊕ Q" := (secp256k1_gej_add_var P Q) (at level 50, left associativity).
Local Notation "⊖ P" := (secp256k1_gej_neg P) (at level 35, right associativity).

(** What [partial_sign] does to a stored nonce, given the aggregate. *)
Definition flip_nonce (k : Z) : Z :=
  if secp256k1_gej_has_quad_y_var (pubnonce_sum aggctx1) then k
  else secp256k1_scalar_negate k.

Definition nonce_at (j : nat) : Z := default 0 (secnonce aggctx1 !! j).

Definition seckey_scalar (j : nat) : Z :=
  (secp256k1_scalar_set_b32 (seckey_at seckeys j)).1.

(** [s_j = x_j * e_j + k_j] *)
Definition partial_value (j : nat) : Z :=
  secp256k1_scalar_add
    (secp256k1_scalar_mul (seckey_scalar j)
       (secp256k1_compute_sighash prehash j).1)
    (flip_nonce (nonce_at j)).

(** The session once the indices below [i] have signed. *)
Definition sign_inv (i : nat) (a : secp256k1_aggsig_context) : Prop :=
  n_sigs a = n_sigs aggctx1 /\ pubkeys a = pubkeys aggctx1
  /\ pubnonce_sum a = pubnonce_sum aggctx1
  /\ length (progress a) = n_sigs aggctx1
  /\ (forall j, (j < n_sigs aggctx1)%nat ->
        progress a !! j
        = Some (if bool_decide (j < i)%nat
                then NONCE_PROGRESS_SIGNED else NONCE_PROGRESS_OURS))
  /\ (forall j, secnonce a !! j
                = (if bool_decide (j < i)%nat then flip_nonce else id)
                    <$> secnonce aggctx1 !! j).

Hypothesis Hbuilt : ecmult_gen_ctx_built ctx = true.
Hypothesis Hready : ready_to_sign aggctx1.
Hypothesis Hprehash :
  secp256k1_compute_prehash (pubkeys aggctx1) (n_sigs aggctx1)
    (qr_rep (pubnonce_sum aggctx1)) msg32 = Returns prehash.

Lemma sign_inv_start : sign_inv 0 aggctx1.
Proof.
  destruct Hready as ((Hlp & _ & _) & Ho & _).
  unfold sign_inv.
  split; [reflexivity|]. split; [reflexivity|]. split; [reflexivity|].
  split; [exact Hlp|]. split.
  - intros j Hj. rewrite bool_decide_eq_false_2 by lia. apply Ho. exact Hj.
  - intros j. rewrite bool_decide_eq_false_2 by lia.
    destruct (secnonce aggctx1 !! j); reflexivity.
Qed.

Lemma partial_sign_run i a partial :
  sign_inv i a -> (i < n_sigs aggctx1)%nat ->
  challenge_ok prehash i = true ->
  (secp256k1_scalar_set_b32 (seckey_at seckeys i)).2 = false ->
  exists a',
    secp256k1_aggsig_partial_sign ctx a partial msg32 (seckey_at seckeys i) i
    = Returns (a', secp256k1_scalar_get_b32 (partial_value i), true)
    /\ sign_inv (S i) a'.
Proof.
  intros (Hn & Hpk & Hsum & Hlp & Hp & Hs) Hi Hok Hkey.
  destruct Hready as ((_ & _ & Hls1) & _ & _).
  assert (Hc : secnonce aggctx1 !! i = Some (nonce_at i)).
  { unfold nonce_at.
    destruct (secnonce aggctx1 !! i) eqn:E; [reflexivity|].
    apply lookup_ge_None in E. lia. }
  assert (Hsi : secnonce a !! i = Some (nonce_at i)).
  { rewrite Hs, Hc, bool_decide_eq_false_2 by lia. reflexivity. }
  pose proof (lookup_lt_Some _ _ _ Hsi) as Hlsa.
  exists {| progress := <[i := NONCE_PROGRESS_SIGNED]> (progress a);
            pubkeys := pubkeys a;
            secnonce := flipped_secnonce a i;
            pubnonce_sum := pubnonce_sum a;
            n_sigs := n_sigs a; rng := rng a |}.
  assert (Hflip : forall j, flipped_secnonce a i !! j
                  = if decide (j = i) then Some (flip_nonce (nonce_at i))
                    else secnonce a !! j).
  { intros j. unfold flipped_secnonce, flip_nonce. rewrite Hsum, Hsi.
    cbn [default].
    destruct (secp256k1_gej_has_quad_y_var (pubnonce_sum aggctx1)).
    - destruct (decide (j = i)) as [->|]; [exact Hsi | reflexivity].
    - destruct (decide (j = i)) as [->|].
      + apply list_lookup_insert_eq. exact Hlsa.
      + apply list_lookup_insert_ne. congruence. }
  split.
  - unfold secp256k1_aggsig_partial_sign.
    rewrite Hbuilt, Hn, (proj2 (Nat.ltb_lt _ _) Hi). cbn [negb].
    rewrite any_unknown_false.
    2:{ intros j x Hj. rewrite lookup_take in Hj.
        destruct (decide (j < n_sigs aggctx1)%nat) as [Hjn|]; [|discriminate Hj].
        rewrite (Hp j Hjn) in Hj. injection Hj as <-.
        destruct (bool_decide _); discriminate. }
    rewrite (Hp i Hi), bool_decide_eq_false_2 by lia.
    rewrite qr_rep_flip, Hpk, Hsum, Hprehash. cbn [obind].
    unfold challenge_ok in Hok.
    destruct (secp256k1_compute_sighash prehash i) as [e ok] eqn:Ee.
    cbn [snd] in Hok. subst ok. cbn [negb].
    destruct (secp256k1_scalar_set_b32 (seckey_at seckeys i)) as [x ov] eqn:Ex.
    cbn [snd] in Hkey. subst ov.
    unfold partial_value, seckey_scalar. rewrite Ex, Ee. cbn [fst].
    pose proof (Hflip i) as Hfi. rewrite decide_True in Hfi by reflexivity.
    unfold flipped_secnonce in Hfi |- *. rewrite Hsum in Hfi |- *.
    destruct (secp256k1_gej_has_quad_y_var (pubnonce_sum aggctx1));
      cbn [negb]; rewrite Hfi; reflexivity.
  - unfold sign_inv. cbn [n_sigs pubkeys pubnonce_sum progress secnonce].
    rewrite length_insert.
    split; [exact Hn|]. split; [exact Hpk|]. split; [exact Hsum|].
    split; [exact Hlp|]. split.
    + intros j Hj. destruct (decide (j = i)) as [->|Hji].
      * rewrite list_lookup_insert_eq, bool_decide_eq_true_2 by lia.
        reflexivity.
      * rewrite list_lookup_insert_ne, (Hp j Hj) by congruence.
        destruct (decide (j < i)%nat).
        -- rewrite !bool_decide_eq_true_2 by lia. reflexivity.
        -- rewrite !bool_decide_eq_false_2 by lia. reflexivity.
    + intros j. rewrite Hflip. destruct (decide (j = i)) as [->|Hji].
      * rewrite Hc, bool_decide_eq_true_2 by lia. reflexivity.
      * rewrite Hs. destruct (decide (j < i)%nat).
        -- rewrite !bool_decide_eq_true_2 by lia. reflexivity.
        -- rewrite !bool_decide_eq_false_2 by lia. reflexivity.
Qed.

Lemma sign_phase_fwd m : forall i a,
  sign_inv i a -> (i + m = n_sigs aggctx1)%nat ->
  (forall j, (i <= j < n_sigs aggctx1)%nat ->
     challenge_ok prehash j = true
     /\ (secp256k1_scalar_set_b32 (seckey_at seckeys j)).2 = false) ->
  exists a',
    partial_sign_all ctx a msg32 seckeys (seq i m)
    = Some (a', map (fun j => secp256k1_scalar_get_b32 (partial_value j)) (seq i m))
    /\ sign_inv (i + m) a'.
Proof.
  induction m as [|m IH]; intros i a Hinv Him Hok; cbn [seq partial_sign_all map].
  - exists a. rewrite Nat.add_0_r. split; [reflexivity | exact Hinv].
  - destruct (Hok i ltac:(lia)) as (Hoki & Hkeyi).
    destruct (partial_sign_run i a (replicate 32 x00) Hinv ltac:(lia) Hoki Hkeyi)
      as (a1 & -> & Hinv1).
    destruct (IH (S i) a1 Hinv1 ltac:(lia)) as (a' & -> & Hinv').
    { intros j Hj. apply Hok. lia. }
    exists a'. split; [reflexivity|].
    replace (i + S m)%nat with (S i + m)%nat by lia. exact Hinv'.
Qed.

(** *** From the partials to a signature that verifies *)

Lemma partial_value_range j : 0 <= partial_value j < order_n.
Proof.
  unfold partial_value, secp256k1_scalar_add.
  apply Z.mod_pos_bound. pose proof order_n_gt_1. lia.
Qed.

Lemma be2Z_get_b32 v :
  0 <= v < order_n -> Bytes.be2Z (take 32 (secp256k1_scalar_get_b32 v)) = v.
Proof.
  intros Hv. unfold secp256k1_scalar_get_b32.
  rewrite firstn_all2 by (rewrite Bytes.length_Z2be; lia).
  apply Bytes.be2Z_Z2be_small.
  pose proof order_n_lt. change (256 ^ Z.of_nat 32) with (2 ^ 256). lia.
Qed.

Lemma ecmult_Zsum (f : nat -> Z) ks P :
  ecmult (Zsum (map f ks)) P = point_sum (fun j => ecmult (f j) P) ks.
Proof.
  induction ks as [|k ks IH]; cbn [map Zsum point_sum fold_right]; [reflexivity|].
  fold (Zsum (map f ks)). fold (point_sum (fun j => ecmult (f j) P) ks).
  rewrite ecmult_add, IH. reflexivity.
Qed.

Lemma point_sum_add f g ks :
  point_sum (fun j => f j ⊕ g j) ks = point_sum f ks ⊕ point_sum g ks.
Proof.
  induction ks as [|k ks IH]; cbn [point_sum fold_right].
  - rewrite add_infinity_l. reflexivity.
  - fold (point_sum (fun j => f j ⊕ g j) ks).
    fold (point_sum f ks). fold (point_sum g ks).
    rewrite IH, !add_assoc. f_equal.
    rewrite <- !add_assoc. f_equal. apply add_comm.
Qed.

Lemma point_sum_seq_lookup {A} (f : A -> point) (d : A) (l : list A) :
  point_sum (fun j => f (default d (l !! j))) (seq 0 (length l))
  = psum (map f l).
Proof.
  induction l as [|a l IH] using rev_ind; [reflexivity|].
  rewrite length_app. cbn [length]. rewrite seq_app, point_sum_app.
  cbn [Nat.add seq point_sum fold_right].
  rewrite list_lookup_middle by reflexivity. cbn [default].
  change (id a) with a. rewrite map_app. cbn [map].
  unfold psum. rewrite fold_right_app. cbn [fold_right].
  rewrite add_infinity_r.
  rewrite (point_sum_ext _ (fun j => f (default d (l !! j)))).
  2:{ intros j Hj. apply in_seq in Hj. rewrite lookup_app_l by lia. reflexivity. }
  rewrite IH. unfold psum.
  generalize (map f l). intros pts.
  induction pts as [|Q pts IHp]; cbn [fold_right].
  - rewrite add_infinity_l. reflexivity.
  - rewrite <- IHp, add_assoc. reflexivity.
Qed.

(** [flip_nonce] on the scalar is the sign choice of [qr_rep] on the
    point. *)
Definition flip_point (Q : point) : point :=
  if secp256k1_gej_has_quad_y_var (pubnonce_sum aggctx1) then Q else ⊖ Q.

Lemma ecmult_gen_flip k :
  secp256k1_ecmult_gen (flip_nonce k) = flip_point (secp256k1_ecmult_gen k).
Proof.
  unfold flip_nonce, flip_point.
  destruct (secp256k1_gej_has_quad_y_var (pubnonce_sum aggctx1));
    [reflexivity | apply ecmult_gen_negate].
Qed.

Lemma point_sum_flip f ks :
  point_sum (fun j => flip_point (f j)) ks = flip_point (point_sum f ks).
Proof.
  unfold flip_point.
  destruct (secp256k1_gej_has_quad_y_var (pubnonce_sum aggctx1));
    [reflexivity | apply point_sum_neg].
Qed.

(** The partials of a completed signing phase combine into a signature
    that verifies. *)
Lemma combine_verifies a2 :
  sign_inv (n_sigs aggctx1) a2 ->
  n_sigs aggctx1 <> 0%nat ->
  (forall j, (j < n_sigs aggctx1)%nat ->
     challenge_ok prehash j = true
     /\ pubkey_at (pubkeys aggctx1) j = secp256k1_ecmult_gen (seckey_scalar j)) ->
  exists a3 sig64,
    combine_all ctx a2
      (map (fun j => secp256k1_scalar_get_b32 (partial_value j))
           (seq 0 (n_sigs aggctx1)))
    = Some (a3, sig64)
    /\ length sig64 = 64%nat
    /\ forall sc0 pt0,
         length sc0 = Pos.to_nat SECP256K1_ECMULT_MULTI_MAX_N ->
         length pt0 = Pos.to_nat SECP256K1_ECMULT_MULTI_MAX_N ->
         secp256k1_aggsig_verify ctx sig64 msg32 (pubkeys aggctx1)
           (n_sigs aggctx1) sc0 pt0 = Returns true.
Proof.
  intros (Hn & Hpk & Hsum & _) HN Hj.
  destruct Hready as ((_ & Hlpk & Hls1) & _ & HS).
  destruct (compute_prehash_returns _ _ _ _ _ Hprehash) as (Hvalid & HR).
  rewrite firstn_all2 in Hvalid by lia.
  pose proof order_n_gt_1 as Hn1. pose proof order_n_lt as Hn2.
  pose proof field_p_lt as Hp2.
  set (N := n_sigs aggctx1) in *.
  set (R := qr_rep (pubnonce_sum aggctx1)) in *.
  set (X := Zsum (map partial_value (seq 0 N))).
  assert (Hcomb : combine_all ctx a2
            (map (fun j => secp256k1_scalar_get_b32 (partial_value j)) (seq 0 N))
          = Some ({| progress := progress a2; pubkeys := pubkeys a2;
                     secnonce := secnonce a2; pubnonce_sum := R;
                     n_sigs := n_sigs a2; rng := rng a2 |},
                  Bytes.Z2be 32 (X mod order_n) ++ Bytes.Z2be 32 (ge_x R))).
  { unfold combine_all. rewrite combine_unfold.
    rewrite length_map, length_seq, Hn, Nat.eqb_refl. cbn [andb].
    rewrite firstn_all2 by (rewrite length_map, length_seq; lia).
    rewrite (proj2 (forallb_forall _ _)).
    2:{ intros p Hp. apply in_map_iff in Hp as (j & <- & _).
        rewrite be2Z_get_b32 by apply partial_value_range.
        apply Z.ltb_lt. apply partial_value_range. }
    rewrite map_map.
    rewrite (map_ext _ partial_value)
      by (intros j; apply be2Z_get_b32, partial_value_range).
    rewrite Hsum. fold R. fold X.
    unfold secp256k1_fe_normalize_var.
    rewrite (Z.mod_small (ge_x R)) by apply ge_x_range. reflexivity. }
  eexists _, _. split; [exact Hcomb|].
  split; [rewrite length_app, !Bytes.length_Z2be; reflexivity|].
  intros sc0 pt0 Hsc Hpt.
  assert (HXr : 0 <= X mod order_n < order_n) by (apply Z.mod_pos_bound; lia).
  assert (HS0 : pubnonce_sum aggctx1 <> infinity)
    by (intros H0; apply HR; apply qr_rep_infinity; exact H0).
  rewrite (verify_unfold ctx _ msg32 (pubkeys aggctx1) N sc0 pt0 Hlpk Hvalid)
    by first [exact Hsc | exact Hpt
             | rewrite length_app, !Bytes.length_Z2be; reflexivity].
  cbv zeta.
  rewrite take_app_length' by (rewrite Bytes.length_Z2be; reflexivity).
  rewrite drop_app_length' by (rewrite Bytes.length_Z2be; reflexivity).
  rewrite !Bytes.be2Z_Z2be_small.
  2:{ pose proof (ge_x_range R). change (256 ^ Z.of_nat 32) with (2 ^ 256). lia. }
  2:{ change (256 ^ Z.of_nat 32) with (2 ^ 256). lia. }
  destruct (Nat.eqb_spec N 0) as [HN0|_]; [contradiction|].
  destruct (Z.leb_spec order_n (X mod order_n)) as [Hhigh|_]; [lia|].
  destruct (Z.ltb_spec (ge_x R) field_p) as [_|Hbig];
    [|pose proof (ge_x_range R); lia].
  rewrite (set_xquad_complete R HR (qr_rep_has_quad_y _ HS0)).
  pose proof (compute_prehash_spec (pubkeys aggctx1) N R msg32 Hlpk Hvalid HR)
    as Hpre.
  rewrite Hprehash in Hpre. injection Hpre as Hpre. rewrite <- Hpre.
  rewrite (proj2 (forallb_seq_true _ _)) by (intros i Hi; apply (Hj i Hi)).
  f_equal. apply bool_decide_eq_true_2.
  rewrite ecmult_mod. unfold X. rewrite ecmult_Zsum.
  rewrite (point_sum_ext _
             (fun j => challenge_term prehash (pubkeys aggctx1) j
                       ⊕ flip_point (secp256k1_ecmult_gen (nonce_at j)))).
  2:{ intros j Hjn. apply in_seq in Hjn.
      unfold partial_value, secp256k1_scalar_add, secp256k1_scalar_mul.
      rewrite ecmult_mod, ecmult_add, ecmult_mod.
      rewrite Z.mul_comm, ecmult_mul.
      fold (secp256k1_ecmult_gen (seckey_scalar j)).
      fold (secp256k1_ecmult_gen (flip_nonce (nonce_at j))).
      rewrite ecmult_gen_flip.
      destruct (Hj j ltac:(lia)) as (_ & <-). reflexivity. }
  rewrite point_sum_add, point_sum_flip.
  unfold nonce_at. fold N. rewrite <- Hls1.
  rewrite (point_sum_seq_lookup secp256k1_ecmult_gen 0 (secnonce aggctx1)).
  rewrite <- HS.
  replace (flip_point (pubnonce_sum aggctx1)) with R
    by (unfold R, qr_rep, flip_point; reflexivity).
  rewrite (add_comm _ R), <- add_assoc, add_neg_r, add_infinity_r.
  reflexivity.
Qed.

End SignPhase.

(** ** The ceremony as a whole *)

Section CeremonyTheorems.
Context `{Prims : Primitives} {GLaws : GroupLaws} {ELaws : EndoLaws}.

Local Notation "P ⊕ Q" := (secp256k1_gej_add_var P Q) (at level 50, left associativity).
Local Notation "⊖ P" := (secp256k1_gej_neg P) (at level 35, right associativity).

(** A secret key and the public key that belongs to it. *)
Definition keypair (seckey32 : list byte) (P : point) : Prop :=
  0 < Bytes.be2Z (take 32 seckey32) < order_n
  /\ P = secp256k1_ecmult_gen (Bytes.be2Z (take 32 seckey32)).

Lemma keypair_lookup seckeys pks j :
  Forall2 keypair seckeys pks -> (j < length pks)%nat ->
  (secp256k1_scalar_set_b32 (seckey_at seckeys j)).2 = false
  /\ pubkey_at pks j = secp256k1_ecmult_gen (seckey_scalar seckeys j)
  /\ pubkey_at pks j <> infinity.
Proof.
  intros HF Hj.
  pose proof (Forall2_length _ _ _ HF) as Hlen.
  destruct (lookup_lt_is_Some_2 pks j Hj) as [P HP].
  destruct (lookup_lt_is_Some_2 seckeys j ltac:(lia)) as [key Hkey].
  destruct (Forall2_lookup_lr _ _ _ _ _ _ HF Hkey HP) as (Hr & ->).
  unfold pubkey_at, seckey_scalar, seckey_at, secp256k1_scalar_set_b32.
  rewrite HP, Hkey. cbn [default fst snd]. change (id key) with key.
  rewrite Z.mod_small by lia.
  split; [apply Z.leb_gt; lia|]. split; [reflexivity|].
  apply generator_order. exact Hr.
Qed.

Lemma keypair_valid seckeys pks :
  Forall2 keypair seckeys pks -> Forall (fun P => P <> infinity) pks.
Proof.
  induction 1 as [|key P seckeys pks (Hr & ->) _ IH]; constructor; [|exact IH].
  apply generator_order. exact Hr.
Qed.

(** What a signing phase that went through tells about its inputs. *)
Lemma partial_sign_all_success ctx msg32 seckeys indices : forall a a' ps,
  partial_sign_all ctx a msg32 seckeys indices = Some (a', ps) ->
  forall j, In j indices ->
    ecmult_gen_ctx_built ctx = true
    /\ exists prehash,
         secp256k1_compute_prehash (pubkeys a) (n_sigs a)
           (qr_rep (pubnonce_sum a)) msg32 = Returns prehash
         /\ challenge_ok prehash j = true.
Proof.
  induction indices as [|i rest IH]; intros a a' ps; cbn [partial_sign_all];
    [intros _ j []|].
  destruct (secp256k1_aggsig_partial_sign ctx a (replicate 32 x00) msg32
              (seckey_at seckeys i) i) as [[[a1 p] [|]]|] eqn:Es;
    try (intros Hs; discriminate Hs).
  destruct (partial_sign_all ctx a1 msg32 seckeys rest) as [[a2 ps']|] eqn:Er;
    [|intros Hs; discriminate Hs].
  intros _ j [<-|Hj].
  - apply partial_sign_success in Es
      as (Hb & _ & _ & _ & prehash & e & x & Hp & He & _).
    split; [exact Hb|]. exists prehash. split; [exact Hp|].
    unfold challenge_ok. rewrite He. reflexivity.
  - apply partial_sign_success in Es
      as (_ & _ & _ & _ & prehash & e & x & _ & _ & _ & _ & ->).
    exact (IH _ _ _ Er j Hj).
Qed.

Lemma negate_moves k :
  0 < k < order_n -> secp256k1_scalar_negate k <> k.
Proof.
  intros Hk HE.
  pose proof (ecmult_gen_negate k) as Hg. rewrite HE in Hg.
  pose proof (generator_order k Hk) as HP.
  fold (secp256k1_ecmult_gen k) in HP.
  pose proof (has_quad_y_neg _ HP) as Hq. rewrite <- Hg in Hq.
  destruct (secp256k1_gej_has_quad_y_var (secp256k1_ecmult_gen k));
    discriminate Hq.
Qed.

(** C1, as amended.  For a roster of at least one key pair, a message and
    a seed such that every draw of a nonce ends, the sum of the public
    nonces is not the point at infinity and every challenge parses as a
    scalar: generating the nonces of all indices, signing on all indices
    with the matching secret key and combining succeeds, and the 64-byte
    signature it yields verifies against the message and the roster. *)
Theorem ceremony_round_trip fuel ctx pks seckeys msg32 seed heap ks r' :
  ecmult_gen_ctx_built ctx = true ->
  pks <> [] ->
  Forall2 keypair seckeys pks ->
  nonce_draws fuel (length pks)
    (secp256k1_rfc6979_hmac_sha256_initialize (take 32 seed)) = Some (ks, r') ->
  let S := psum (map (fun k => qr_rep (secp256k1_ecmult_gen k)) ks) in
  S <> infinity ->
  (forall j, (j < length pks)%nat ->
     challenge_ok
       (sha256 (concat (map compressed pks) ++ compressed (qr_rep S)
                ++ take 32 msg32)) j = true) ->
  exists aggctx sig64,
    ceremony fuel ctx pks seckeys msg32 seed heap = Some (aggctx, sig64)
    /\ length sig64 = 64%nat
    /\ forall sc0 pt0,
         length sc0 = Pos.to_nat SECP256K1_ECMULT_MULTI_MAX_N ->
         length pt0 = Pos.to_nat SECP256K1_ECMULT_MULTI_MAX_N ->
         secp256k1_aggsig_verify ctx sig64 msg32 pks (length pks) sc0 pt0
         = Returns true.
Proof.
  intros Hb Hne Hkeys Hd S HS Hok.
  destruct (nonce_phase fuel ctx pks seed heap ks r' Hb Hd)
    as (a1 & Hg & Hready & Hn & Hpk & _ & Hsum).
  fold S in Hsum.
  pose proof (keypair_valid _ _ Hkeys) as Hvalid.
  assert (HR : qr_rep S <> infinity)
    by (intros H0; apply HS; apply qr_rep_infinity; exact H0).
  set (prehash := sha256 (concat (map compressed pks) ++ compressed (qr_rep S)
                          ++ take 32 msg32)) in *.
  assert (Hpre : secp256k1_compute_prehash (pubkeys a1) (n_sigs a1)
                   (qr_rep (pubnonce_sum a1)) msg32 = Returns prehash).
  { rewrite Hpk, Hn, Hsum.
    exact (compute_prehash_spec pks (length pks) (qr_rep S) msg32
             eq_refl Hvalid HR). }
  destruct (sign_phase_fwd ctx msg32 seckeys a1 prehash Hb Hready Hpre
              (n_sigs a1) 0 a1 (sign_inv_start a1 Hready) eq_refl)
    as (a2 & Hsign & Hinv2).
  { intros j Hj. rewrite Hn in Hj. split; [apply Hok; lia|].
    apply (keypair_lookup seckeys pks j Hkeys). lia. }
  destruct (combine_verifies ctx msg32 seckeys a1 prehash Hready Hpre a2 Hinv2)
    as (a3 & sig64 & Hcomb & Hlen & Hver).
  { rewrite Hn. destruct pks; [contradiction | discriminate]. }
  { intros j Hj. rewrite Hn in Hj. split; [apply Hok; lia|].
    rewrite Hpk. apply (keypair_lookup seckeys pks j Hkeys). lia. }
  exists a3, sig64. unfold ceremony.
  rewrite Hg. rewrite Hn in Hsign, Hcomb, Hver. rewrite Hsign, Hcomb.
  rewrite Hpk in Hver.
  split; [reflexivity|]. split; [exact Hlen | exact Hver].
Qed.

(** C4, as amended.  On a session with at least one index, whose nonces
    are all known and whose [pubnonce_sum] lacks a quadratic-residue y,
    when [partial_sign] succeeds on all indices with the matching secret
    keys, the combined signature verifies, and afterwards every stored
    secret nonce is the negation of what it was: none of those that
    [generate_nonce] stored (which are not zero) keeps its sign. *)
Theorem qr_flip_negates_every_nonce ctx msg32 seckeys
    (aggctx1 aggctx2 : secp256k1_aggsig_context) partials :
  ready_to_sign aggctx1 ->
  n_sigs aggctx1 <> 0%nat ->
  secp256k1_gej_has_quad_y_var (pubnonce_sum aggctx1) = false ->
  Forall2 keypair seckeys (pubkeys aggctx1) ->
  partial_sign_all ctx aggctx1 msg32 seckeys (seq 0 (n_sigs aggctx1))
  = Some (aggctx2, partials) ->
  (exists aggctx3 sig64,
     combine_all ctx aggctx2 partials = Some (aggctx3, sig64)
     /\ forall sc0 pt0,
          length sc0 = Pos.to_nat SECP256K1_ECMULT_MULTI_MAX_N ->
          length pt0 = Pos.to_nat SECP256K1_ECMULT_MULTI_MAX_N ->
          secp256k1_aggsig_verify ctx sig64 msg32 (pubkeys aggctx1)
            (n_sigs aggctx1) sc0 pt0 = Returns true)
  /\ (forall j k, secnonce aggctx1 !! j = Some k ->
        secnonce aggctx2 !! j = Some (secp256k1_scalar_negate k)
        /\ (0 < k < order_n -> secnonce aggctx2 !! j <> secnonce aggctx1 !! j)).
Proof.
  intros Hready HN Hq Hkeys Hsign.
  assert (Hlpk : length (pubkeys aggctx1) = n_sigs aggctx1)
    by (destruct Hready as ((_ & H & _) & _); exact H).
  destruct (partial_sign_all_success _ _ _ _ _ _ _ Hsign 0%nat)
    as (Hb & prehash & Hpre & _); [apply in_seq; lia|].
  assert (Hok : forall j, (j < n_sigs aggctx1)%nat -> challenge_ok prehash j = true).
  { intros j Hj.
    destruct (partial_sign_all_success _ _ _ _ _ _ _ Hsign j)
      as (_ & prehash' & Hpre' & Hokj); [apply in_seq; lia|].
    rewrite Hpre in Hpre'. injection Hpre' as <-. exact Hokj. }
  destruct (sign_phase_fwd ctx msg32 seckeys aggctx1 prehash Hb Hready Hpre
              (n_sigs aggctx1) 0 aggctx1 (sign_inv_start aggctx1 Hready) eq_refl)
    as (a2 & Hsign' & Hinv2).
  { intros j Hj. split; [apply Hok; lia|].
    apply (keypair_lookup seckeys (pubkeys aggctx1) j Hkeys). lia. }
  rewrite Hsign in Hsign'. injection Hsign' as <- ->.
  split.
  - destruct (combine_verifies ctx msg32 seckeys aggctx1 prehash Hready Hpre
                aggctx2 Hinv2 HN)
      as (a3 & sig64 & Hcomb & _ & Hver).
    { intros j Hj. split; [apply Hok; lia|].
      apply (keypair_lookup seckeys (pubkeys aggctx1) j Hkeys). lia. }
    exists a3, sig64. split; [exact Hcomb | exact Hver].
  - intros j k Hk.
    destruct Hinv2 as (_ & _ & _ & _ & _ & Hs).
    assert (Hj : (j < n_sigs aggctx1)%nat).
    { apply lookup_lt_Some in Hk.
      destruct Hready as ((_ & _ & Hls) & _). lia. }
    rewrite Hs, Hk, bool_decide_eq_true_2 by lia.
    unfold flip_nonce. rewrite Hq. cbn.
    split; [reflexivity|].
    intros Hr [= HE]. exact (negate_moves k Hr HE).
Qed.

End CeremonyTheorems.

(** ** Further properties of the module

    What the functions do on their error paths, what sequences of calls
    keep invariant, and how the calls compose. *)

(** *** The prehash and the index encoding *)

Section Hashing.
Context `{Prims : Primitives}.

Lemma prehash_pubkeys_outcome pks : forall hasher,
  match prehash_pubkeys pks hasher with
  | Aborts => Exists (fun P => secp256k1_eckey_pubkey_serialize P = None) pks
  | Returns h =>
      Forall (fun P => secp256k1_eckey_pubkey_serialize P <> None) pks
      /\ h = hasher ++ concat (map compressed pks)
  end.
Proof.
  induction pks as [|P pks IH]; intros hasher; cbn [prehash_pubkeys map concat].
  - split; [constructor | rewrite app_nil_r; reflexivity].
  - destruct (secp256k1_eckey_pubkey_serialize P) as [buf|] eqn:E.
    + specialize (IH (secp256k1_sha256_write hasher buf 33)).
      destruct (prehash_pubkeys pks _) as [h|].
      * destruct IH as [Hall ->]. split.
        -- constructor; [congruence | exact Hall].
        -- unfold secp256k1_sha256_write, compressed. rewrite E. cbn [default].
           rewrite <- app_assoc. reflexivity.
      * apply Exists_cons_tl. exact IH.
    + apply Exists_cons_hd. exact E.
Qed.

(** X1.  [secp256k1_compute_prehash] aborts exactly when one of the first
    [n_pubkeys] keys or the nonce does not serialise; when it returns, the
    prehash is the digest of the 33-byte encodings of the keys, of the
    nonce, and the first 32 bytes of the message. *)
Theorem compute_prehash_outcome pks n_pubkeys nonce_ge msghash32 :
  (secp256k1_compute_prehash pks n_pubkeys nonce_ge msghash32 = Aborts
   <-> Exists (fun P => secp256k1_eckey_pubkey_serialize P = None)
         (take n_pubkeys pks)
       \/ secp256k1_eckey_pubkey_serialize nonce_ge = None)
  /\ (forall prehash,
        secp256k1_compute_prehash pks n_pubkeys nonce_ge msghash32
        = Returns prehash ->
        prehash = sha256 (concat (map compressed (take n_pubkeys pks))
                          ++ compressed nonce_ge ++ take 32 msghash32)).
Proof.
  unfold secp256k1_compute_prehash.
  pose proof (prehash_pubkeys_outcome (take n_pubkeys pks)
                secp256k1_sha256_initialize) as Hp.
  destruct (prehash_pubkeys (take n_pubkeys pks) secp256k1_sha256_initialize)
    as [h|]; cbn [obind].
  - destruct Hp as [Hall ->].
    destruct (secp256k1_eckey_pubkey_serialize nonce_ge) as [buf|] eqn:E.
    + split.
      * split; [discriminate|]. intros [Hex|Hn]; [|discriminate Hn].
        exfalso. apply Exists_exists in Hex as (P & HP & HN).
        exact (proj1 (Forall_forall _ _) Hall P HP HN).
      * intros prehash [= <-].
        unfold secp256k1_sha256_finalize, secp256k1_sha256_write,
          secp256k1_sha256_initialize, compressed.
        rewrite E. cbn [app default]. rewrite <- app_assoc. reflexivity.
    + split; [|discriminate]. split; [right; reflexivity | reflexivity].
  - split; [|discriminate]. split; [left; exact Hp | reflexivity].
Qed.

(** The bytes [secp256k1_compute_sighash] feeds to SHA-256. *)
Definition sighash_input (prehash : list byte) (index : nat) : list byte :=
  let hasher := secp256k1_sha256_initialize in
  let hasher := sighash_index_loop (N.of_nat index) hasher in
  secp256k1_sha256_write hasher prehash 32.

(** Reading the index bytes back: the bytes are the base-128 digits, least
    significant first. *)
Definition index_of_bytes (l : list byte) : N :=
  fold_right (fun b acc => (Z.to_N (Bytes.to_Z b) + 128 * acc)%N) 0%N l.

Lemma index_of_bytes_varint7 index :
  index_of_bytes (varint7 index) = index
  /\ (index < 128 ^ N.of_nat (length (varint7 index)))%N
  /\ (index <> 0%N -> (128 ^ N.of_nat (length (varint7 index) - 1) <= index)%N).
Proof.
  induction index as [index IH] using (well_founded_induction N.lt_wf_0).
  destruct (N.eq_dec index 0%N) as [->|Hne].
  - rewrite varint7_0. cbn. repeat split; try lia.
  - rewrite (varint7_pos index Hne). cbn [index_of_bytes fold_right length].
    fold (index_of_bytes (varint7 (N.shiftr index 7))).
    rewrite N.shiftr_div_pow2. change (2 ^ 7)%N with 128%N.
    set (q := (index / 128)%N).
    assert (Hlt : (q < index)%N) by (apply N.div_lt; lia).
    destruct (IH q Hlt) as (Hd & Hub & Hlb).
    rewrite Hd.
    change 127%N with (N.ones 7). rewrite N.land_ones.
    change (2 ^ 7)%N with 128%N.
    rewrite Bytes.to_of_Z.
    assert (Hm : (index mod 128 < 128)%N) by (apply N.mod_lt; lia).
    pose proof (N.div_mod index 128%N ltac:(lia)) as Hdm. fold q in Hdm.
    set (r := (index mod 128)%N) in *.
    rewrite Z.mod_small by lia. rewrite N2Z.id.
    split; [lia|].
    replace (N.of_nat (S (length (varint7 q))))
      with (N.succ (N.of_nat (length (varint7 q)))) by lia.
    rewrite N.pow_succ_r'. split; [lia|]. intros _.
    replace (S (length (varint7 q)) - 1)%nat with (length (varint7 q)) by lia.
    destruct (N.eq_dec q 0%N) as [H0|H0].
    + rewrite H0, varint7_0. cbn. lia.
    + specialize (Hlb H0).
      replace (N.of_nat (length (varint7 q)))
        with (N.succ (N.of_nat (length (varint7 q) - 1))).
      * rewrite N.pow_succ_r'. lia.
      * assert (length (varint7 q) <> 0%nat).
        { rewrite (varint7_pos _ H0). discriminate. }
        lia.
Qed.


(** X3.  Two calls of [secp256k1_compute_sighash] hash the same bytes only for
    the same index and the same 32 bytes of prehash. *)
Theorem sighash_input_injective (p q : list byte) (i j : nat) :
  (32 <= length p)%nat -> (32 <= length q)%nat ->
  sighash_input p i = sighash_input q j ->
  i = j /\ take 32 p = take 32 q.
Proof.
  intros Hp Hq. unfold sighash_input, secp256k1_sha256_write,
    secp256k1_sha256_initialize.
  rewrite !sighash_index_loop_varint7. cbn [app]. intros HE.
  assert (Hlen : length (varint7 (N.of_nat i)) = length (varint7 (N.of_nat j))).
  { apply (f_equal (@length byte)) in HE.
    rewrite !length_app, !length_take in HE. lia. }
  apply app_inj_1 in HE as [Hv Ht]; [|exact Hlen].
  split; [|exact Ht].
  apply (f_equal index_of_bytes) in Hv.
  rewrite !(proj1 (index_of_bytes_varint7 _)) in Hv. lia.
Qed.

Lemma compute_sighash_input prehash index :
  secp256k1_compute_sighash prehash index
  = (let '(r, overflow) :=
       secp256k1_scalar_set_b32 (sha256 (sighash_input prehash index)) in
     (r, negb overflow)).
Proof. reflexivity. Qed.

End Hashing.

(** *** The state machine over sequences of calls *)

Section Machine.
Context `{Prims : Primitives}.

(** The moves of a progress entry that the module makes: UNKNOWN to OURS
    ([generate_nonce]), OURS to SIGNED ([partial_sign]), and their
    composition. *)
Definition advances (x x' : nonce_progress) : bool :=
  match x, x' with
  | NONCE_PROGRESS_UNKNOWN,
    (NONCE_PROGRESS_UNKNOWN | NONCE_PROGRESS_OURS | NONCE_PROGRESS_SIGNED) => true
  | NONCE_PROGRESS_OTHER, NONCE_PROGRESS_OTHER => true
  | NONCE_PROGRESS_OURS, (NONCE_PROGRESS_OURS | NONCE_PROGRESS_SIGNED) => true
  | NONCE_PROGRESS_SIGNED, NONCE_PROGRESS_SIGNED => true
  | _, _ => false
  end.

Lemma advances_refl x : advances x x = true.
Proof. destruct x; reflexivity. Qed.

Lemma advances_trans x y z :
  advances x y = true -> advances y z = true -> advances x z = true.
Proof. destruct x, y, z; cbn; congruence. Qed.

Lemma length_flipped_secnonce (aggctx : secp256k1_aggsig_context) index :
  length (flipped_secnonce aggctx index) = length (secnonce aggctx).
Proof.
  unfold flipped_secnonce.
  destruct (secp256k1_gej_has_quad_y_var _); [reflexivity | apply length_insert].
Qed.

Lemma step_frame ctx aggctx c aggctx' :
  step ctx aggctx c = Some aggctx' ->
  n_sigs aggctx' = n_sigs aggctx /\ pubkeys aggctx' = pubkeys aggctx
  /\ length (progress aggctx') = length (progress aggctx)
  /\ length (secnonce aggctx') = length (secnonce aggctx).
Proof.
  destruct c as [fuel index|partial msg key index|sig64 partial n|]; cbn [step].
  - destruct (secp256k1_aggsig_generate_nonce fuel ctx aggctx index)
      as [[a [|]]|] eqn:Eg; [| |intros Hs; discriminate Hs]; intros [= <-].
    + apply generate_nonce_success in Eg as (_ & _ & _ & k & r' & _ & ->).
      cbn [n_sigs pubkeys progress secnonce]. rewrite !length_insert. tauto.
    + apply generate_nonce_failure in Eg as ->. tauto.
  - destruct (secp256k1_aggsig_partial_sign ctx aggctx partial msg key index)
      as [[[a p'] [|]]|] eqn:Es; [| |intros Hs; discriminate Hs]; intros [= <-].
    + apply partial_sign_success in Es
        as (_ & _ & _ & _ & prehash & e & x & _ & _ & _ & _ & ->).
      cbn [n_sigs pubkeys progress secnonce].
      rewrite length_insert, length_flipped_secnonce. tauto.
    + apply partial_sign_failure in Es as (_ & -> & -> & _ & -> & _ & Hsn).
      repeat split.
      destruct Hsn as [-> | ->];
        [reflexivity | apply length_flipped_secnonce].
  - intros [= <-]. rewrite combine_unfold. destruct (_ && _); tauto.
  - intros Hs; discriminate Hs.
Qed.

Lemma step_advances ctx aggctx c aggctx' i x :
  step ctx aggctx c = Some aggctx' ->
  progress aggctx !! i = Some x ->
  exists x', progress aggctx' !! i = Some x' /\ advances x x' = true.
Proof.
  intros Hs Hi.
  destruct c as [fuel index|partial msg key index|sig64 partial n|];
    cbn [step] in Hs.
  - destruct (secp256k1_aggsig_generate_nonce fuel ctx aggctx index)
      as [[a [|]]|] eqn:Eg; [| |discriminate Hs]; injection Hs as <-.
    + apply generate_nonce_success in Eg as (_ & _ & Hu & k & r' & _ & ->).
      cbn [progress]. destruct (decide (i = index)) as [->|Hne].
      * rewrite list_lookup_insert_eq by (apply lookup_lt_Some in Hi; exact Hi).
        eexists. split; [reflexivity|].
        rewrite Hu in Hi. injection Hi as <-. reflexivity.
      * rewrite list_lookup_insert_ne by congruence.
        exists x. split; [exact Hi | apply advances_refl].
    + apply generate_nonce_failure in Eg as ->.
      exists x. split; [exact Hi | apply advances_refl].
  - destruct (secp256k1_aggsig_partial_sign ctx aggctx partial msg key index)
      as [[[a p'] [|]]|] eqn:Es; [| |discriminate Hs]; injection Hs as <-.
    + apply partial_sign_success in Es
        as (_ & _ & _ & Ho & prehash & e & y & _ & _ & _ & _ & ->).
      cbn [progress]. destruct (decide (i = index)) as [->|Hne].
      * rewrite list_lookup_insert_eq by (apply lookup_lt_Some in Hi; exact Hi).
        eexists. split; [reflexivity|].
        rewrite Ho in Hi. injection Hi as <-. reflexivity.
      * rewrite list_lookup_insert_ne by congruence.
        exists x. split; [exact Hi | apply advances_refl].
    + apply partial_sign_failure in Es as (_ & -> & _).
      exists x. split; [exact Hi | apply advances_refl].
  - injection Hs as <-. rewrite combine_unfold.
    exists x. split; [|apply advances_refl].
    destruct (_ && _); exact Hi.
  - discriminate Hs.
Qed.

Lemma run_frame ctx calls : forall aggctx aggctx',
  run ctx calls aggctx = Some aggctx' ->
  n_sigs aggctx' = n_sigs aggctx /\ pubkeys aggctx' = pubkeys aggctx
  /\ length (progress aggctx') = length (progress aggctx)
  /\ length (secnonce aggctx') = length (secnonce aggctx).
Proof.
  induction calls as [|c calls IH]; intros aggctx aggctx'; cbn [run].
  - intros [= <-]. tauto.
  - destruct (step ctx aggctx c) as [a|] eqn:Es; [|intros Hs; discriminate Hs].
    intros Hr. apply IH in Hr as (-> & -> & -> & ->).
    exact (step_frame _ _ _ _ Es).
Qed.

Lemma run_advances ctx calls : forall aggctx aggctx' i x,
  run ctx calls aggctx = Some aggctx' ->
  progress aggctx !! i = Some x ->
  exists x', progress aggctx' !! i = Some x' /\ advances x x' = true.
Proof.
  induction calls as [|c calls IH]; intros aggctx aggctx' i x; cbn [run].
  - intros [= <-] Hi. exists x. split; [exact Hi | apply advances_refl].
  - destruct (step ctx aggctx c) as [a|] eqn:Es; [|intros Hs; discriminate Hs].
    intros Hr Hi.
    destruct (step_advances _ _ _ _ _ _ Es Hi) as (y & Hy & Hxy).
    destruct (IH _ _ _ _ Hr Hy) as (z & Hz & Hyz).
    exists z. split; [exact Hz | exact (advances_trans _ _ _ Hxy Hyz)].
Qed.

(** X4.  No sequence of calls changes the roster or the number of signers, and
    the three arrays keep their sizes: a session whose arrays have [n_sigs]
    entries stays so. *)
Theorem run_keeps_roster ctx calls aggctx aggctx' :
  run ctx calls aggctx = Some aggctx' ->
  n_sigs aggctx' = n_sigs aggctx
  /\ pubkeys aggctx' = pubkeys aggctx
  /\ (wf_session aggctx -> wf_session aggctx').
Proof.
  intros Hr. destruct (run_frame _ _ _ _ Hr) as (Hn & Hp & Hlp & Hls).
  split; [exact Hn|]. split; [exact Hp|].
  unfold wf_session. rewrite Hn, Hp, Hlp, Hls. tauto.
Qed.

(** X5.  Over any sequence of calls an entry of [progress] only moves forward,
    from UNKNOWN to OURS and from OURS to SIGNED: it never returns to
    UNKNOWN, and no call writes NONCE_PROGRESS_OTHER or leaves it. *)
Theorem progress_only_advances ctx calls aggctx aggctx' i x :
  run ctx calls aggctx = Some aggctx' ->
  progress aggctx !! i = Some x ->
  exists x',
    progress aggctx' !! i = Some x'
    /\ advances x x' = true
    /\ (x <> NONCE_PROGRESS_UNKNOWN -> x' <> NONCE_PROGRESS_UNKNOWN)
    /\ (x' = NONCE_PROGRESS_OTHER <-> x = NONCE_PROGRESS_OTHER).
Proof.
  intros Hr Hi. destruct (run_advances _ _ _ _ _ _ Hr Hi) as (x' & Hx' & Ha).
  exists x'. split; [exact Hx'|]. split; [exact Ha|].
  destruct x, x'; cbn in Ha; try discriminate Ha;
    (split; [congruence | split; congruence]).
Qed.

(** X6.  A nonce is generated once: after [generate_nonce] has succeeded on an
    index, and whatever calls follow, [generate_nonce] on that index
    returns 0 and leaves the session, the RNG included, as it is. *)
Theorem nonce_never_regenerated fuel0 ctx aggctx0 index aggctx1 calls aggctx2 :
  secp256k1_aggsig_generate_nonce fuel0 ctx aggctx0 index = Some (aggctx1, true) ->
  run ctx calls aggctx1 = Some aggctx2 ->
  forall fuel,
    secp256k1_aggsig_generate_nonce fuel ctx aggctx2 index
    = Some (aggctx2, false).
Proof.
  intros Hg Hr fuel.
  apply generate_nonce_success in Hg as (_ & _ & Hu & k & r' & _ & ->).
  assert (Ho : progress
                 {| progress := <[index := NONCE_PROGRESS_OURS]> (progress aggctx0);
                    pubkeys := pubkeys aggctx0;
                    secnonce := <[index := if secp256k1_gej_has_quad_y_var
                                                 (secp256k1_ecmult_gen k)
                                           then k else secp256k1_scalar_negate k]>
                                  (secnonce aggctx0);
                    pubnonce_sum := secp256k1_gej_add_var (pubnonce_sum aggctx0)
                                      (qr_rep (secp256k1_ecmult_gen k));
                    n_sigs := n_sigs aggctx0; rng := r' |} !! index
                = Some NONCE_PROGRESS_OURS).
  { cbn [progress]. apply list_lookup_insert_eq.
    apply lookup_lt_Some in Hu. exact Hu. }
  destruct (run_advances _ _ _ _ _ _ Hr Ho) as (x' & Hx' & Ha).
  unfold secp256k1_aggsig_generate_nonce.
  destruct (negb (ecmult_gen_ctx_built ctx)); [reflexivity|].
  destruct (negb (index <? n_sigs aggctx2)%nat); [reflexivity|].
  rewrite Hx'. destruct x'; try reflexivity. discriminate Ha.
Qed.

(** X7.  On a session that [secp256k1_aggsig_context_create] has just made,
    [partial_sign] returns 0 whatever it is given, and writes neither the
    session nor the partial. *)
Theorem fresh_session_rejects_signing ctx pks n_pubkeys seed heap
    partial msghash32 seckey32 index :
  let aggctx := secp256k1_aggsig_context_create pks n_pubkeys seed heap in
  secp256k1_aggsig_partial_sign ctx aggctx partial msghash32 seckey32 index
  = Returns (aggctx, partial, false).
Proof.
  intros aggctx. unfold secp256k1_aggsig_partial_sign.
  destruct (negb (ecmult_gen_ctx_built ctx)); [reflexivity|].
  destruct (Nat.ltb_spec index (n_sigs aggctx)) as [Hlt|Hge]; cbn [negb];
    [|reflexivity].
  unfold aggctx, secp256k1_aggsig_context_create in *. cbn [n_sigs progress] in *.
  rewrite firstn_all2 by (rewrite length_replicate; lia).
  destruct n_pubkeys as [|n]; [lia|]. reflexivity.
Qed.

(** *** The gates of [partial_sign] *)

Lemma any_unknown_true (pr : list nonce_progress) :
  any_unknown pr = true
  <-> exists j, pr !! j = Some NONCE_PROGRESS_UNKNOWN.
Proof.
  induction pr as [|x pr IH]; cbn [any_unknown].
  - split; [discriminate | intros [j Hj]; discriminate Hj].
  - destruct x.
    + split; [intros _; exists 0%nat; reflexivity | reflexivity].
    + rewrite IH. split; intros [j Hj]; [exists (S j); exact Hj|].
      destruct j as [|j]; [discriminate Hj | exists j; exact Hj].
    + rewrite IH. split; intros [j Hj]; [exists (S j); exact Hj|].
      destruct j as [|j]; [discriminate Hj | exists j; exact Hj].
    + rewrite IH. split; intros [j Hj]; [exists (S j); exact Hj|].
      destruct j as [|j]; [discriminate Hj | exists j; exact Hj].
Qed.

Lemma any_unknown_take (pr : list nonce_progress) n :
  any_unknown (take n pr) = true
  <-> exists j, (j < n)%nat /\ pr !! j = Some NONCE_PROGRESS_UNKNOWN.
Proof.
  rewrite any_unknown_true. split.
  - intros [j Hj]. apply lookup_take_Some in Hj as [Hj Hlt].
    exists j. split; [exact Hlt | exact Hj].
  - intros (j & Hlt & Hj). exists j. apply lookup_take_Some. split; assumption.
Qed.

Lemma no_unknown_any (pr : list nonce_progress) n :
  (forall j, (j < n)%nat -> pr !! j <> Some NONCE_PROGRESS_UNKNOWN) ->
  any_unknown (take n pr) = false.
Proof.
  intros Hnu. destruct (any_unknown (take n pr)) eqn:E; [|reflexivity].
  apply any_unknown_take in E as (j & Hj & Hj').
  exfalso. exact (Hnu j Hj Hj').
Qed.

(** X8.  [partial_sign] returns 0 and writes neither the session nor the
    partial when the generator context is not built, the index is out of
    range, the nonce of some index is still UNKNOWN, or the nonce of its
    own index is not OURS. *)
Theorem partial_sign_gate ctx aggctx partial msghash32 seckey32 index :
  ecmult_gen_ctx_built ctx = false
  \/ (n_sigs aggctx <= index)%nat
  \/ (exists j, (j < n_sigs aggctx)%nat
                /\ progress aggctx !! j = Some NONCE_PROGRESS_UNKNOWN)
  \/ progress aggctx !! index <> Some NONCE_PROGRESS_OURS ->
  secp256k1_aggsig_partial_sign ctx aggctx partial msghash32 seckey32 index
  = Returns (aggctx, partial, false).
Proof.
  intros Hgate. unfold secp256k1_aggsig_partial_sign.
  destruct (ecmult_gen_ctx_built ctx) eqn:Hb; cbn [negb]; [|reflexivity].
  destruct (Nat.ltb_spec index (n_sigs aggctx)) as [Hlt|Hge]; cbn [negb];
    [|reflexivity].
  destruct (any_unknown (take (n_sigs aggctx) (progress aggctx))) eqn:Hu;
    [reflexivity|].
  destruct (progress aggctx !! index) as [[]|] eqn:Hi; try reflexivity.
  exfalso. destruct Hgate as [Hg|[Hg|[Hg|Hg]]].
  - discriminate Hg.
  - lia.
  - apply any_unknown_take in Hg. congruence.
  - apply Hg. reflexivity.
Qed.

(** X9.  [partial_sign] returns 1 exactly when the four gates are passed, the
    prehash is computed, the challenge of the index parses as a scalar and
    the secret key is below the group order. *)
Theorem partial_sign_returns_1_iff ctx aggctx partial msghash32 seckey32 index :
  (exists aggctx' partial',
     secp256k1_aggsig_partial_sign ctx aggctx partial msghash32 seckey32 index
     = Returns (aggctx', partial', true))
  <-> ecmult_gen_ctx_built ctx = true
      /\ (index < n_sigs aggctx)%nat
      /\ (forall j, (j < n_sigs aggctx)%nat ->
            progress aggctx !! j <> Some NONCE_PROGRESS_UNKNOWN)
      /\ progress aggctx !! index = Some NONCE_PROGRESS_OURS
      /\ exists prehash,
           secp256k1_compute_prehash (pubkeys aggctx) (n_sigs aggctx)
             (qr_rep (pubnonce_sum aggctx)) msghash32 = Returns prehash
           /\ (secp256k1_compute_sighash prehash index).2 = true
           /\ Bytes.be2Z (take 32 seckey32) < order_n.
Proof.
  split.
  - intros (a' & p' & Hs).
    apply partial_sign_success in Hs
      as (Hb & Hlt & Hu & Ho & prehash & e & x & Hp & He & Hx & _ & _).
    split; [exact Hb|]. split; [exact Hlt|]. split.
    { intros j Hj Hj'.
      assert (any_unknown (take (n_sigs aggctx) (progress aggctx)) = true)
        by (apply any_unknown_take; exists j; split; assumption).
      congruence. }
    split; [exact Ho|]. exists prehash. split; [exact Hp|].
    split; [rewrite He; reflexivity|].
    unfold secp256k1_scalar_set_b32 in Hx. injection Hx as _ Hx.
    apply Z.leb_gt in Hx. exact Hx.
  - intros (Hb & Hlt & Hu & Ho & prehash & Hp & He & Hx).
    unfold secp256k1_aggsig_partial_sign.
    rewrite Hb. cbn [negb].
    destruct (Nat.ltb_spec index (n_sigs aggctx)) as [_|Hge]; [|lia].
    cbn [negb].
    destruct (any_unknown (take (n_sigs aggctx) (progress aggctx))) eqn:Hany.
    { apply any_unknown_take in Hany as (j & Hj & Hj').
      exfalso. exact (Hu j Hj Hj'). }
    rewrite Ho. cbv zeta. rewrite qr_rep_flip, Hp. cbn [obind].
    destruct (secp256k1_compute_sighash prehash index) as [e ok].
    cbn [snd] in He. subst ok. cbn [negb].
    unfold secp256k1_scalar_set_b32.
    destruct (Z.leb_spec order_n (Bytes.be2Z (take 32 seckey32))) as [Hge|_];
      [lia|].
    eexists _, _. reflexivity.
Qed.

Lemma partial_sign_fails_late ctx aggctx partial msghash32 seckey32 index
    prehash :
  ecmult_gen_ctx_built ctx = true ->
  (index < n_sigs aggctx)%nat ->
  any_unknown (take (n_sigs aggctx) (progress aggctx)) = false ->
  progress aggctx !! index = Some NONCE_PROGRESS_OURS ->
  secp256k1_compute_prehash (pubkeys aggctx) (n_sigs aggctx)
    (qr_rep (pubnonce_sum aggctx)) msghash32 = Returns prehash ->
  (secp256k1_compute_sighash prehash index).2 = false
  \/ order_n <= Bytes.be2Z (take 32 seckey32) ->
  secp256k1_aggsig_partial_sign ctx aggctx partial msghash32 seckey32 index
  = Returns ({| progress := progress aggctx; pubkeys := pubkeys aggctx;
                secnonce := flipped_secnonce aggctx index;
                pubnonce_sum := pubnonce_sum aggctx;
                n_sigs := n_sigs aggctx; rng := rng aggctx |},
             partial, false).
Proof.
  intros Hb Hlt Hu Ho Hp Hfail.
  unfold secp256k1_aggsig_partial_sign.
  rewrite Hb. cbn [negb].
  destruct (Nat.ltb_spec index (n_sigs aggctx)) as [_|Hge]; [|lia].
  cbn [negb]. rewrite Hu, Ho. cbv zeta. rewrite qr_rep_flip, Hp. cbn [obind].
  assert (Hfl : (if negb (secp256k1_gej_has_quad_y_var (pubnonce_sum aggctx))
                 then <[index := secp256k1_scalar_negate
                                   (default 0 (secnonce aggctx !! index))]>
                        (secnonce aggctx)
                 else secnonce aggctx) = flipped_secnonce aggctx index).
  { unfold flipped_secnonce.
    destruct (secp256k1_gej_has_quad_y_var _); reflexivity. }
  rewrite Hfl.
  destruct (secp256k1_compute_sighash prehash index) as [e ok].
  cbn [snd] in Hfail. destruct ok; cbn [negb]; [|reflexivity].
  unfold secp256k1_scalar_set_b32.
  destruct (Z.leb_spec order_n (Bytes.be2Z (take 32 seckey32))) as [_|Hsmall];
    [reflexivity|].
  destruct Hfail as [Hf|Hf]; [discriminate Hf | lia].
Qed.

(** X10.  A call that passes the gates and then fails, on a challenge or a
    secret key that does not parse as a scalar, has already applied the
    sign flip: it returns 0 with [progress[index]] still OURS, and with
    [secnonce[index]] negated when [pubnonce_sum] lacks a
    quadratic-residue y (and untouched when it has one). *)
Theorem partial_sign_late_failure ctx aggctx partial msghash32 seckey32 index
    prehash k :
  ecmult_gen_ctx_built ctx = true ->
  (index < n_sigs aggctx)%nat ->
  (forall j, (j < n_sigs aggctx)%nat ->
     progress aggctx !! j <> Some NONCE_PROGRESS_UNKNOWN) ->
  progress aggctx !! index = Some NONCE_PROGRESS_OURS ->
  secnonce aggctx !! index = Some k ->
  secp256k1_compute_prehash (pubkeys aggctx) (n_sigs aggctx)
    (qr_rep (pubnonce_sum aggctx)) msghash32 = Returns prehash ->
  (secp256k1_compute_sighash prehash index).2 = false
  \/ order_n <= Bytes.be2Z (take 32 seckey32) ->
  exists aggctx',
    secp256k1_aggsig_partial_sign ctx aggctx partial msghash32 seckey32 index
    = Returns (aggctx', partial, false)
    /\ progress aggctx' = progress aggctx
    /\ pubkeys aggctx' = pubkeys aggctx
    /\ pubnonce_sum aggctx' = pubnonce_sum aggctx
    /\ n_sigs aggctx' = n_sigs aggctx
    /\ rng aggctx' = rng aggctx
    /\ (forall j, j <> index -> secnonce aggctx' !! j = secnonce aggctx !! j)
    /\ secnonce aggctx' !! index
       = Some (if secp256k1_gej_has_quad_y_var (pubnonce_sum aggctx)
               then k else secp256k1_scalar_negate k).
Proof.
  intros Hb Hlt Hnu Ho Hk Hp Hfail.
  pose proof (no_unknown_any _ _ Hnu) as Hu.
  eexists. split.
  - exact (partial_sign_fails_late ctx aggctx partial msghash32 seckey32 index
             prehash Hb Hlt Hu Ho Hp Hfail).
  - cbn [progress pubkeys pubnonce_sum n_sigs rng secnonce].
    repeat (split; [reflexivity|]).
    unfold flipped_secnonce.
    destruct (secp256k1_gej_has_quad_y_var (pubnonce_sum aggctx)).
    + split; [reflexivity | exact Hk].
    + split.
      * intros j Hj. apply list_lookup_insert_ne. congruence.
      * rewrite Hk. cbn [default].
        apply list_lookup_insert_eq. apply lookup_lt_Some in Hk. exact Hk.
Qed.

End Machine.

(** *** Order of signing and order of the partials *)

Section Order.
Context `{Prims : Primitives}.

Lemma partial_sign_run1 ctx aggctx partial msghash32 seckey32 index prehash e x :
  ecmult_gen_ctx_built ctx = true ->
  (index < n_sigs aggctx)%nat ->
  any_unknown (take (n_sigs aggctx) (progress aggctx)) = false ->
  progress aggctx !! index = Some NONCE_PROGRESS_OURS ->
  secp256k1_compute_prehash (pubkeys aggctx) (n_sigs aggctx)
    (qr_rep (pubnonce_sum aggctx)) msghash32 = Returns prehash ->
  secp256k1_compute_sighash prehash index = (e, true) ->
  secp256k1_scalar_set_b32 seckey32 = (x, false) ->
  secp256k1_aggsig_partial_sign ctx aggctx partial msghash32 seckey32 index
  = Returns ({| progress := <[index := NONCE_PROGRESS_SIGNED]> (progress aggctx);
                pubkeys := pubkeys aggctx;
                secnonce := flipped_secnonce aggctx index;
                pubnonce_sum := pubnonce_sum aggctx;
                n_sigs := n_sigs aggctx;
                rng := rng aggctx |},
             secp256k1_scalar_get_b32
               (secp256k1_scalar_add (secp256k1_scalar_mul x e)
                  (default 0 (flipped_secnonce aggctx index !! index))),
             true).
Proof.
  intros Hb Hlt Hu Ho Hp He Hx. unfold secp256k1_aggsig_partial_sign.
  rewrite Hb. cbn [negb].
  destruct (Nat.ltb_spec index (n_sigs aggctx)) as [_|Hge]; [|lia].
  cbn [negb]. rewrite Hu, Ho. cbv zeta. rewrite qr_rep_flip, Hp. cbn [obind].
  rewrite He, Hx. cbn [negb].
  unfold flipped_secnonce.
  destruct (secp256k1_gej_has_quad_y_var (pubnonce_sum aggctx)); reflexivity.
Qed.

Lemma any_unknown_insert_signed (pr : list nonce_progress) n i :
  any_unknown (take n pr) = false ->
  any_unknown (take n (<[i := NONCE_PROGRESS_SIGNED]> pr)) = false.
Proof.
  intros Hu.
  destruct (any_unknown (take n (<[i := NONCE_PROGRESS_SIGNED]> pr))) eqn:Hu';
    [|reflexivity].
  apply any_unknown_take in Hu' as (j & Hj & Hl).
  assert (Hpr : pr !! j = Some NONCE_PROGRESS_UNKNOWN).
  { destruct (decide (i = j)) as [->|Hne].
    - apply list_lookup_insert_Some in Hl as [(_ & Hs & _)|(Hne & _)];
        [discriminate Hs | congruence].
    - rewrite list_lookup_insert_ne in Hl by exact Hne. exact Hl. }
  assert (any_unknown (take n pr) = true)
    by (apply any_unknown_take; exists j; split; assumption).
  congruence.
Qed.

Lemma flipped_secnonce_other (a : secp256k1_aggsig_context) pr i j :
  i <> j ->
  let a1 := {| progress := pr; pubkeys := pubkeys a;
               secnonce := flipped_secnonce a i;
               pubnonce_sum := pubnonce_sum a;
               n_sigs := n_sigs a; rng := rng a |} in
  flipped_secnonce a1 j !! j = flipped_secnonce a j !! j
  /\ forall pr',
       flipped_secnonce a1 j
       = flipped_secnonce
           {| progress := pr'; pubkeys := pubkeys a;
              secnonce := flipped_secnonce a j;
              pubnonce_sum := pubnonce_sum a;
              n_sigs := n_sigs a; rng := rng a |} i.
Proof.
  intros Hne a1. unfold a1, flipped_secnonce. cbn [pubnonce_sum secnonce].
  destruct (secp256k1_gej_has_quad_y_var (pubnonce_sum a)).
  - split; reflexivity.
  - rewrite (list_lookup_insert_ne (secnonce a) i j) by congruence.
    rewrite (list_lookup_insert_ne (secnonce a) j i) by congruence. split.
    + destruct (decide (j < length (secnonce a))%nat) as [Hlt|Hge].
      * rewrite !list_lookup_insert_eq by (rewrite ?length_insert; lia).
        reflexivity.
      * rewrite !lookup_ge_None_2 by (rewrite ?length_insert; lia).
        reflexivity.
    + intros _. apply list_insert_insert_ne. congruence.
Qed.

(** X11.  Two indices can sign in either order: the two partials and the
    session that results are the same. *)
Theorem partial_sign_commute ctx aggctx i j
    partial_i msg_i key_i partial_j msg_j key_j aggctx1 s_i aggctx2 s_j :
  i <> j ->
  secp256k1_aggsig_partial_sign ctx aggctx partial_i msg_i key_i i
  = Returns (aggctx1, s_i, true) ->
  secp256k1_aggsig_partial_sign ctx aggctx1 partial_j msg_j key_j j
  = Returns (aggctx2, s_j, true) ->
  exists aggctx1',
    secp256k1_aggsig_partial_sign ctx aggctx partial_j msg_j key_j j
    = Returns (aggctx1', s_j, true)
    /\ secp256k1_aggsig_partial_sign ctx aggctx1' partial_i msg_i key_i i
       = Returns (aggctx2, s_i, true).
Proof.
  intros Hne H1 H2.
  apply partial_sign_success in H1
    as (Hb & Hi & Hu & Hoi & hi & ei & xi & Hpi & Hei & Hxi & -> & ->).
  apply partial_sign_success in H2
    as (_ & Hj & _ & Hoj & hj & ej & xj & Hpj & Hej & Hxj & -> & ->).
  cbn [progress pubkeys n_sigs pubnonce_sum rng] in *.
  rewrite list_lookup_insert_ne in Hoj by exact Hne.
  destruct (flipped_secnonce_other aggctx
              (<[i := NONCE_PROGRESS_SIGNED]> (progress aggctx)) i j Hne)
    as (Hlook & Hflip).
  cbv zeta in Hlook, Hflip.
  eexists. split.
  - rewrite (partial_sign_run1 ctx aggctx partial_j msg_j key_j j hj ej xj
               Hb Hj Hu Hoj Hpj Hej Hxj).
    rewrite Hlook. reflexivity.
  - erewrite partial_sign_run1; cbn [progress pubkeys n_sigs pubnonce_sum rng];
      [| exact Hb | exact Hi | apply any_unknown_insert_signed; exact Hu
       | rewrite list_lookup_insert_ne by congruence; exact Hoi
       | exact Hpi | exact Hei | exact Hxi].
    destruct (flipped_secnonce_other aggctx
                (<[j := NONCE_PROGRESS_SIGNED]> (progress aggctx)) j i
                ltac:(congruence)) as (Hlook' & Hflip').
    cbv zeta in Hlook', Hflip'.
    rewrite Hlook'.
    rewrite (Hflip (<[j := NONCE_PROGRESS_SIGNED]> (progress aggctx))).
    rewrite (list_insert_insert_ne _ i j) by exact Hne.
    reflexivity.
Qed.

Lemma forallb_Permutation {A} (f : A -> bool) (l l' : list A) :
  Permutation l l' -> forallb f l = forallb f l'.
Proof.
  induction 1 as [|x l l' _ IH|x y l|l l' l'' _ IH1 _ IH2]; cbn [forallb].
  - reflexivity.
  - rewrite IH. reflexivity.
  - destruct (f x), (f y); reflexivity.
  - congruence.
Qed.

Lemma Zsum_Permutation (l l' : list Z) :
  Permutation l l' -> Zsum l = Zsum l'.
Proof.
  unfold Zsum.
  induction 1 as [|x l l' _ IH|x y l|l l' l'' _ IH1 _ IH2]; cbn [fold_right];
    lia.
Qed.

(** X12.  [combine] does not depend on the order of the partials: on a
    rearrangement of the array it returns the same value, writes the same
    64 bytes and leaves the same session. *)
Theorem combine_permutation ctx aggctx sig64 (partial partial' : list (list byte)) n :
  length partial = n ->
  Permutation partial partial' ->
  secp256k1_aggsig_combine_signatures ctx aggctx sig64 partial' n
  = secp256k1_aggsig_combine_signatures ctx aggctx sig64 partial n.
Proof.
  intros Hlen Hperm.
  pose proof (Permutation_length Hperm) as Hlen'.
  rewrite !combine_unfold.
  rewrite !firstn_all2 by lia.
  rewrite (forallb_Permutation _ _ _ Hperm).
  rewrite (Zsum_Permutation _ _
             (Permutation_map (fun p => Bytes.be2Z (take 32 p)) Hperm)).
  reflexivity.
Qed.

End Order.

(** *** The nonces of a session *)

Section Nonces.
Context `{Prims : Primitives} {GLaws : GroupLaws}.

Local Notation "P ⊕ Q" := (secp256k1_gej_add_var P Q) (at level 50, left associativity).
Local Notation "⊖ P" := (secp256k1_gej_neg P) (at level 35, right associativity).

Lemma negate_range k : 0 < k < order_n -> 0 < secp256k1_scalar_negate k < order_n.
Proof.
  intros Hk. unfold secp256k1_scalar_negate.
  replace (- k) with (order_n - k + (-1) * order_n) by lia.
  rewrite Z.mod_add by lia. rewrite Z.mod_small; lia.
Qed.

Lemma negate_negate k :
  0 <= k < order_n -> secp256k1_scalar_negate (secp256k1_scalar_negate k) = k.
Proof.
  intros Hk. unfold secp256k1_scalar_negate.
  destruct (Z.eq_dec k 0) as [->|Hne].
  - cbn [Z.opp]. rewrite (Z.mod_small 0) by lia. reflexivity.
  - replace (- k) with (order_n - k + (-1) * order_n) by lia.
    rewrite Z.mod_add by lia. rewrite (Z.mod_small (order_n - k)) by lia.
    replace (- (order_n - k)) with (k + (-1) * order_n) by lia.
    rewrite Z.mod_add by lia. apply Z.mod_small. lia.
Qed.

Lemma ecmult_gen_nonzero k :
  0 < k < order_n -> secp256k1_ecmult_gen k <> infinity.
Proof. apply generator_order. Qed.

Lemma qr_rep_neg P : P <> infinity -> qr_rep (⊖ P) = qr_rep P.
Proof.
  intros HP. unfold qr_rep. rewrite has_quad_y_neg by exact HP.
  destruct (secp256k1_gej_has_quad_y_var P); cbn [negb];
    [apply neg_neg | reflexivity].
Qed.

Lemma canonical_nonce_range k :
  0 < k < order_n -> 0 < canonical_nonce k < order_n.
Proof.
  intros Hk. unfold canonical_nonce.
  destruct (secp256k1_gej_has_quad_y_var _); [exact Hk | apply negate_range, Hk].
Qed.

(** X13.  A successful [generate_nonce] writes only the entries of its index in
    [progress] and [secnonce], besides [pubnonce_sum] and the RNG; the
    secret nonce it stores is a non-zero scalar, so its public nonce is
    not the point at infinity. *)
Theorem generate_nonce_effect fuel ctx (aggctx : secp256k1_aggsig_context)
    index aggctx' :
  wf_session aggctx ->
  secp256k1_aggsig_generate_nonce fuel ctx aggctx index = Some (aggctx', true) ->
  n_sigs aggctx' = n_sigs aggctx
  /\ pubkeys aggctx' = pubkeys aggctx
  /\ wf_session aggctx'
  /\ (forall j, j <> index ->
        progress aggctx' !! j = progress aggctx !! j
        /\ secnonce aggctx' !! j = secnonce aggctx !! j)
  /\ exists k, secnonce aggctx' !! index = Some k
               /\ 0 < k < order_n
               /\ secp256k1_ecmult_gen k <> infinity.
Proof.
  intros (Hlp & Hlk & Hls) Hg.
  pose proof order_n_gt_1 as Hn.
  apply generate_nonce_success in Hg as (_ & Hlt & _ & k & r' & Hloop & ->).
  cbn [n_sigs pubkeys progress secnonce].
  split; [reflexivity|]. split; [reflexivity|]. split.
  { unfold wf_session. cbn [n_sigs pubkeys progress secnonce].
    rewrite !length_insert. tauto. }
  split.
  { intros j Hj. rewrite !list_lookup_insert_ne by congruence. tauto. }
  apply nonce_loop_valid in Hloop; [|lia].
  eexists. split; [apply list_lookup_insert_eq; lia|].
  fold (canonical_nonce k).
  split; [apply canonical_nonce_range, Hloop|].
  apply ecmult_gen_nonzero, canonical_nonce_range, Hloop.
Qed.

(** The contribution of an index to [pubnonce_sum]: nothing while its
    nonce is not generated, then the quadratic-residue representative of
    the public nonce. *)
Definition nonce_term (aggctx : secp256k1_aggsig_context) (j : nat) : point :=
  match progress aggctx !! j with
  | Some NONCE_PROGRESS_OURS | Some NONCE_PROGRESS_SIGNED =>
      qr_rep (secp256k1_ecmult_gen (default 0 (secnonce aggctx !! j)))
  | _ => infinity
  end.

Definition is_known (x : option nonce_progress) : bool :=
  match x with
  | Some NONCE_PROGRESS_OURS | Some NONCE_PROGRESS_SIGNED => true
  | _ => false
  end.

Definition nonce_inv (aggctx : secp256k1_aggsig_context) : Prop :=
  wf_session aggctx
  /\ (forall j, is_known (progress aggctx !! j) = true ->
        0 < default 0 (secnonce aggctx !! j) < order_n)
  /\ pubnonce_sum aggctx = point_sum (nonce_term aggctx) (seq 0 (n_sigs aggctx)).

Lemma point_sum_update (f g : nat -> point) i n T :
  (i < n)%nat ->
  (forall j, j <> i -> g j = f j) ->
  f i = infinity -> g i = T ->
  point_sum g (seq 0 n) = point_sum f (seq 0 n) ⊕ T.
Proof.
  intros Hi Hother Hf Hg.
  replace n with (i + S (n - S i))%nat by lia.
  rewrite seq_app. cbn [seq Nat.add]. rewrite !point_sum_app.
  cbn [point_sum fold_right].
  fold (point_sum g (seq (S i) (n - S i))).
  fold (point_sum f (seq (S i) (n - S i))).
  rewrite Hf, Hg, add_infinity_l.
  rewrite (point_sum_ext g f (seq 0 i))
    by (intros j Hj; apply in_seq in Hj; apply Hother; lia).
  rewrite (point_sum_ext g f (seq (S i) (n - S i)))
    by (intros j Hj; apply in_seq in Hj; apply Hother; lia).
  rewrite <- !add_assoc. f_equal. apply add_comm.
Qed.

Lemma nonce_inv_create pks n_pubkeys seed heap :
  (n_pubkeys <= length pks)%nat ->
  nonce_inv (secp256k1_aggsig_context_create pks n_pubkeys seed heap).
Proof.
  intros Hlen. unfold nonce_inv, wf_session, secp256k1_aggsig_context_create.
  cbn [progress pubkeys secnonce n_sigs pubnonce_sum].
  rewrite length_replicate, length_take, length_map, length_seq.
  split; [lia|]. split.
  - intros j Hk. destruct (replicate n_pubkeys NONCE_PROGRESS_UNKNOWN !! j)
      as [x|] eqn:E; [|discriminate Hk].
    apply lookup_replicate in E as [-> _]. discriminate Hk.
  - assert (Hz : forall ks, point_sum
             (nonce_term
                {| progress := replicate n_pubkeys NONCE_PROGRESS_UNKNOWN;
                   pubkeys := take n_pubkeys pks;
                   secnonce := map heap (seq 0 n_pubkeys);
                   pubnonce_sum := infinity; n_sigs := n_pubkeys;
                   rng := secp256k1_rfc6979_hmac_sha256_initialize (take 32 seed) |})
             ks = infinity).
    { induction ks as [|j ks IH]; [reflexivity|].
      cbn [point_sum fold_right]. fold (point_sum
             (nonce_term
                {| progress := replicate n_pubkeys NONCE_PROGRESS_UNKNOWN;
                   pubkeys := take n_pubkeys pks;
                   secnonce := map heap (seq 0 n_pubkeys);
                   pubnonce_sum := infinity; n_sigs := n_pubkeys;
                   rng := secp256k1_rfc6979_hmac_sha256_initialize (take 32 seed) |})
             ks).
      rewrite IH, add_infinity_r. unfold nonce_term. cbn [progress].
      destruct (replicate n_pubkeys NONCE_PROGRESS_UNKNOWN !! j) as [x|] eqn:E;
        [|reflexivity].
      apply lookup_replicate in E as [-> _]. reflexivity. }
    symmetry. apply Hz.
Qed.

Lemma nonce_inv_generate fuel ctx aggctx index aggctx' ok :
  nonce_inv aggctx ->
  secp256k1_aggsig_generate_nonce fuel ctx aggctx index = Some (aggctx', ok) ->
  nonce_inv aggctx'.
Proof.
  intros Hinv Hg. pose proof order_n_gt_1 as Hn.
  destruct ok; [|apply generate_nonce_failure in Hg as ->; exact Hinv].
  destruct Hinv as ((Hlp & Hlk & Hls) & Hrange & Hsum).
  apply generate_nonce_success in Hg as (_ & Hlt & Hu & k & r' & Hloop & ->).
  apply nonce_loop_valid in Hloop; [|lia].
  unfold nonce_inv, wf_session. cbv zeta.
  change (if secp256k1_gej_has_quad_y_var (secp256k1_ecmult_gen k)
          then k else secp256k1_scalar_negate k) with (canonical_nonce k).
  cbn [progress pubkeys secnonce n_sigs pubnonce_sum].
  rewrite !length_insert. split; [tauto|]. split.
  - intros j Hk. destruct (decide (j = index)) as [->|Hne].
    + rewrite list_lookup_insert_eq by lia. cbn [default].
      apply canonical_nonce_range, Hloop.
    + rewrite list_lookup_insert_ne in Hk by congruence.
      rewrite list_lookup_insert_ne by congruence. apply Hrange, Hk.
  - rewrite Hsum. symmetry. apply point_sum_update with (i := index).
    + exact Hlt.
    + intros j Hne. unfold nonce_term. cbn [progress secnonce].
      rewrite !list_lookup_insert_ne by congruence. reflexivity.
    + unfold nonce_term. rewrite Hu. reflexivity.
    + unfold nonce_term. cbn [progress secnonce].
      rewrite !list_lookup_insert_eq by lia. cbn [default]. unfold id.
      rewrite ecmult_gen_canonical. apply qr_rep_idem.
Qed.

Lemma nonce_term_flipped (aggctx : secp256k1_aggsig_context) pr index :
  (forall j, is_known (progress aggctx !! j) = true ->
     0 < default 0 (secnonce aggctx !! j) < order_n) ->
  (forall j, is_known (pr !! j) = is_known (progress aggctx !! j)) ->
  forall j,
    nonce_term {| progress := pr; pubkeys := pubkeys aggctx;
                  secnonce := flipped_secnonce aggctx index;
                  pubnonce_sum := pubnonce_sum aggctx;
                  n_sigs := n_sigs aggctx; rng := rng aggctx |} j
    = nonce_term aggctx j
    /\ (is_known (pr !! j) = true ->
        0 < default 0 (flipped_secnonce aggctx index !! j) < order_n).
Proof.
  intros Hrange Hpr j. unfold nonce_term. cbn [progress secnonce].
  specialize (Hpr j). specialize (Hrange j).
  assert (Hcase : flipped_secnonce aggctx index !! j = secnonce aggctx !! j
                  \/ exists k, secnonce aggctx !! j = Some k
                       /\ flipped_secnonce aggctx index !! j
                          = Some (secp256k1_scalar_negate k)).
  { unfold flipped_secnonce.
    destruct (secp256k1_gej_has_quad_y_var (pubnonce_sum aggctx));
      [left; reflexivity|].
    destruct (decide (j = index)) as [->|Hne].
    - destruct (secnonce aggctx !! index) as [k|] eqn:Ek.
      + right. exists k. split; [reflexivity|]. cbn [default].
        apply list_lookup_insert_eq. apply lookup_lt_Some in Ek. exact Ek.
      + left. apply lookup_ge_None in Ek.
        apply lookup_ge_None. rewrite length_insert. exact Ek.
    - left. apply list_lookup_insert_ne. congruence. }
  destruct Hcase as [->|(k & Hk & ->)].
  - split.
    + destruct (pr !! j) as [[]|], (progress aggctx !! j) as [[]|];
        cbn in Hpr; try discriminate Hpr; reflexivity.
    + rewrite Hpr. exact Hrange.
  - rewrite Hk in *. cbn [default] in *. unfold id in *. split.
    + destruct (pr !! j) as [[]|], (progress aggctx !! j) as [[]|];
        cbn in Hpr; try discriminate Hpr; try reflexivity;
        specialize (Hrange eq_refl);
        rewrite ecmult_gen_negate;
        apply qr_rep_neg, ecmult_gen_nonzero, Hrange.
    + rewrite Hpr. intros Hkn. apply negate_range, Hrange, Hkn.
Qed.

Lemma nonce_inv_partial_sign ctx aggctx partial msg key index aggctx' partial' ok :
  nonce_inv aggctx ->
  secp256k1_aggsig_partial_sign ctx aggctx partial msg key index
  = Returns (aggctx', partial', ok) ->
  nonce_inv aggctx'.
Proof.
  intros ((Hlp & Hlk & Hls) & Hrange & Hsum) Hs.
  assert (Hflip : forall pr,
            length pr = n_sigs aggctx ->
            (forall j, is_known (pr !! j) = is_known (progress aggctx !! j)) ->
            nonce_inv {| progress := pr; pubkeys := pubkeys aggctx;
                         secnonce := flipped_secnonce aggctx index;
                         pubnonce_sum := pubnonce_sum aggctx;
                         n_sigs := n_sigs aggctx; rng := rng aggctx |}).
  { intros pr Hl Hpr.
    pose proof (nonce_term_flipped aggctx pr index Hrange Hpr) as Ht.
    unfold nonce_inv, wf_session.
    cbn [progress pubkeys secnonce n_sigs pubnonce_sum].
    rewrite length_flipped_secnonce. split; [tauto|]. split.
    - intros j. apply (Ht j).
    - rewrite Hsum. apply point_sum_ext. intros j _. symmetry. apply (Ht j). }
  destruct ok.
  - apply partial_sign_success in Hs
      as (_ & Hlt & _ & Ho & prehash & e & x & _ & _ & _ & _ & ->).
    apply Hflip; [rewrite length_insert; exact Hlp|].
    intros j. destruct (decide (j = index)) as [->|Hne].
    + rewrite list_lookup_insert_eq by lia. rewrite Ho. reflexivity.
    + rewrite list_lookup_insert_ne by congruence. reflexivity.
  - apply partial_sign_failure in Hs as (_ & Hp & Hk & Hps & Hn & Hr & Hsn).
    destruct aggctx' as [pr' pk' sn' ps' n' r']. cbn in Hp, Hk, Hps, Hn, Hr, Hsn.
    subst pr' pk' ps' n' r'.
    destruct Hsn as [-> | ->].
    + destruct aggctx. exact (conj (conj Hlp (conj Hlk Hls)) (conj Hrange Hsum)).
    + apply Hflip; [exact Hlp | reflexivity].
Qed.

Definition not_combine (c : call) : bool :=
  match c with
  | CallCombine _ _ _ => false
  | _ => true
  end.

Lemma nonce_inv_run ctx calls : forall aggctx aggctx',
  forallb not_combine calls = true ->
  nonce_inv aggctx ->
  run ctx calls aggctx = Some aggctx' ->
  nonce_inv aggctx'.
Proof.
  induction calls as [|c calls IH]; intros aggctx aggctx' Hnc Hinv; cbn [run].
  - intros [= <-]. exact Hinv.
  - cbn [forallb] in Hnc. apply andb_true_iff in Hnc as [Hc Hnc].
    destruct (step ctx aggctx c) as [a|] eqn:Es; [|intros Hs; discriminate Hs].
    apply IH; [exact Hnc|].
    destruct c as [fuel index|partial msg key index|sig64 partial n|];
      cbn [step] in Es.
    + destruct (secp256k1_aggsig_generate_nonce fuel ctx aggctx index)
        as [[a1 ok]|] eqn:Eg; [|discriminate Es]. injection Es as <-.
      exact (nonce_inv_generate _ _ _ _ _ _ Hinv Eg).
    + destruct (secp256k1_aggsig_partial_sign ctx aggctx partial msg key index)
        as [[[a1 p1] ok]|] eqn:Ep; [|discriminate Es]. injection Es as <-.
      exact (nonce_inv_partial_sign _ _ _ _ _ _ _ _ _ Hinv Ep).
    + discriminate Hc.
    + discriminate Es.
Qed.

(** X14.  From a fresh session and through any calls of [generate_nonce] and
    [partial_sign], successful or not, [pubnonce_sum] is the sum over the
    indices whose nonce is generated of the quadratic-residue
    representative of [secnonce[j]*G], and every generated secret nonce is
    a non-zero scalar. *)
Theorem pubnonce_sum_invariant ctx pks n_pubkeys seed heap calls aggctx :
  (n_pubkeys <= length pks)%nat ->
  forallb not_combine calls = true ->
  run ctx calls (secp256k1_aggsig_context_create pks n_pubkeys seed heap)
  = Some aggctx ->
  pubnonce_sum aggctx = point_sum (nonce_term aggctx) (seq 0 n_pubkeys)
  /\ forall j k,
       (progress aggctx !! j = Some NONCE_PROGRESS_OURS
        \/ progress aggctx !! j = Some NONCE_PROGRESS_SIGNED) ->
       secnonce aggctx !! j = Some k -> 0 < k < order_n.
Proof.
  intros Hlen Hnc Hr.
  pose proof (nonce_inv_run ctx calls _ _ Hnc
                (nonce_inv_create pks n_pubkeys seed heap Hlen) Hr)
    as (_ & Hrange & Hsum).
  destruct (run_frame _ _ _ _ Hr) as (Hn & _).
  cbn [n_sigs secp256k1_aggsig_context_create] in Hn.
  rewrite Hn in Hsum. split; [exact Hsum|].
  intros j k Hj Hk. specialize (Hrange j). rewrite Hk in Hrange. cbn in Hrange.
  apply Hrange. destruct Hj as [-> | ->]; reflexivity.
Qed.

End Nonces.

(** *** What a partial signature is *)

Section Partials.
Context `{Prims : Primitives} {GLaws : GroupLaws}.

Local Notation "P ⊕ Q" := (secp256k1_gej_add_var P Q) (at level 50, left associativity).
Local Notation "⊖ P" := (secp256k1_gej_neg P) (at level 35, right associativity).

Lemma scalar_add_range a b : 0 <= secp256k1_scalar_add a b < order_n.
Proof.
  pose proof order_n_gt_1. unfold secp256k1_scalar_add.
  apply Z.mod_pos_bound. lia.
Qed.

Lemma be2Z_get_b32_full v :
  0 <= v < order_n -> Bytes.be2Z (secp256k1_scalar_get_b32 v) = v.
Proof.
  intros Hv. pose proof order_n_lt as Hn. unfold secp256k1_scalar_get_b32.
  apply Bytes.be2Z_Z2be_small. change (256 ^ Z.of_nat 32) with (2 ^ 256). lia.
Qed.

(** X15.  A partial signature satisfies the verification equation of its own
    signer: [s_i*G = e_i*(x_i*G) + k_i*G], with [x_i] the secret key,
    [e_i] the challenge of the index and [k_i] the secret nonce the
    session holds after the call. *)
Theorem partial_is_schnorr_share ctx aggctx partial msghash32 seckey32 index
    aggctx' partial' :
  secp256k1_aggsig_partial_sign ctx aggctx partial msghash32 seckey32 index
  = Returns (aggctx', partial', true) ->
  exists prehash,
    secp256k1_compute_prehash (pubkeys aggctx) (n_sigs aggctx)
      (qr_rep (pubnonce_sum aggctx)) msghash32 = Returns prehash
    /\ length partial' = 32%nat
    /\ Bytes.be2Z partial' < order_n
    /\ secp256k1_ecmult_gen (Bytes.be2Z partial')
       = ecmult (secp256k1_compute_sighash prehash index).1
           (secp256k1_ecmult_gen (Bytes.be2Z (take 32 seckey32)))
         ⊕ secp256k1_ecmult_gen (default 0 (secnonce aggctx' !! index)).
Proof.
  intros Hs.
  apply partial_sign_success in Hs
    as (_ & _ & _ & _ & prehash & e & x & Hp & He & Hx & -> & ->).
  exists prehash. split; [exact Hp|].
  split; [apply Bytes.length_Z2be|].
  cbn [secnonce]. rewrite He. cbn [fst].
  set (k := default 0 (flipped_secnonce aggctx index !! index)).
  pose proof (scalar_add_range (secp256k1_scalar_mul x e) k) as Hr.
  rewrite be2Z_get_b32_full by exact Hr.
  split; [lia|].
  unfold secp256k1_scalar_set_b32 in Hx. injection Hx as <- _.
  unfold secp256k1_ecmult_gen, secp256k1_scalar_add, secp256k1_scalar_mul.
  rewrite ecmult_mod, ecmult_add, ecmult_mod.
  rewrite Z.mul_comm, ecmult_mul, ecmult_mod. reflexivity.
Qed.

Lemma scalar_add_cancel a k k' :
  0 <= k < order_n -> 0 <= k' < order_n ->
  secp256k1_scalar_add a k = secp256k1_scalar_add a k' -> k = k'.
Proof.
  intros Hk Hk'. unfold secp256k1_scalar_add. intros HE.
  pose proof order_n_gt_1 as Hn.
  assert (Hd : (k - k') mod order_n = 0).
  { replace (k - k') with ((a + k) - (a + k')) by lia.
    rewrite Zminus_mod, HE, Z.sub_diag. apply Z.mod_0_l. lia. }
  apply Z.mod_divide in Hd; [|lia]. destruct Hd as [q Hq].
  assert (q = 0) by nia. lia.
Qed.

(** X16.  A call that fails on the secret key after the sign flip spoils the
    nonce for the next one: on a session whose [pubnonce_sum] lacks a
    quadratic-residue y, after a call with a secret key that is not below
    the group order, the call with the right key returns 1 with the
    partial [x*e + k], where a first call with that key returns
    [x*e - k]; the two differ. *)
Theorem partial_sign_retry_uses_unflipped_nonce ctx aggctx partial msghash32
    badkey32 seckey32 index prehash e k :
  ecmult_gen_ctx_built ctx = true ->
  (index < n_sigs aggctx)%nat ->
  (forall j, (j < n_sigs aggctx)%nat ->
     progress aggctx !! j <> Some NONCE_PROGRESS_UNKNOWN) ->
  progress aggctx !! index = Some NONCE_PROGRESS_OURS ->
  secp256k1_compute_prehash (pubkeys aggctx) (n_sigs aggctx)
    (qr_rep (pubnonce_sum aggctx)) msghash32 = Returns prehash ->
  secp256k1_compute_sighash prehash index = (e, true) ->
  secp256k1_gej_has_quad_y_var (pubnonce_sum aggctx) = false ->
  secnonce aggctx !! index = Some k -> 0 < k < order_n ->
  order_n <= Bytes.be2Z (take 32 badkey32) ->
  Bytes.be2Z (take 32 seckey32) < order_n ->
  let x := Bytes.be2Z (take 32 seckey32) mod order_n in
  let first_time :=
    secp256k1_scalar_get_b32
      (secp256k1_scalar_add (secp256k1_scalar_mul x e)
         (secp256k1_scalar_negate k)) in
  let retried :=
    secp256k1_scalar_get_b32
      (secp256k1_scalar_add (secp256k1_scalar_mul x e) k) in
  exists aggctx1 aggctx2 aggctx2',
    secp256k1_aggsig_partial_sign ctx aggctx partial msghash32 seckey32 index
    = Returns (aggctx2, first_time, true)
    /\ secp256k1_aggsig_partial_sign ctx aggctx partial msghash32 badkey32 index
       = Returns (aggctx1, partial, false)
    /\ secp256k1_aggsig_partial_sign ctx aggctx1 partial msghash32 seckey32 index
       = Returns (aggctx2', retried, true)
    /\ retried <> first_time.
Proof.
  intros Hb Hlt Hnu Ho Hp He Hq Hk Hkr Hbad Hgood x first_time retried.
  pose proof (no_unknown_any _ _ Hnu) as Hu.
  assert (Hx : secp256k1_scalar_set_b32 seckey32 = (x, false)).
  { unfold secp256k1_scalar_set_b32, x. f_equal. apply Z.leb_gt. exact Hgood. }
  assert (Hfl : flipped_secnonce aggctx index !! index
                = Some (secp256k1_scalar_negate k)).
  { unfold flipped_secnonce. rewrite Hq, Hk. cbn [default].
    apply list_lookup_insert_eq. apply lookup_lt_Some in Hk. exact Hk. }
  set (a1 := {| progress := progress aggctx; pubkeys := pubkeys aggctx;
                secnonce := flipped_secnonce aggctx index;
                pubnonce_sum := pubnonce_sum aggctx;
                n_sigs := n_sigs aggctx; rng := rng aggctx |}).
  assert (Hfl1 : flipped_secnonce a1 index !! index = Some k).
  { unfold flipped_secnonce at 1. cbn [a1 pubnonce_sum secnonce].
    rewrite Hq, Hfl. cbn [default]. unfold id.
    rewrite negate_negate by lia.
    apply list_lookup_insert_eq. apply lookup_lt_Some in Hfl. exact Hfl. }
  exists a1. eexists. eexists.
  split; [|split; [|split]].
  - rewrite (partial_sign_run1 ctx aggctx partial msghash32 seckey32 index
               prehash e x Hb Hlt Hu Ho Hp He Hx).
    rewrite Hfl. reflexivity.
  - apply (partial_sign_fails_late ctx aggctx partial msghash32 badkey32 index
             prehash Hb Hlt Hu Ho Hp).
    right. exact Hbad.
  - rewrite (partial_sign_run1 ctx a1 partial msghash32 seckey32 index
               prehash e x Hb Hlt Hu Ho Hp He Hx).
    rewrite Hfl1. reflexivity.
  - unfold retried, first_time. intros HE.
    apply (f_equal Bytes.be2Z) in HE.
    rewrite !be2Z_get_b32_full in HE by apply scalar_add_range.
    apply scalar_add_cancel in HE;
      [| lia | pose proof (negate_range k Hkr); lia].
    symmetry in HE. exact (negate_moves k Hkr HE).
Qed.

Lemma compute_prehash_aborts pks n_pubkeys R msg32 :
  R <> infinity ->
  match secp256k1_compute_prehash pks n_pubkeys R msg32 with
  | Aborts => Exists (fun P => P = infinity) (take n_pubkeys pks)
  | Returns _ => Forall (fun P => P <> infinity) (take n_pubkeys pks)
  end.
Proof.
  intros HR. unfold secp256k1_compute_prehash.
  pose proof (prehash_pubkeys_outcome (take n_pubkeys pks)
                secp256k1_sha256_initialize) as Hp.
  destruct (prehash_pubkeys (take n_pubkeys pks) secp256k1_sha256_initialize)
    as [h|]; cbn [obind].
  - destruct (secp256k1_eckey_pubkey_serialize R) as [buf|] eqn:E.
    + destruct Hp as [Hall _]. eapply Forall_impl; [exact Hall|].
      intros P HP ->. apply HP. apply serialize_infinity. reflexivity.
    + apply serialize_infinity in E. contradiction.
  - eapply Exists_impl; [exact Hp|].
    intros P HP. apply serialize_infinity. exact HP.
Qed.

(** X17.  [partial_sign] does not return exactly when the gates are passed and
    one of the roster keys or [pubnonce_sum] is the point at infinity: the
    [CHECK] on the serialisation in the prehash aborts. *)
Theorem partial_sign_aborts_iff ctx aggctx partial msghash32 seckey32 index :
  secp256k1_aggsig_partial_sign ctx aggctx partial msghash32 seckey32 index
  = Aborts
  <-> ecmult_gen_ctx_built ctx = true
      /\ (index < n_sigs aggctx)%nat
      /\ (forall j, (j < n_sigs aggctx)%nat ->
            progress aggctx !! j <> Some NONCE_PROGRESS_UNKNOWN)
      /\ progress aggctx !! index = Some NONCE_PROGRESS_OURS
      /\ (Exists (fun P => P = infinity) (take (n_sigs aggctx) (pubkeys aggctx))
          \/ pubnonce_sum aggctx = infinity).
Proof.
  unfold secp256k1_aggsig_partial_sign.
  destruct (ecmult_gen_ctx_built ctx); cbn [negb];
    [|split; [discriminate | intros (Hf & _); discriminate Hf]].
  destruct (Nat.ltb_spec index (n_sigs aggctx)) as [Hlt|Hge]; cbn [negb];
    [|split; [discriminate | intros (_ & Hf & _); lia]].
  destruct (any_unknown (take (n_sigs aggctx) (progress aggctx))) eqn:Hu.
  { split; [discriminate|]. intros (_ & _ & Hf & _).
    apply any_unknown_take in Hu as (j & Hj & Hj'). exfalso. exact (Hf j Hj Hj'). }
  assert (Hnu : forall j, (j < n_sigs aggctx)%nat ->
            progress aggctx !! j <> Some NONCE_PROGRESS_UNKNOWN).
  { intros j Hj Hj'.
    assert (any_unknown (take (n_sigs aggctx) (progress aggctx)) = true)
      by (apply any_unknown_take; exists j; split; assumption).
    congruence. }
  destruct (progress aggctx !! index) as [[]|] eqn:Ho;
    try (split; [discriminate | intros (_ & _ & _ & Hf & _); discriminate Hf]).
  cbv zeta. rewrite qr_rep_flip.
  destruct (decide (pubnonce_sum aggctx = infinity)) as [HS|HS].
  - assert (HE : secp256k1_compute_prehash (pubkeys aggctx) (n_sigs aggctx)
                   (qr_rep (pubnonce_sum aggctx)) msghash32 = Aborts).
    { unfold secp256k1_compute_prehash.
      destruct (prehash_pubkeys _ _); cbn [obind]; [|reflexivity].
      rewrite (proj2 (serialize_infinity (qr_rep (pubnonce_sum aggctx))));
        [reflexivity|].
      apply qr_rep_infinity. exact HS. }
    rewrite HE. cbn [obind]. split; [|reflexivity].
    intros _. repeat split; try assumption. right. exact HS.
  - pose proof (compute_prehash_aborts (pubkeys aggctx) (n_sigs aggctx)
                  (qr_rep (pubnonce_sum aggctx)) msghash32) as Hpre.
    destruct (secp256k1_compute_prehash _ _ _ _) as [prehash|]; cbn [obind].
    + split.
      * destruct (secp256k1_compute_sighash prehash index) as [e ok].
        destruct (negb ok); [discriminate|].
        destruct (secp256k1_scalar_set_b32 seckey32) as [x ov].
        destruct ov; discriminate.
      * intros (_ & _ & _ & _ & [Hex|Hinf]); [|contradiction]. exfalso.
        specialize (Hpre (fun H0 => HS (proj1 (qr_rep_infinity _) H0))).
        apply Exists_exists in Hex as (P & HP & HPinf).
        exact (proj1 (Forall_forall _ _) Hpre P HP HPinf).
    + split; [|reflexivity]. intros _.
      repeat split; try assumption. left.
      apply Hpre. exact (fun H0 => HS (proj1 (qr_rep_infinity _) H0)).
Qed.

(** *** The signature [combine] writes *)

(** X18.  When [pubnonce_sum] is not the point at infinity, the signature that
    [combine] writes passes the parsers of [verify]: its first half is a
    scalar below the order, its second half a field element below the
    characteristic, from which [secp256k1_ge_set_xquad] recovers exactly
    the [pubnonce_sum] that [combine] has left in the session. *)
Theorem combine_output_parses ctx aggctx sig64 (partial : list (list byte)) n
    aggctx' sig64' :
  pubnonce_sum aggctx <> infinity ->
  secp256k1_aggsig_combine_signatures ctx aggctx sig64 partial n
  = (aggctx', sig64', true) ->
  length sig64' = 64%nat
  /\ secp256k1_scalar_set_b32 sig64'
     = (Zsum (map (fun p => Bytes.be2Z (take 32 p)) (take n partial)) mod order_n,
        false)
  /\ secp256k1_fe_set_b32 (drop 32 sig64') = Some (ge_x (pubnonce_sum aggctx'))
  /\ secp256k1_ge_set_xquad (ge_x (pubnonce_sum aggctx'))
     = Some (pubnonce_sum aggctx').
Proof.
  intros HS. rewrite combine_unfold.
  pose proof order_n_gt_1 as Hn1. pose proof order_n_lt as Hn2.
  pose proof field_p_lt as Hp2.
  destruct (_ && _); [|intros Hc; discriminate Hc].
  intros Hc.
  pose proof (f_equal (fun r => r.1.1) Hc) as Ha.
  pose proof (f_equal (fun r => r.1.2) Hc) as Hs.
  cbn [fst snd] in Ha, Hs. subst aggctx' sig64'. clear Hc.
  cbn [pubnonce_sum].
  set (X := Zsum _).
  assert (HX : 0 <= X mod order_n < order_n) by (apply Z.mod_pos_bound; lia).
  pose proof (ge_x_range (qr_rep (pubnonce_sum aggctx))) as Hx.
  unfold secp256k1_fe_normalize_var. rewrite (Z.mod_small (ge_x _)) by exact Hx.
  split; [rewrite length_app, !Bytes.length_Z2be; reflexivity|].
  split.
  { unfold secp256k1_scalar_set_b32.
    rewrite take_app_length' by (rewrite Bytes.length_Z2be; reflexivity).
    rewrite Bytes.be2Z_Z2be_small
      by (change (256 ^ Z.of_nat 32) with (2 ^ 256); lia).
    rewrite Z.mod_mod by lia. f_equal. apply Z.leb_gt. lia. }
  split.
  { unfold secp256k1_fe_set_b32.
    rewrite drop_app_length' by (rewrite Bytes.length_Z2be; reflexivity).
    rewrite firstn_all2 by (rewrite Bytes.length_Z2be; lia).
    rewrite Bytes.be2Z_Z2be_small
      by (change (256 ^ Z.of_nat 32) with (2 ^ 256); lia).
    destruct (Z.ltb_spec (ge_x (qr_rep (pubnonce_sum aggctx))) field_p);
      [reflexivity | lia]. }
  apply set_xquad_complete.
  - exact (fun H0 => HS (proj1 (qr_rep_infinity _) H0)).
  - apply qr_rep_has_quad_y. exact HS.
Qed.

End Partials.

(** *** The endomorphism split *)

Section Endo.
Context `{Prims : Primitives} {GLaws : GroupLaws} {ELaws : EndoLaws}.

Local Notation "P ⊕ Q" := (secp256k1_gej_add_var P Q) (at level 50, left associativity).
Local Notation "⊖ P" := (secp256k1_gej_neg P) (at level 35, right associativity).

(** X19.  [secp256k1_aggsig_endo_split] replaces [s*P] by two products with the
    same sum: the first point is [P] or [-P], the second is [lambda*P] or
    its negation, and a point is negated exactly when the half of the
    scalar that goes with it is high, in which case that half is negated
    too. *)
Theorem endo_split_spec s P :
  USE_ENDOMORPHISM = true ->
  let '(s1, s2, p1, p2) := secp256k1_aggsig_endo_split s P in
  let '(r1, r2) := secp256k1_scalar_split_lambda s in
  ecmult s1 p1 ⊕ ecmult s2 p2 = ecmult s P
  /\ (s1, p1) = (if secp256k1_scalar_is_high r1
                 then (secp256k1_scalar_negate r1, ⊖ P) else (r1, P))
  /\ (s2, p2) = (if secp256k1_scalar_is_high r2
                 then (secp256k1_scalar_negate r2, ⊖ secp256k1_gej_mul_lambda P)
                 else (r2, secp256k1_gej_mul_lambda P)).
Proof.
  intros Hendo. unfold secp256k1_aggsig_endo_split.
  pose proof (split_lambda_sound Hendo s P) as Hsplit.
  destruct (secp256k1_scalar_split_lambda s) as [r1 r2]. cbn [fst snd] in Hsplit.
  destruct (secp256k1_scalar_is_high r1), (secp256k1_scalar_is_high r2);
    (split; [rewrite ?ecmult_negate_neg; exact Hsplit | split; reflexivity]).
Qed.

End Endo.

(** *** More on [verify] *)

Section VerifyMore.
Context `{Prims : Primitives} {GLaws : GroupLaws} {ELaws : EndoLaws}.

Local Notation "P ⊕ Q" := (secp256k1_gej_add_var P Q) (at level 50, left associativity).
Local Notation "⊖ P" := (secp256k1_gej_neg P) (at level 35, right associativity).

(** X20.  The scratch arrays [sc] and [pt] are written before they are read:
    what they hold on entry has no influence on the result. *)
Theorem verify_scratch_independent ctx sig64 msg32 pks n_pubkeys
    sc0 pt0 sc0' pt0' :
  length pks = n_pubkeys ->
  Forall (fun P => P <> infinity) pks ->
  length sig64 = 64%nat ->
  length sc0 = Pos.to_nat SECP256K1_ECMULT_MULTI_MAX_N ->
  length pt0 = Pos.to_nat SECP256K1_ECMULT_MULTI_MAX_N ->
  length sc0' = Pos.to_nat SECP256K1_ECMULT_MULTI_MAX_N ->
  length pt0' = Pos.to_nat SECP256K1_ECMULT_MULTI_MAX_N ->
  secp256k1_aggsig_verify ctx sig64 msg32 pks n_pubkeys sc0' pt0'
  = secp256k1_aggsig_verify ctx sig64 msg32 pks n_pubkeys sc0 pt0.
Proof.
  intros Hlen Hv H64 Hsc Hpt Hsc' Hpt'.
  rewrite (verify_unfold ctx sig64 msg32 pks n_pubkeys sc0 pt0
             Hlen Hv H64 Hsc Hpt).
  rewrite (verify_unfold ctx sig64 msg32 pks n_pubkeys sc0' pt0'
             Hlen Hv H64 Hsc' Hpt').
  reflexivity.
Qed.

(** X21.  [verify] does not return exactly when the signature parses, on a
    roster that is not empty, and one of the keys is the point at
    infinity: the [CHECK] on the serialisation in the prehash aborts.  A
    signature that does not parse is rejected before the keys are looked
    at. *)
Theorem verify_aborts_iff ctx sig64 msg32 pks n_pubkeys sc0 pt0 :
  secp256k1_aggsig_verify ctx sig64 msg32 pks n_pubkeys sc0 pt0 = Aborts
  <-> n_pubkeys <> 0%nat
      /\ Bytes.be2Z (take 32 sig64) < order_n
      /\ Bytes.be2Z (take 32 (drop 32 sig64)) < field_p
      /\ secp256k1_ge_set_xquad (Bytes.be2Z (take 32 (drop 32 sig64))) <> None
      /\ Exists (fun P => P = infinity) (take n_pubkeys pks).
Proof.
  unfold secp256k1_aggsig_verify.
  destruct (Nat.eqb_spec n_pubkeys 0) as [HN|HN];
    [split; [discriminate | intros (Hf & _); contradiction]|].
  unfold secp256k1_scalar_set_b32.
  destruct (Z.leb_spec order_n (Bytes.be2Z (take 32 sig64))) as [Hs|Hs];
    [split; [discriminate | intros (_ & Hf & _); lia]|].
  unfold secp256k1_fe_set_b32.
  destruct (Z.ltb_spec (Bytes.be2Z (take 32 (drop 32 sig64))) field_p)
    as [Hx|Hx]; [|split; [discriminate | intros (_ & _ & Hf & _); lia]].
  destruct (secp256k1_ge_set_xquad _) as [R|] eqn:ER;
    [|split; [discriminate | intros (_ & _ & _ & Hf & _); contradiction]].
  destruct (set_xquad_sound _ _ ER) as (HR & _).
  pose proof (compute_prehash_aborts pks n_pubkeys R msg32 HR) as Hpre.
  destruct (secp256k1_compute_prehash pks n_pubkeys R msg32) as [prehash|];
    cbn [obind].
  - split.
    + intros Hab. exfalso. revert Hab.
      destruct USE_ENDOMORPHISM eqn:Hendo.
      * pose proof (endo_capacity Hendo) as [a Ha].
        pose proof (Pos2Nat.is_pos SECP256K1_ECMULT_MULTI_MAX_N) as HM.
        destruct (Nat.ltb_spec (Pos.to_nat SECP256K1_ECMULT_MULTI_MAX_N) 2)
          as [Hlt|Hge]; [lia|].
        destruct (secp256k1_aggsig_endo_split _ _) as [[[s1 s2] p1] p2].
        cbn [obind]. destruct (verify_loop_endo _ _ _ _ _ _ _ _); discriminate.
      * cbn [obind]. destruct (verify_loop _ _ _ _ _ _ _ _); discriminate.
    + intros (_ & _ & _ & _ & Hex). exfalso.
      apply Exists_exists in Hex as (P & HP & HPinf).
      exact (proj1 (Forall_forall _ _) Hpre P HP HPinf).
  - split; [|reflexivity]. intros _.
    repeat split; try assumption. discriminate.
Qed.

Lemma ecmult_gen_inj a b :
  0 <= a < order_n -> 0 <= b < order_n ->
  secp256k1_ecmult_gen a = secp256k1_ecmult_gen b -> a = b.
Proof.
  intros Ha Hb HE. pose proof order_n_gt_1 as Hn.
  assert (H0 : ecmult ((a - b) mod order_n) secp256k1_ge_const_g = infinity).
  { rewrite ecmult_mod. replace (a - b) with (a + - b) by lia.
    rewrite ecmult_add, ecmult_opp.
    unfold secp256k1_ecmult_gen in HE. rewrite HE. apply add_neg_r. }
  destruct (Z.eq_dec ((a - b) mod order_n) 0) as [Hz|Hnz].
  - apply Z.mod_divide in Hz; [|lia]. destruct Hz as [q Hq].
    assert (q = 0) by nia. lia.
  - exfalso. apply (generator_order ((a - b) mod order_n)); [|exact H0].
    assert (Hpos : 0 < order_n) by lia.
    pose proof (Z.mod_pos_bound (a - b) order_n Hpos) as Hm.
    revert Hnz Hm. generalize ((a - b) mod order_n). intros m Hnz Hm. lia.
Qed.

(** X22.  For a message, a roster and the second half of a signature, at most
    one first half is accepted: two signatures that [verify] accepts and
    that agree on bytes 32..63 are the same 64 bytes. *)
Theorem verify_accepts_one_s ctx sig64 sig64' msg32 pks n_pubkeys sc0 pt0 :
  length pks = n_pubkeys ->
  Forall (fun P => P <> infinity) pks ->
  length sig64 = 64%nat -> length sig64' = 64%nat ->
  length sc0 = Pos.to_nat SECP256K1_ECMULT_MULTI_MAX_N ->
  length pt0 = Pos.to_nat SECP256K1_ECMULT_MULTI_MAX_N ->
  drop 32 sig64' = drop 32 sig64 ->
  secp256k1_aggsig_verify ctx sig64 msg32 pks n_pubkeys sc0 pt0 = Returns true ->
  secp256k1_aggsig_verify ctx sig64' msg32 pks n_pubkeys sc0 pt0 = Returns true ->
  sig64' = sig64.
Proof.
  intros Hlen Hv H64 H64' Hsc Hpt Hdrop H1 H2.
  rewrite (verify_unfold ctx sig64 msg32 pks n_pubkeys sc0 pt0
             Hlen Hv H64 Hsc Hpt) in H1.
  rewrite (verify_unfold ctx sig64' msg32 pks n_pubkeys sc0 pt0
             Hlen Hv H64' Hsc Hpt) in H2.
  cbv zeta in H1, H2. rewrite Hdrop in H2.
  destruct (n_pubkeys =? 0)%nat; [discriminate H1|].
  destruct (Z.leb_spec order_n (Bytes.be2Z (take 32 sig64))) as [|Hs];
    [discriminate H1|].
  destruct (Z.leb_spec order_n (Bytes.be2Z (take 32 sig64'))) as [|Hs'];
    [discriminate H2|].
  destruct (Bytes.be2Z (drop 32 sig64) <? field_p); [|discriminate H1].
  destruct (secp256k1_ge_set_xquad _) as [R|]; [|discriminate H1].
  destruct (forallb _ _); [|discriminate H1].
  injection H1 as H1. injection H2 as H2.
  apply bool_decide_eq_true in H1, H2.
  pose proof (eq_trans H2 (eq_sym H1)) as HE. clear H1 H2.
  rewrite (add_comm (ecmult (Bytes.be2Z (take 32 sig64')) _)),
          (add_comm (ecmult (Bytes.be2Z (take 32 sig64)) _)) in HE.
  apply add_cancel_l in HE. rename HE into H2.
  pose proof (Bytes.be2Z_range (take 32 sig64)) as Hr.
  pose proof (Bytes.be2Z_range (take 32 sig64')) as Hr'.
  apply ecmult_gen_inj in H2; [|lia..].
  rewrite <- (take_drop 32 sig64), <- (take_drop 32 sig64'), Hdrop.
  f_equal.
  rewrite <- (Bytes.Z2be_be2Z (take 32 sig64)),
          <- (Bytes.Z2be_be2Z (take 32 sig64')).
  rewrite H2, !length_take, H64, H64'. reflexivity.
Qed.

End VerifyMore.

(** *** [secp256k1_aggsig_context_destroy] *)

Section Destroy.
Context `{Prims : Primitives}.

(** [memset(p, 0, n * sizeof( *p))] on an array: the first [n] entries
    become the value whose bytes are all zero. *)
Definition memset_zero {A} (zero : A) (l : list A) (n : nat) : list A :=
  replicate (Nat.min n (length l)) zero ++ drop n l.

(** The memory of a session as the calls of [free] receive it.  A key
    whose 64 bytes are zero is no group element: it is [None]. *)
Record released_session := {
  released_pubkeys : list (option point);
  released_secnonce : list Z;
  released_progress : list nonce_progress;
  released_pubnonce_sum : point;
  released_n_sigs : nat;
  released_rng : secp256k1_rfc6979_hmac_sha256_t
}.

(** [aggctx] is [None] for the NULL pointer, on which the function
    returns at once.  [secp256k1_rfc6979_hmac_sha256_finalize] (hash.h) is
    taken as an argument. *)
Definition secp256k1_aggsig_context_destroy
    (secp256k1_rfc6979_hmac_sha256_finalize :
       secp256k1_rfc6979_hmac_sha256_t -> secp256k1_rfc6979_hmac_sha256_t)
    (aggctx : option secp256k1_aggsig_context) : option released_session :=
  match aggctx with
  | None => None
  | Some aggctx =>
      let pubkeys := memset_zero None (map Some (pubkeys aggctx)) (n_sigs aggctx) in
      let secnonce := memset_zero 0 (secnonce aggctx) (n_sigs aggctx) in
      let progress :=
        memset_zero NONCE_PROGRESS_UNKNOWN (progress aggctx) (n_sigs aggctx) in
      Some {| released_pubkeys := pubkeys;
              released_secnonce := secnonce;
              released_progress := progress;
              released_pubnonce_sum := pubnonce_sum aggctx;
              released_n_sigs := n_sigs aggctx;
              released_rng :=
                secp256k1_rfc6979_hmac_sha256_finalize (rng aggctx) |}
  end.

Lemma memset_zero_all {A} (zero : A) l n :
  length l = n -> memset_zero zero l n = replicate n zero.
Proof.
  intros <-. unfold memset_zero.
  rewrite Nat.min_id, drop_all, app_nil_r. reflexivity.
Qed.

(** X23.  Whatever calls a session has gone through since it was created,
    [destroy] hands to [free] three arrays of [n_pubkeys] entries in which
    every secret nonce is zero, every key is zero and every progress entry
    is UNKNOWN; [pubnonce_sum] is released as it is. *)
Theorem destroy_zeroes_arrays finalize ctx pks n_pubkeys seed heap calls aggctx :
  (n_pubkeys <= length pks)%nat ->
  run ctx calls (secp256k1_aggsig_context_create pks n_pubkeys seed heap)
  = Some aggctx ->
  exists r,
    secp256k1_aggsig_context_destroy finalize (Some aggctx) = Some r
    /\ released_secnonce r = replicate n_pubkeys 0
    /\ released_pubkeys r = replicate n_pubkeys None
    /\ released_progress r = replicate n_pubkeys NONCE_PROGRESS_UNKNOWN
    /\ released_pubnonce_sum r = pubnonce_sum aggctx
    /\ released_rng r = finalize (rng aggctx).
Proof.
  intros Hlen Hr.
  destruct (run_frame _ _ _ _ Hr) as (Hn & Hp & Hlp & Hls).
  cbn [secp256k1_aggsig_context_create n_sigs pubkeys progress secnonce]
    in Hn, Hp, Hlp, Hls.
  rewrite length_replicate in Hlp. rewrite length_map, length_seq in Hls.
  eexists. split; [reflexivity|].
  cbn [released_secnonce released_pubkeys released_progress
       released_pubnonce_sum released_rng].
  rewrite Hn.
  rewrite (memset_zero_all 0) by exact Hls.
  rewrite (memset_zero_all None) by (rewrite length_map, Hp, length_take; lia).
  rewrite (memset_zero_all NONCE_PROGRESS_UNKNOWN) by exact Hlp.
  tauto.
Qed.

End Destroy.

(** *** When the signature of a signing phase verifies *)

Section SignAny.
Context `{Prims : Primitives} {GLaws : GroupLaws} {ELaws : EndoLaws}.
Variables (ctx : secp256k1_context) (msg32 : list byte)
          (seckeys : list (list byte)).
Variables (aggctx1 : secp256k1_aggsig_context) (prehash : list byte).

Local Notation "P ⊕ Q" := (secp256k1_gej_add_var P Q) (at level 50, left associativity).
Local Notation "⊖ P" := (secp256k1_gej_neg P) (at level 35, right associativity).

Hypothesis Hbuilt : ecmult_gen_ctx_built ctx = true.
Hypothesis Hwf : wf_session aggctx1.
Hypothesis Hours : forall j, (j < n_sigs aggctx1)%nat ->
  progress aggctx1 !! j = Some NONCE_PROGRESS_OURS.
Hypothesis Hprehash :
  secp256k1_compute_prehash (pubkeys aggctx1) (n_sigs aggctx1)
    (qr_rep (pubnonce_sum aggctx1)) msg32 = Returns prehash.

Lemma sign_inv_all_ours : sign_inv aggctx1 0 aggctx1.
Proof.
  destruct Hwf as (Hlp & _ & _).
  unfold sign_inv.
  split; [reflexivity|]. split; [reflexivity|]. split; [reflexivity|].
  split; [exact Hlp|]. split.
  - intros j Hj. rewrite bool_decide_eq_false_2 by lia. apply Hours. exact Hj.
  - intros j. rewrite bool_decide_eq_false_2 by lia.
    destruct (secnonce aggctx1 !! j); reflexivity.
Qed.

Lemma sign_inv_no_unknown i a :
  sign_inv aggctx1 i a ->
  any_unknown (take (n_sigs a) (progress a)) = false.
Proof.
  intros (Hn & _ & _ & _ & Hp & _). apply no_unknown_any.
  intros j Hj. rewrite Hn in Hj. rewrite (Hp j Hj).
  destruct (bool_decide _); discriminate.
Qed.

Lemma sign_inv_step i a partial :
  sign_inv aggctx1 i a -> (i < n_sigs aggctx1)%nat ->
  challenge_ok prehash i = true ->
  (secp256k1_scalar_set_b32 (seckey_at seckeys i)).2 = false ->
  exists a',
    secp256k1_aggsig_partial_sign ctx a partial msg32 (seckey_at seckeys i) i
    = Returns (a', secp256k1_scalar_get_b32
                     (partial_value seckeys aggctx1 prehash i), true)
    /\ sign_inv aggctx1 (S i) a'.
Proof.
  intros Hinv Hi Hok Hkey.
  pose proof (sign_inv_no_unknown i a Hinv) as Hu.
  destruct Hinv as (Hn & Hpk & Hsum & Hlp & Hp & Hs).
  destruct Hwf as (_ & _ & Hls1).
  assert (Hc : secnonce aggctx1 !! i = Some (nonce_at aggctx1 i)).
  { unfold nonce_at.
    destruct (secnonce aggctx1 !! i) eqn:E; [reflexivity|].
    apply lookup_ge_None in E. lia. }
  assert (Hsi : secnonce a !! i = Some (nonce_at aggctx1 i)).
  { rewrite Hs, Hc, bool_decide_eq_false_2 by lia. reflexivity. }
  pose proof (lookup_lt_Some _ _ _ Hsi) as Hlsa.
  assert (Hflip : forall j, flipped_secnonce a i !! j
                  = if decide (j = i)
                    then Some (flip_nonce aggctx1 (nonce_at aggctx1 i))
                    else secnonce a !! j).
  { intros j. unfold flipped_secnonce, flip_nonce. rewrite Hsum, Hsi.
    cbn [default].
    destruct (secp256k1_gej_has_quad_y_var (pubnonce_sum aggctx1)).
    - destruct (decide (j = i)) as [->|]; [exact Hsi | reflexivity].
    - destruct (decide (j = i)) as [->|].
      + apply list_lookup_insert_eq. exact Hlsa.
      + apply list_lookup_insert_ne. congruence. }
  unfold challenge_ok in Hok.
  destruct (secp256k1_compute_sighash prehash i) as [e ok] eqn:Ee.
  cbn [snd] in Hok. subst ok.
  destruct (secp256k1_scalar_set_b32 (seckey_at seckeys i)) as [x ov] eqn:Ex.
  cbn [snd] in Hkey. subst ov.
  eexists. split.
  - rewrite (partial_sign_run1 ctx a partial msg32 (seckey_at seckeys i) i
               prehash e x Hbuilt);
      [| lia | exact Hu
       | rewrite (Hp i Hi), bool_decide_eq_false_2 by lia; reflexivity
       | rewrite Hpk, Hn, Hsum; exact Hprehash | exact Ee | exact Ex].
    unfold partial_value, seckey_scalar. rewrite Ex, Ee. cbn [fst].
    pose proof (Hflip i) as Hfi. rewrite decide_True in Hfi by reflexivity.
    rewrite Hfi. reflexivity.
  - unfold sign_inv. cbn [n_sigs pubkeys pubnonce_sum progress secnonce].
    rewrite length_insert.
    split; [exact Hn|]. split; [exact Hpk|]. split; [exact Hsum|].
    split; [exact Hlp|]. split.
    + intros j Hj. destruct (decide (j = i)) as [->|Hji].
      * rewrite list_lookup_insert_eq, bool_decide_eq_true_2 by lia.
        reflexivity.
      * rewrite list_lookup_insert_ne, (Hp j Hj) by congruence.
        destruct (decide (j < i)%nat).
        -- rewrite !bool_decide_eq_true_2 by lia. reflexivity.
        -- rewrite !bool_decide_eq_false_2 by lia. reflexivity.
    + intros j. rewrite Hflip. destruct (decide (j = i)) as [->|Hji].
      * rewrite Hc, bool_decide_eq_true_2 by lia. reflexivity.
      * rewrite Hs. destruct (decide (j < i)%nat).
        -- rewrite !bool_decide_eq_true_2 by lia. reflexivity.
        -- rewrite !bool_decide_eq_false_2 by lia. reflexivity.
Qed.

Lemma sign_inv_run m : forall i a,
  sign_inv aggctx1 i a -> (i + m = n_sigs aggctx1)%nat ->
  (forall j, (i <= j < n_sigs aggctx1)%nat ->
     challenge_ok prehash j = true
     /\ (secp256k1_scalar_set_b32 (seckey_at seckeys j)).2 = false) ->
  exists a',
    partial_sign_all ctx a msg32 seckeys (seq i m)
    = Some (a', map (fun j => secp256k1_scalar_get_b32
                                (partial_value seckeys aggctx1 prehash j))
                    (seq i m))
    /\ sign_inv aggctx1 (i + m) a'.
Proof.
  induction m as [|m IH]; intros i a Hinv Him Hok; cbn [seq partial_sign_all map].
  - exists a. rewrite Nat.add_0_r. split; [reflexivity | exact Hinv].
  - destruct (Hok i ltac:(lia)) as (Hoki & Hkeyi).
    destruct (sign_inv_step i a (replicate 32 x00) Hinv ltac:(lia) Hoki Hkeyi)
      as (a1 & -> & Hinv1).
    destruct (IH (S i) a1 Hinv1 ltac:(lia)) as (a' & -> & Hinv').
    { intros j Hj. apply Hok. lia. }
    exists a'. split; [reflexivity|].
    replace (i + S m)%nat with (S i + m)%nat by lia. exact Hinv'.
Qed.

Lemma flip_point_inj P Q :
  flip_point aggctx1 P = flip_point aggctx1 Q <-> P = Q.
Proof.
  unfold flip_point.
  destruct (secp256k1_gej_has_quad_y_var (pubnonce_sum aggctx1)); [tauto|].
  split; [|intros ->; reflexivity].
  intros HE. rewrite <- (neg_neg P), <- (neg_neg Q), HE. reflexivity.
Qed.

Lemma combine_verifies_iff a2 :
  sign_inv aggctx1 (n_sigs aggctx1) a2 ->
  n_sigs aggctx1 <> 0%nat ->
  pubnonce_sum aggctx1 <> infinity ->
  (forall j, (j < n_sigs aggctx1)%nat ->
     challenge_ok prehash j = true
     /\ pubkey_at (pubkeys aggctx1) j
        = secp256k1_ecmult_gen (seckey_scalar seckeys j)) ->
  exists a3 sig64,
    combine_all ctx a2
      (map (fun j => secp256k1_scalar_get_b32
                       (partial_value seckeys aggctx1 prehash j))
           (seq 0 (n_sigs aggctx1)))
    = Some (a3, sig64)
    /\ length sig64 = 64%nat
    /\ forall sc0 pt0,
         length sc0 = Pos.to_nat SECP256K1_ECMULT_MULTI_MAX_N ->
         length pt0 = Pos.to_nat SECP256K1_ECMULT_MULTI_MAX_N ->
         secp256k1_aggsig_verify ctx sig64 msg32 (pubkeys aggctx1)
           (n_sigs aggctx1) sc0 pt0
         = Returns (bool_decide
                      (psum (map secp256k1_ecmult_gen (secnonce aggctx1))
                       = pubnonce_sum aggctx1)).
Proof.
  intros (Hn & Hpk & Hsum & _) HN HS0 Hj.
  destruct Hwf as (_ & Hlpk & Hls1).
  destruct (compute_prehash_returns _ _ _ _ _ Hprehash) as (Hvalid & HR).
  rewrite firstn_all2 in Hvalid by lia.
  pose proof order_n_gt_1 as Hn1. pose proof order_n_lt as Hn2.
  pose proof field_p_lt as Hp2.
  set (N := n_sigs aggctx1) in *.
  set (R := qr_rep (pubnonce_sum aggctx1)) in *.
  set (pv := partial_value seckeys aggctx1 prehash).
  set (X := Zsum (map pv (seq 0 N))).
  assert (Hcomb : combine_all ctx a2
            (map (fun j => secp256k1_scalar_get_b32 (pv j)) (seq 0 N))
          = Some ({| progress := progress a2; pubkeys := pubkeys a2;
                     secnonce := secnonce a2; pubnonce_sum := R;
                     n_sigs := n_sigs a2; rng := rng a2 |},
                  Bytes.Z2be 32 (X mod order_n) ++ Bytes.Z2be 32 (ge_x R))).
  { unfold combine_all. rewrite combine_unfold.
    rewrite length_map, length_seq, Hn, Nat.eqb_refl. cbn [andb].
    rewrite firstn_all2 by (rewrite length_map, length_seq; lia).
    rewrite (proj2 (forallb_forall _ _)).
    2:{ intros p Hp. apply in_map_iff in Hp as (j & <- & _).
        rewrite be2Z_get_b32 by apply partial_value_range.
        apply Z.ltb_lt. apply partial_value_range. }
    rewrite map_map.
    rewrite (map_ext _ pv)
      by (intros j; apply be2Z_get_b32, partial_value_range).
    rewrite Hsum. fold R. fold X.
    unfold secp256k1_fe_normalize_var.
    rewrite (Z.mod_small (ge_x R)) by apply ge_x_range. reflexivity. }
  eexists _, _. split; [exact Hcomb|].
  split; [rewrite length_app, !Bytes.length_Z2be; reflexivity|].
  intros sc0 pt0 Hsc Hpt.
  assert (HXr : 0 <= X mod order_n < order_n) by (apply Z.mod_pos_bound; lia).
  rewrite (verify_unfold ctx _ msg32 (pubkeys aggctx1) N sc0 pt0 Hlpk Hvalid)
    by first [exact Hsc | exact Hpt
             | rewrite length_app, !Bytes.length_Z2be; reflexivity].
  cbv zeta.
  rewrite take_app_length' by (rewrite Bytes.length_Z2be; reflexivity).
  rewrite drop_app_length' by (rewrite Bytes.length_Z2be; reflexivity).
  rewrite !Bytes.be2Z_Z2be_small.
  2:{ pose proof (ge_x_range R). change (256 ^ Z.of_nat 32) with (2 ^ 256). lia. }
  2:{ change (256 ^ Z.of_nat 32) with (2 ^ 256). lia. }
  destruct (Nat.eqb_spec N 0) as [HN0|_]; [contradiction|].
  destruct (Z.leb_spec order_n (X mod order_n)) as [Hhigh|_]; [lia|].
  destruct (Z.ltb_spec (ge_x R) field_p) as [_|Hbig];
    [|pose proof (ge_x_range R); lia].
  rewrite (set_xquad_complete R HR (qr_rep_has_quad_y _ HS0)).
  pose proof (compute_prehash_spec (pubkeys aggctx1) N R msg32 Hlpk Hvalid HR)
    as Hpre.
  rewrite Hprehash in Hpre. injection Hpre as Hpre. rewrite <- Hpre.
  rewrite (proj2 (forallb_seq_true _ _)) by (intros i Hi; apply (Hj i Hi)).
  f_equal. apply bool_decide_ext.
  rewrite ecmult_mod. unfold X. rewrite ecmult_Zsum.
  rewrite (point_sum_ext _
             (fun j => challenge_term prehash (pubkeys aggctx1) j
                       ⊕ flip_point aggctx1
                           (secp256k1_ecmult_gen (nonce_at aggctx1 j)))).
  2:{ intros j Hjn. apply in_seq in Hjn.
      unfold pv, partial_value, secp256k1_scalar_add, secp256k1_scalar_mul.
      rewrite ecmult_mod, ecmult_add, ecmult_mod.
      rewrite Z.mul_comm, ecmult_mul.
      fold (secp256k1_ecmult_gen (seckey_scalar seckeys j)).
      fold (secp256k1_ecmult_gen (flip_nonce aggctx1 (nonce_at aggctx1 j))).
      rewrite ecmult_gen_flip.
      destruct (Hj j ltac:(lia)) as (_ & <-). reflexivity. }
  rewrite point_sum_add, point_sum_flip.
  unfold nonce_at. fold N. rewrite <- Hls1.
  rewrite (point_sum_seq_lookup secp256k1_ecmult_gen 0 (secnonce aggctx1)).
  replace R with (flip_point aggctx1 (pubnonce_sum aggctx1))
    by (unfold R, qr_rep, flip_point; reflexivity).
  rewrite (add_comm (point_sum _ _)), <- add_assoc, add_neg_r, add_infinity_r.
  apply flip_point_inj.
Qed.

End SignAny.

Section SignAnyTheorem.
Context `{Prims : Primitives} {GLaws : GroupLaws} {ELaws : EndoLaws}.

Local Notation "P ⊕ Q" := (secp256k1_gej_add_var P Q) (at level 50, left associativity).
Local Notation "⊖ P" := (secp256k1_gej_neg P) (at level 35, right associativity).

Lemma sign_phase_verdict ctx msg32 seckeys
    (aggctx1 aggctx2 : secp256k1_aggsig_context) partials :
  wf_session aggctx1 ->
  n_sigs aggctx1 <> 0%nat ->
  (forall j, (j < n_sigs aggctx1)%nat ->
     progress aggctx1 !! j = Some NONCE_PROGRESS_OURS) ->
  Forall2 keypair seckeys (pubkeys aggctx1) ->
  partial_sign_all ctx aggctx1 msg32 seckeys (seq 0 (n_sigs aggctx1))
  = Some (aggctx2, partials) ->
  exists aggctx3 sig64,
    combine_all ctx aggctx2 partials = Some (aggctx3, sig64)
    /\ forall sc0 pt0,
         length sc0 = Pos.to_nat SECP256K1_ECMULT_MULTI_MAX_N ->
         length pt0 = Pos.to_nat SECP256K1_ECMULT_MULTI_MAX_N ->
         secp256k1_aggsig_verify ctx sig64 msg32 (pubkeys aggctx1)
           (n_sigs aggctx1) sc0 pt0
         = Returns (bool_decide
                      (psum (map secp256k1_ecmult_gen (secnonce aggctx1))
                       = pubnonce_sum aggctx1)).
Proof.
  intros Hwf HN Hours Hkeys Hsign.
  assert (Hlpk : length (pubkeys aggctx1) = n_sigs aggctx1)
    by (destruct Hwf as (_ & H & _); exact H).
  destruct (partial_sign_all_success _ _ _ _ _ _ _ Hsign 0%nat)
    as (Hb & prehash & Hpre & _); [apply in_seq; lia|].
  assert (Hok : forall j, (j < n_sigs aggctx1)%nat -> challenge_ok prehash j = true).
  { intros j Hj.
    destruct (partial_sign_all_success _ _ _ _ _ _ _ Hsign j)
      as (_ & prehash' & Hpre' & Hokj); [apply in_seq; lia|].
    rewrite Hpre in Hpre'. injection Hpre' as <-. exact Hokj. }
  destruct (sign_inv_run ctx msg32 seckeys aggctx1 prehash Hb Hwf Hpre
              (n_sigs aggctx1) 0 aggctx1
              (sign_inv_all_ours aggctx1 Hwf Hours) eq_refl)
    as (a2 & Hsign' & Hinv2).
  { intros j Hj. split; [apply Hok; lia|].
    apply (keypair_lookup seckeys (pubkeys aggctx1) j Hkeys). lia. }
  rewrite Hsign in Hsign'. injection Hsign' as <- ->.
  destruct (compute_prehash_returns _ _ _ _ _ Hpre) as (_ & HR).
  destruct (combine_verifies_iff ctx msg32 seckeys aggctx1 prehash Hwf Hpre
              aggctx2 Hinv2 HN)
    as (a3 & sig64 & Hcomb & _ & Hver).
  { intros H0. apply HR. apply qr_rep_infinity. exact H0. }
  { intros j Hj. split; [apply Hok; lia|].
    apply (keypair_lookup seckeys (pubkeys aggctx1) j Hkeys). lia. }
  exists a3, sig64. split; [exact Hcomb | exact Hver].
Qed.

(** X24.  On a session in which every nonce is OURS, when [partial_sign]
    succeeds on all indices with the secret keys of the roster, [combine]
    succeeds on the partials and [verify] returns on the signature; it
    returns 1 exactly when [pubnonce_sum] is the sum of the public nonces
    [secnonce[j]*G] of the secret nonces that the session held when
    signing began. *)
Theorem signature_verifies_iff_nonces_consistent ctx msg32 seckeys
    (aggctx1 aggctx2 : secp256k1_aggsig_context) partials :
  wf_session aggctx1 ->
  n_sigs aggctx1 <> 0%nat ->
  (forall j, (j < n_sigs aggctx1)%nat ->
     progress aggctx1 !! j = Some NONCE_PROGRESS_OURS) ->
  Forall2 keypair seckeys (pubkeys aggctx1) ->
  partial_sign_all ctx aggctx1 msg32 seckeys (seq 0 (n_sigs aggctx1))
  = Some (aggctx2, partials) ->
  exists aggctx3 sig64,
    combine_all ctx aggctx2 partials = Some (aggctx3, sig64)
    /\ forall sc0 pt0,
         length sc0 = Pos.to_nat SECP256K1_ECMULT_MULTI_MAX_N ->
         length pt0 = Pos.to_nat SECP256K1_ECMULT_MULTI_MAX_N ->
         exists b,
           secp256k1_aggsig_verify ctx sig64 msg32 (pubkeys aggctx1)
             (n_sigs aggctx1) sc0 pt0 = Returns b
           /\ (b = true
               <-> pubnonce_sum aggctx1
                   = psum (map secp256k1_ecmult_gen (secnonce aggctx1))).
Proof.
  intros Hwf HN Hours Hkeys Hsign.
  destruct (sign_phase_verdict ctx msg32 seckeys aggctx1 aggctx2 partials
              Hwf HN Hours Hkeys Hsign) as (a3 & sig64 & Hcomb & Hver).
  exists a3, sig64. split; [exact Hcomb|].
  intros sc0 pt0 Hsc Hpt. eexists. split; [exact (Hver sc0 pt0 Hsc Hpt)|].
  rewrite bool_decide_eq_true. split; intros HE; symmetry; exact HE.
Qed.



End SignAnyTheorem.


(** *** Calls out of turn, and what the nonces depend on *)

Section OutOfTurn.
Context `{Prims : Primitives} {GLaws : GroupLaws} {ELaws : EndoLaws}.

Local Notation "P ⊕ Q" := (secp256k1_gej_add_var P Q) (at level 50, left associativity).
Local Notation "⊖ P" := (secp256k1_gej_neg P) (at level 35, right associativity).


(** X27.  The nonces depend on the seed alone: two sessions created with the
    same seed for rosters of the same size, whatever the keys, end their
    nonce phases with the same secret nonces and the same [pubnonce_sum]. *)
Theorem nonces_depend_on_seed_only fuel ctx pks pks' seed heap heap' ks r' :
  ecmult_gen_ctx_built ctx = true ->
  length pks' = length pks ->
  nonce_draws fuel (length pks)
    (secp256k1_rfc6979_hmac_sha256_initialize (take 32 seed)) = Some (ks, r') ->
  exists aggctx aggctx',
    generate_nonces fuel ctx
      (secp256k1_aggsig_context_create pks (length pks) seed heap)
      (seq 0 (length pks)) = Some aggctx
    /\ generate_nonces fuel ctx
         (secp256k1_aggsig_context_create pks' (length pks') seed heap')
         (seq 0 (length pks')) = Some aggctx'
    /\ secnonce aggctx' = secnonce aggctx
    /\ pubnonce_sum aggctx' = pubnonce_sum aggctx
    /\ pubkeys aggctx = pks /\ pubkeys aggctx' = pks'.
Proof.
  intros Hb Hlen Hd.
  destruct (nonce_phase fuel ctx pks seed heap ks r' Hb Hd)
    as (a & Hg & _ & _ & Hpk & Hsn & Hsum).
  rewrite <- Hlen in Hd.
  destruct (nonce_phase fuel ctx pks' seed heap' ks r' Hb Hd)
    as (a' & Hg' & _ & _ & Hpk' & Hsn' & Hsum').
  exists a, a'. split; [exact Hg|]. split; [exact Hg'|].
  split; [congruence|]. split; [congruence|]. split; assumption.
Qed.

End OutOfTurn.

(** *** One nonce, one message *)

Section Once.
Context `{Prims : Primitives}.

(** X28.  [generate_nonce] returns 1 exactly when the generator context is
    built, the index is in range, its nonce is still UNKNOWN and the draw
    loop ends (within the bound given to the model). *)
Theorem generate_nonce_returns_1_iff fuel ctx aggctx index :
  (exists aggctx',
     secp256k1_aggsig_generate_nonce fuel ctx aggctx index = Some (aggctx', true))
  <-> ecmult_gen_ctx_built ctx = true
      /\ (index < n_sigs aggctx)%nat
      /\ progress aggctx !! index = Some NONCE_PROGRESS_UNKNOWN
      /\ exists k r', nonce_loop fuel (rng aggctx) = Some (k, r').
Proof.
  split.
  - intros (a' & Hg).
    apply generate_nonce_success in Hg as (Hb & Hlt & Hu & k & r' & Hloop & _).
    split; [exact Hb|]. split; [exact Hlt|]. split; [exact Hu|].
    exists k, r'. exact Hloop.
  - intros (Hb & Hlt & Hu & k & r' & Hloop).
    unfold secp256k1_aggsig_generate_nonce.
    rewrite Hb. cbn [negb].
    destruct (Nat.ltb_spec index (n_sigs aggctx)) as [_|Hge]; [|lia].
    cbn [negb]. rewrite Hu, Hloop.
    destruct (negb (secp256k1_gej_has_quad_y_var (secp256k1_ecmult_gen k)));
      eexists; reflexivity.
Qed.

Lemma partial_sign_all_signed ctx msg32 seckeys indices : forall a a' ps,
  partial_sign_all ctx a msg32 seckeys indices = Some (a', ps) ->
  n_sigs a' = n_sigs a
  /\ (forall j, progress a !! j = Some NONCE_PROGRESS_SIGNED ->
        progress a' !! j = Some NONCE_PROGRESS_SIGNED)
  /\ forall j, In j indices -> progress a' !! j = Some NONCE_PROGRESS_SIGNED.
Proof.
  induction indices as [|i rest IH]; intros a a' ps; cbn [partial_sign_all].
  - intros [= <- <-]. split; [reflexivity|]. split; [tauto | intros j []].
  - destruct (secp256k1_aggsig_partial_sign ctx a (replicate 32 x00) msg32
                (seckey_at seckeys i) i) as [[[a1 p] [|]]|] eqn:Es;
      try (intros Hs; discriminate Hs).
    destruct (partial_sign_all ctx a1 msg32 seckeys rest) as [[a2 ps']|] eqn:Er;
      [|intros Hs; discriminate Hs].
    intros [= <- <-].
    destruct (IH _ _ _ Er) as (Hn & Hkeep & Hall).
    pose proof (partial_sign_marks_signed _ _ _ _ _ _ _ _ Es) as Hi.
    assert (Hstep : step ctx a (CallPartialSign (replicate 32 x00) msg32
                                  (seckey_at seckeys i) i) = Some a1)
      by (cbn [step]; rewrite Es; reflexivity).
    destruct (step_frame _ _ _ _ Hstep) as (Hn1 & _).
    split; [congruence|]. split.
    + intros j Hj. apply Hkeep.
      exact (step_keeps_signed _ _ _ _ _ Hj Hstep).
    + intros j [<-|Hj]; [apply Hkeep; exact Hi | apply Hall; exact Hj].
Qed.

(** X29.  A session signs one message: once [partial_sign] has succeeded on all
    indices, every further call of [partial_sign], whatever the index, the
    message and the key, returns 0 and writes neither the session nor the
    partial. *)
Theorem session_signs_once ctx msg32 seckeys (aggctx aggctx2 : secp256k1_aggsig_context)
    partials :
  partial_sign_all ctx aggctx msg32 seckeys (seq 0 (n_sigs aggctx))
  = Some (aggctx2, partials) ->
  forall partial msghash32 seckey32 index,
    secp256k1_aggsig_partial_sign ctx aggctx2 partial msghash32 seckey32 index
    = Returns (aggctx2, partial, false).
Proof.
  intros Hsign partial msghash32 seckey32 index.
  destruct (partial_sign_all_signed _ _ _ _ _ _ _ Hsign) as (Hn & _ & Hall).
  destruct (decide (index < n_sigs aggctx)%nat) as [Hlt|Hge].
  - apply partial_sign_on_signed. apply Hall. apply in_seq. lia.
  - unfold secp256k1_aggsig_partial_sign.
    destruct (negb (ecmult_gen_ctx_built ctx)); [reflexivity|].
    rewrite Hn. destruct (Nat.ltb_spec index (n_sigs aggctx)) as [Hlt|_];
      [lia | reflexivity].
Qed.

End Once.

(** ** A small instance of the primitives

    The curve [y^2 = x^3 + 7] over the field with 43 elements has 31 points
    (a prime), and 43 = 3 mod 4 as for secp256k1, so that exactly one of [y]
    and [-y] is a square.  Every law of [GroupLaws] is checked on it by
    enumeration. *)

Module Toy.

Definition p : Z := 43.
Definition n : Z := 31.

(** Affine coordinates; [None] is the point at infinity. *)
Definition affine : Type := option (Z * Z).

Fixpoint pow_mod (a : Z) (e : positive) : Z :=
  match e with
  | xH => a mod p
  | xO e' => let r := pow_mod a e' in (r * r) mod p
  | xI e' => let r := pow_mod a e' in (r * r * a) mod p
  end.

Definition inv (a : Z) : Z := pow_mod a 41.

Definition on_curve (P : affine) : bool :=
  match P with
  | None => true
  | Some (x, y) =>
      (0 <=? x) && (x <? p) && (0 <=? y) && (y <? p)
      && ((y * y - (x * x * x + 7)) mod p =? 0)
  end.

Definition neg (P : affine) : affine :=
  match P with
  | None => None
  | Some (x, y) => Some (x, (- y) mod p)
  end.

Definition add (P Q : affine) : affine :=
  match P, Q with
  | None, _ => Q
  | _, None => P
  | Some (x1, y1), Some (x2, y2) =>
      if x1 =? x2
      then if (y1 + y2) mod p =? 0 then None
           else let l := (3 * x1 * x1 * inv (2 * y1)) mod p in
                let x3 := (l * l - x1 - x2) mod p in
                Some (x3, (l * (x1 - x3) - y1) mod p)
      else let l := ((y2 - y1) * inv (x2 - x1)) mod p in
           let x3 := (l * l - x1 - x2) mod p in
           Some (x3, (l * (x1 - x3) - y1) mod p)
  end.

(** Euler's criterion. *)
Definition quad_y (P : affine) : bool :=
  match P with
  | None => false
  | Some (_, y) => pow_mod y 21 =? 1
  end.

Definition x_of (P : affine) : Z :=
  match P with
  | None => 0
  | Some (x, _) => x
  end.

(** The square root is [c^((p+1)/4)]; it is checked by squaring. *)
Definition xquad (x : Z) : option affine :=
  if (0 <=? x) && (x <? p)
  then let c := (x * x * x + 7) mod p in
       let y := pow_mod c 11 in
       if (y * y) mod p =? c then Some (Some (x, y)) else None
  else None.

Definition affine_eqb (P Q : affine) : bool :=
  match P, Q with
  | None, None => true
  | Some (x1, y1), Some (x2, y2) => (x1 =? x2) && (y1 =? y2)
  | _, _ => false
  end.

Definition coords : list Z := map Z.of_nat (seq 0 43).

Definition all_points : list affine :=
  List.filter on_curve (None :: map Some (list_prod coords coords)).

Definition points : list affine := Eval vm_compute in all_points.

(** The group elements: the pairs that lie on the curve. *)
Definition curve_point : Type := { P : affine | on_curve P = true }.

Definition mk_point (P : affine) : option curve_point :=
  match bool_dec (on_curve P) true with
  | left H => Some (exist _ P H)
  | right _ => None
  end.

Definition G_affine : affine := Some (2, 12).

(** A hash with 32-byte output, small enough to trace by hand. *)
Definition digest (m : list byte) : list byte :=
  Bytes.Z2be 32
    (fold_left (fun acc b => (acc * 7 + Bytes.to_Z b + 1) mod 37) m 5).

(** A generator whose state is a counter. *)
Definition rng_init (seed : list byte) : Z := Bytes.be2Z seed mod 1000.
Definition rng_next (st : Z) : list byte * Z :=
  (Bytes.Z2be 32 ((st * 5 + 3) mod 37), st + 1).

(** *** Enumeration *)

Lemma affine_eqb_eq P Q : affine_eqb P Q = true <-> P = Q.
Proof.
  destruct P as [[x1 y1]|], Q as [[x2 y2]|]; cbn [affine_eqb];
    try (split; [discriminate | intros [=]]); [|tauto].
  rewrite andb_true_iff, !Z.eqb_eq. split.
  - intros [-> ->]. reflexivity.
  - intros [= -> ->]. tauto.
Qed.

Lemma coords_complete x : 0 <= x < p -> In x coords.
Proof.
  intros Hx. unfold coords. apply in_map_iff.
  exists (Z.to_nat x). split; [lia|]. apply in_seq. unfold p in Hx. lia.
Qed.

Lemma points_complete P : on_curve P = true -> In P points.
Proof.
  intros HP. change points with all_points. unfold all_points.
  apply filter_In. split; [|exact HP].
  destruct P as [[x y]|]; [right | left; reflexivity].
  apply in_map. cbn [on_curve] in HP.
  apply andb_true_iff in HP as [HP _].
  apply andb_true_iff in HP as [HP Hy2].
  apply andb_true_iff in HP as [HP Hy1].
  apply andb_true_iff in HP as [Hx1 Hx2].
  apply in_prod; apply coords_complete; lia.
Qed.

Lemma check1 (f : affine -> bool) :
  forallb f points = true -> forall a, on_curve a = true -> f a = true.
Proof.
  intros Hf a Ha. apply (proj1 (forallb_forall f points) Hf).
  apply points_complete. exact Ha.
Qed.

Lemma check2 (f : affine -> affine -> bool) :
  forallb (fun a => forallb (f a) points) points = true ->
  forall a b, on_curve a = true -> on_curve b = true -> f a b = true.
Proof.
  intros Hf a b Ha Hb.
  apply (check1 (f a)); [|exact Hb].
  exact (check1 (fun a => forallb (f a) points) Hf a Ha).
Qed.

Lemma check3 (f : affine -> affine -> affine -> bool) :
  forallb (fun a => forallb (fun b => forallb (f a b) points) points) points
  = true ->
  forall a b c, on_curve a = true -> on_curve b = true -> on_curve c = true ->
    f a b c = true.
Proof.
  intros Hf a b c Ha Hb Hc.
  apply (check1 (f a b)); [|exact Hc].
  exact (check2 (fun a b => forallb (f a b) points) Hf a b Ha Hb).
Qed.

Lemma add_closed a b :
  on_curve a = true -> on_curve b = true -> on_curve (add a b) = true.
Proof.
  apply (check2 (fun a b => on_curve (add a b))). vm_compute. reflexivity.
Qed.

Lemma neg_closed a : on_curve a = true -> on_curve (neg a) = true.
Proof.
  apply (check1 (fun a => on_curve (neg a))). vm_compute. reflexivity.
Qed.

(** *** The operations on group elements *)

Definition O : curve_point := exist _ None eq_refl.
Definition G : curve_point := exist _ G_affine eq_refl.

Definition padd (P Q : curve_point) : curve_point :=
  exist _ (add (`P) (`Q)) (add_closed _ _ (proj2_sig P) (proj2_sig Q)).

Definition pneg (P : curve_point) : curve_point :=
  exist _ (neg (`P)) (neg_closed _ (proj2_sig P)).

Definition set_xquad (x : Z) : option curve_point :=
  match xquad x with
  | Some a => mk_point a
  | None => None
  end.

Definition serialize (P : curve_point) : option (list byte) :=
  match `P with
  | None => None
  | Some (x, y) => Some ((if Z.odd y then x03 else x02) :: Bytes.Z2be 32 x)
  end.

(** The endomorphism: [lambda * (x, y) = (beta * x, y)]. *)
Definition lambda : Z := 5.
Definition beta : Z := 6.

Definition mul_lambda (P : affine) : affine :=
  match P with
  | None => None
  | Some (x, y) => Some ((beta * x) mod p, y)
  end.

Lemma mul_lambda_closed a :
  on_curve a = true -> on_curve (mul_lambda a) = true.
Proof.
  apply (check1 (fun a => on_curve (mul_lambda a))). vm_compute. reflexivity.
Qed.

Definition pmul_lambda (P : curve_point) : curve_point :=
  exist _ (mul_lambda (`P)) (mul_lambda_closed _ (proj2_sig P)).

(** [k = k1 + lambda * k2], with [k2] the nearest quotient: [k1] is one of
    -2 .. 2 modulo [n]. *)
Definition split_lambda (k : Z) : Z * Z :=
  let k2 := (k mod n + 2) / lambda in
  ((k mod n - lambda * k2) mod n, k2).

Definition is_high (s : Z) : bool := n / 2 <? s.

(** The instance for a build with or without USE_ENDOMORPHISM and arrays
    of [max_n] entries. *)
Definition prims_of (endo : bool) (max_n : positive) : Primitives :=
  {| point := curve_point;
     point_eq_dec := _;
     infinity := O;
     secp256k1_ge_const_g := G;
     secp256k1_gej_add_var := padd;
     secp256k1_gej_neg := pneg;
     secp256k1_gej_has_quad_y_var := fun P => quad_y (`P);
     ge_x := fun P => x_of (`P);
     secp256k1_ge_set_xquad := set_xquad;
     secp256k1_eckey_pubkey_serialize := serialize;
     field_p := p;
     order_n := n;
     sha256 := digest;
     secp256k1_rfc6979_hmac_sha256_t := Z;
     secp256k1_rfc6979_hmac_sha256_initialize := rng_init;
     secp256k1_rfc6979_hmac_sha256_generate := rng_next;
     SECP256K1_ECMULT_MULTI_MAX_N := max_n;
     USE_ENDOMORPHISM := endo;
     secp256k1_scalar_split_lambda := split_lambda;
     secp256k1_scalar_is_high := is_high;
     secp256k1_gej_mul_lambda := pmul_lambda |}.

Definition prims : Primitives := prims_of false 2.
Definition prims_endo : Primitives := prims_of true 4.

(** *** The laws *)

Lemma point_eq (P Q : curve_point) : `P = `Q -> P = Q.
Proof. apply (sig_eq_pi (fun a => on_curve a = true)). Qed.

Lemma iter_padd q : forall P : curve_point,
  proj1_sig (Pos.iter_op padd q P) = Pos.iter_op add q (proj1_sig P).
Proof.
  induction q as [q IH|q IH|]; intros P; cbn [Pos.iter_op].
  - cbn [padd proj1_sig]. rewrite IH. reflexivity.
  - rewrite IH. reflexivity.
  - reflexivity.
Qed.

Lemma hash_laws_of endo max_n : @HashLaws (prims_of endo max_n).
Proof.
  constructor. intros m. apply Bytes.length_Z2be.
Qed.

Lemma group_laws_of endo max_n : @GroupLaws (prims_of endo max_n).
Proof.
  constructor; cbn [prims_of point infinity secp256k1_ge_const_g
                    secp256k1_gej_add_var secp256k1_gej_neg
                    secp256k1_gej_has_quad_y_var ge_x secp256k1_ge_set_xquad
                    secp256k1_eckey_pubkey_serialize field_p order_n].
  - intros [a Ha] [b Hb] [c Hc]. apply point_eq. cbn [padd proj1_sig].
    apply affine_eqb_eq. revert a b c Ha Hb Hc.
    apply (check3 (fun a b c => affine_eqb (add a (add b c)) (add (add a b) c))).
    vm_compute. reflexivity.
  - intros [a Ha] [b Hb]. apply point_eq. cbn [padd proj1_sig].
    apply affine_eqb_eq. revert a b Ha Hb.
    apply (check2 (fun a b => affine_eqb (add a b) (add b a))).
    vm_compute. reflexivity.
  - intros [a Ha]. apply point_eq. reflexivity.
  - intros [a Ha]. apply point_eq. cbn [padd pneg proj1_sig O].
    apply affine_eqb_eq. revert a Ha.
    apply (check1 (fun a => affine_eqb (add a (neg a)) None)).
    vm_compute. reflexivity.
  - unfold n. lia.
  - unfold n. lia.
  - intros P. apply point_eq. unfold ecmult, n.
    cbn [secp256k1_gej_add_var prims_of]. rewrite iter_padd.
    destruct P as [a Ha]. cbn [proj1_sig O].
    apply affine_eqb_eq. revert a Ha.
    apply (check1 (fun a => affine_eqb (Pos.iter_op add 31 a) None)).
    vm_compute. reflexivity.
  - intros k Hk HE. apply (f_equal (@proj1_sig _ _)) in HE.
    unfold ecmult in HE. destruct k as [|q|q]; try lia.
    cbn [secp256k1_gej_add_var secp256k1_ge_const_g prims_of] in HE.
    rewrite iter_padd in HE. cbn [proj1_sig G O] in HE.
    assert (Hall : forallb (fun j => negb (affine_eqb
                      (Pos.iter_op add (Pos.of_nat j) G_affine) None))
                     (seq 1 30) = true) by (vm_compute; reflexivity).
    pose proof (proj1 (forallb_forall _ _) Hall (Pos.to_nat q)) as Hq.
    cbn beta in Hq. rewrite Pos2Nat.id in Hq.
    apply affine_eqb_eq in HE. rewrite HE in Hq.
    unfold n in Hk. discriminate Hq. apply in_seq. lia.
  - intros [a Ha] HP. cbn [pneg proj1_sig].
    assert (Hne : a <> None).
    { intros ->. apply HP. apply point_eq. reflexivity. }
    assert (Hc : forall a, on_curve a = true ->
              (match a with
               | None => true
               | Some _ => eqb (quad_y (neg a)) (negb (quad_y a))
               end) = true)
      by (apply check1; vm_compute; reflexivity).
    specialize (Hc a Ha).
    destruct a; [apply eqb_prop; exact Hc | contradiction].
  - unfold p. lia.
  - intros [a Ha]. cbn [proj1_sig].
    assert (Hc : forall a, on_curve a = true ->
              ((0 <=? x_of a) && (x_of a <? p)) = true)
      by (apply check1; vm_compute; reflexivity).
    specialize (Hc a Ha).
    apply andb_true_iff in Hc as [H1 H2]. lia.
  - intros [a Ha]. cbn [pneg proj1_sig]. destruct a as [[x y]|]; reflexivity.
  - intros x [a Ha]. unfold set_xquad.
    destruct (xquad x) as [b|] eqn:Ex; [|discriminate].
    unfold mk_point. destruct (bool_dec (on_curve b) true) as [Hb|Hb];
      [|discriminate].
    intros [= ->]. cbn [proj1_sig].
    assert (Hr : (0 <=? x) && (x <? p) = true).
    { unfold xquad in Ex.
      destruct ((0 <=? x) && (x <? p)); [reflexivity | discriminate Ex]. }
    apply andb_true_iff in Hr as [H1 H2].
    assert (Hall : forallb (fun x => match xquad x with
                                     | None => true
                                     | Some b => negb (affine_eqb b None)
                                                 && quad_y b && (x_of b =? x)
                                     end) coords = true)
      by (vm_compute; reflexivity).
    pose proof (proj1 (forallb_forall _ _) Hall x
                  (coords_complete x ltac:(lia))) as Hx.
    cbn beta in Hx. rewrite Ex in Hx.
    apply andb_true_iff in Hx as [Hx Hx3].
    apply andb_true_iff in Hx as [Hx1 Hx2].
    split; [|split; [exact Hx2 | apply Z.eqb_eq; exact Hx3]].
    intros HE. apply (f_equal (@proj1_sig _ _)) in HE. cbn [proj1_sig O] in HE.
    subst a. discriminate Hx1.
  - intros [a Ha] HP Hq. cbn [proj1_sig] in *.
    assert (Hc : forall a, on_curve a = true ->
              (match a with
               | None => true
               | Some _ => negb (quad_y a)
                           || match xquad (x_of a) with
                              | Some b => affine_eqb b a
                              | None => false
                              end
               end) = true)
      by (apply check1; vm_compute; reflexivity).
    specialize (Hc a Ha).
    destruct a as [xy|]; [|exfalso; apply HP; apply point_eq; reflexivity].
    rewrite Hq in Hc. cbn [negb orb] in Hc.
    unfold set_xquad. destruct (xquad (x_of (Some xy))) as [b|]; [|discriminate Hc].
    apply affine_eqb_eq in Hc. subst b.
    unfold mk_point. destruct (bool_dec (on_curve (Some xy)) true) as [Hb|Hb];
      [|contradiction].
    f_equal. apply point_eq. reflexivity.
  - intros [a Ha]. unfold serialize. cbn [proj1_sig].
    destruct a as [[x y]|]; split.
    + discriminate.
    + intros HE. apply (f_equal (@proj1_sig _ _)) in HE. discriminate HE.
    + intros _. apply point_eq. reflexivity.
    + reflexivity.
Qed.

Lemma pmul_lambda_ecmult endo max_n (P : curve_point) :
  pmul_lambda P = @ecmult (prims_of endo max_n) lambda P.
Proof.
  apply point_eq. unfold ecmult, lambda.
  cbn [secp256k1_gej_add_var prims_of]. rewrite iter_padd.
  destruct P as [a Ha]. cbn [pmul_lambda proj1_sig].
  apply affine_eqb_eq. revert a Ha.
  apply (check1 (fun a => affine_eqb (mul_lambda a) (Pos.iter_op add 5 a))).
  vm_compute. reflexivity.
Qed.

Lemma endo_laws_of endo max_n :
  (endo = true -> Nat.Even (Pos.to_nat max_n)) ->
  @EndoLaws (prims_of endo max_n).
Proof.
  intros Hmax. constructor; [|exact Hmax].
  intros _ k P.
  change (@secp256k1_scalar_split_lambda (prims_of endo max_n) k)
    with (split_lambda k).
  change (@secp256k1_gej_mul_lambda (prims_of endo max_n) P)
    with (pmul_lambda P).
  unfold split_lambda. cbn [fst snd].
  rewrite (pmul_lambda_ecmult endo max_n).
  pose proof (@ecmult_mod _ (group_laws_of endo max_n)) as Hmod.
  change (@order_n (prims_of endo max_n)) with n in Hmod.
  rewrite Hmod.
  rewrite <- (@ecmult_mul _ (group_laws_of endo max_n)).
  rewrite <- (@ecmult_add _ (group_laws_of endo max_n)).
  rewrite <- (Hmod k). f_equal. lia.
Qed.

Lemma hash_laws : @HashLaws prims.
Proof. exact (hash_laws_of false 2). Qed.

Lemma group_laws : @GroupLaws prims.
Proof. exact (group_laws_of false 2). Qed.

Lemma endo_laws : @EndoLaws prims.
Proof. apply endo_laws_of. discriminate. Qed.

Lemma group_laws_endo : @GroupLaws prims_endo.
Proof. exact (group_laws_of true 4). Qed.

Lemma endo_laws_endo : @EndoLaws prims_endo.
Proof. apply endo_laws_of. intros _. exists 2%nat. reflexivity. Qed.

End Toy.

(** ** A ceremony of three signers on the small instance *)

Module Example.
Import Toy.

Definition ctx : secp256k1_context := {| ecmult_gen_ctx_built := true |}.

Definition seckeys : list (list byte) :=
  [Bytes.Z2be 32 1; Bytes.Z2be 32 2; Bytes.Z2be 32 3].

Definition roster : list curve_point :=
  map (fun key => @secp256k1_ecmult_gen prims (Bytes.be2Z (take 32 key))) seckeys.

Definition msg32 : list byte := Bytes.Z2be 32 5.
Definition seed : list byte := Bytes.Z2be 32 6.
Definition heap : nat -> Z := fun _ => 0.

Definition sc0 : list Z := replicate 2 0.
Definition pt0 : list curve_point := replicate 2 O.

(** The fresh session, the session after the nonce phase, after the
    signing phase with its partials, and after [combine] with the
    signature. *)
Definition session0 : @secp256k1_aggsig_context prims :=
  @secp256k1_aggsig_context_create prims roster 3 seed heap.

Definition session1 : @secp256k1_aggsig_context prims :=
  default session0 (@generate_nonces prims 10 ctx session0 (seq 0 3)).

Definition signed : @secp256k1_aggsig_context prims * list (list byte) :=
  default (session1, [])
    (@partial_sign_all prims ctx session1 msg32 seckeys (seq 0 3)).

Definition session2 : @secp256k1_aggsig_context prims := signed.1.
Definition partials : list (list byte) := Eval vm_compute in signed.2.

Definition combined :=
  @secp256k1_aggsig_combine_signatures prims ctx session2
    (replicate 64 x00) partials 3.

Definition sig64 : list byte := Eval vm_compute in combined.1.2.

(** How many of the first [n] stored secret nonces are the same in two
    sessions. *)
Definition nonces_kept (n : nat)
    (before after : @secp256k1_aggsig_context prims) : nat :=
  length (List.filter
            (fun j => bool_decide (@secnonce prims after !! j
                                   = @secnonce prims before !! j))
            (seq 0 n)).

(** The first call of the nonce phase. *)
Definition session_first : @secp256k1_aggsig_context prims :=
  (default (session0, false)
     (@secp256k1_aggsig_generate_nonce prims 10 ctx session0 0)).1.

Lemma point_neq (P Q : curve_point) : proj1_sig P <> proj1_sig Q -> P <> Q.
Proof. intros Hne ->. apply Hne. reflexivity. Qed.

End Example.

(** ** Runs on the small instance *)

Module Runs.
Import Toy Example.

Lemma roster_valid : Forall (fun P : curve_point => P <> O) roster.
Proof.
  repeat constructor; apply point_neq; vm_compute; discriminate.
Qed.

Lemma roster_keypairs : Forall2 (@keypair prims) seckeys roster.
Proof. repeat constructor. Qed.

Lemma session1_reached :
  @generate_nonces prims 10 ctx session0 (seq 0 3) = Some session1.
Proof. reflexivity. Qed.

Lemma session2_reached :
  @partial_sign_all prims ctx session1 msg32 seckeys (seq 0 3)
  = Some (session2, partials).
Proof. reflexivity. Qed.

Lemma session1_ready : @ready_to_sign prims session1.
Proof.
  destruct (@nonce_phase prims group_laws 10 ctx roster seed heap [1; 6; 11] 10
              eq_refl eq_refl) as (a & Hg & Hready & _).
  change (length roster) with 3%nat in Hg.
  change (@secp256k1_aggsig_context_create prims roster 3 seed heap)
    with session0 in Hg.
  rewrite session1_reached in Hg. apply (inj Some) in Hg. rewrite Hg. exact Hready.
Qed.

(** C1 fails on the empty roster: generating no nonce, signing on no
    index and combining no partial yields a 64-byte signature, and
    [verify] returns 0 on it. *)
Lemma ceremony_empty_roster_rejected :
  option_map snd (@ceremony prims 10 ctx [] [] msg32 seed heap)
  = Some (replicate 64 x00)
  /\ @secp256k1_aggsig_verify prims ctx (replicate 64 x00) msg32 [] 0 sc0 pt0
     = Returns false.
Proof. split; vm_compute; reflexivity. Qed.

(** The ceremony of [Example] goes through and its signature verifies. *)
Lemma ceremony_round_trip_witness :
  exists aggctx s64,
    @ceremony prims 10 ctx roster seckeys msg32 seed heap = Some (aggctx, s64)
    /\ length s64 = 64%nat
    /\ forall sc0 pt0,
         length sc0 = Pos.to_nat (@SECP256K1_ECMULT_MULTI_MAX_N prims) ->
         length pt0 = Pos.to_nat (@SECP256K1_ECMULT_MULTI_MAX_N prims) ->
         @secp256k1_aggsig_verify prims ctx s64 msg32 roster (length roster)
           sc0 pt0 = Returns true.
Proof.
  apply (@ceremony_round_trip prims group_laws endo_laws 10 ctx roster seckeys msg32
           seed heap [1; 6; 11] 10).
  - reflexivity.
  - discriminate.
  - exact roster_keypairs.
  - reflexivity.
  - apply point_neq. vm_compute. discriminate.
  - intros j Hj. destruct j as [|[|[|j]]];
      [vm_compute; reflexivity .. | cbn in Hj; lia].
Defined.

(** [verify] on the signature of [Example]. *)
Lemma verify_spec_witness :
  exists b,
    @secp256k1_aggsig_verify prims ctx sig64 msg32 roster 3 sc0 pt0 = Returns b
    /\ (b = true <->
        3%nat <> 0%nat /\ Bytes.be2Z (take 32 sig64) < n
        /\ Bytes.be2Z (drop 32 sig64) < p
        /\ (exists P : curve_point,
              P <> O /\ x_of (proj1_sig P) = Bytes.be2Z (drop 32 sig64))
        /\ exists (R : curve_point) prehash,
             R <> O /\ quad_y (proj1_sig R) = true
             /\ x_of (proj1_sig R) = Bytes.be2Z (drop 32 sig64)
             /\ @secp256k1_compute_prehash prims roster 3 R msg32 = Returns prehash
             /\ (forall i, (i < 3)%nat -> @challenge_ok prims prehash i = true)
             /\ padd (@ecmult prims (Bytes.be2Z (take 32 sig64)) G)
                  (pneg (@point_sum prims (@challenge_term prims prehash roster)
                           (seq 0 3)))
                = R).
Proof.
  apply (@verify_spec prims group_laws endo_laws ctx sig64 msg32 roster 3 sc0 pt0).
  - reflexivity.
  - exact roster_valid.
  - reflexivity.
  - reflexivity.
  - reflexivity.
Defined.

(** The same signature under a build with USE_ENDOMORPHISM and arrays of
    four entries: one key for each chunk, three chunks. *)
Lemma verify_endo_build_accepts :
  @secp256k1_aggsig_verify prims_endo ctx sig64 msg32 roster 3
    (replicate 4 0) (replicate 4 O)
  = Returns true.
Proof. vm_compute. reflexivity. Qed.

(** With USE_ENDOMORPHISM a bit of the signature flipped is rejected as
    well. *)
Lemma verify_endo_build_rejects :
  @secp256k1_aggsig_verify prims_endo ctx
    (<[31%nat := Bytes.of_Z (Bytes.to_Z (default x00 (sig64 !! 31%nat)) + 1)]> sig64)
    msg32 roster 3 (replicate 4 0) (replicate 4 O)
  = Returns false.
Proof. vm_compute. reflexivity. Qed.

(** C3 fails on the session of [Example]: it is reached by the nonce and
    signing phases, [combine] returns 1 on it, and [pubnonce_sum] is not
    what it was. *)
Lemma combine_changes_pubnonce_sum :
  @generate_nonces prims 10 ctx session0 (seq 0 3) = Some session1
  /\ @partial_sign_all prims ctx session1 msg32 seckeys (seq 0 3)
     = Some (session2, partials)
  /\ combined.2 = true
  /\ proj1_sig (@pubnonce_sum prims session2) = Some (38, 22)
  /\ proj1_sig (@pubnonce_sum prims combined.1.1) = Some (38, 21)
  /\ @pubnonce_sum prims combined.1.1 <> @pubnonce_sum prims session2.
Proof.
  split; [exact session1_reached|]. split; [exact session2_reached|].
  split; [vm_compute; reflexivity|]. split; [vm_compute; reflexivity|].
  split; [vm_compute; reflexivity|].
  apply point_neq. vm_compute. discriminate.
Qed.

(** C4 fails on the session of [Example]: [pubnonce_sum] lacks a
    quadratic-residue y when signing starts, [partial_sign] succeeds on the
    three indices, the combined signature verifies, and none of the three
    stored secret nonces is what it was, where the claim has exactly one. *)
Lemma qr_flip_keeps_no_nonce :
  @generate_nonces prims 10 ctx session0 (seq 0 3) = Some session1
  /\ quad_y (proj1_sig (@pubnonce_sum prims session1)) = false
  /\ @partial_sign_all prims ctx session1 msg32 seckeys (seq 0 3)
     = Some (session2, partials)
  /\ combined.1.2 = sig64 /\ combined.2 = true
  /\ @secp256k1_aggsig_verify prims ctx sig64 msg32 roster 3 sc0 pt0
     = Returns true
  /\ @secnonce prims session1 = [30; 6; 11]
  /\ @secnonce prims session2 = [1; 25; 20]
  /\ nonces_kept 3 session1 session2 = 0%nat
  /\ nonces_kept 3 session1 session2 <> 1%nat.
Proof.
  split; [exact session1_reached|]. split; [vm_compute; reflexivity|].
  split; [exact session2_reached|].
  repeat split; try (vm_compute; reflexivity).
  vm_compute. discriminate.
Qed.

(** The signing phase of [Example]. *)
Lemma qr_flip_negates_every_nonce_witness :
  (exists aggctx3 s64,
     @combine_all prims ctx session2 partials = Some (aggctx3, s64)
     /\ forall sc0 pt0,
          length sc0 = Pos.to_nat (@SECP256K1_ECMULT_MULTI_MAX_N prims) ->
          length pt0 = Pos.to_nat (@SECP256K1_ECMULT_MULTI_MAX_N prims) ->
          @secp256k1_aggsig_verify prims ctx s64 msg32
            (@pubkeys prims session1) (@n_sigs prims session1) sc0 pt0
          = Returns true)
  /\ (forall j k, @secnonce prims session1 !! j = Some k ->
        @secnonce prims session2 !! j = Some (@secp256k1_scalar_negate prims k)
        /\ (0 < k < n ->
            @secnonce prims session2 !! j <> @secnonce prims session1 !! j)).
Proof.
  apply (@qr_flip_negates_every_nonce prims group_laws endo_laws ctx msg32 seckeys
           session1 session2 partials).
  - exact session1_ready.
  - vm_compute. discriminate.
  - vm_compute. reflexivity.
  - exact roster_keypairs.
  - exact session2_reached.
Defined.

(** The challenge of index 200 on a 32-byte prehash. *)
Lemma compute_sighash_spec_witness :
  @secp256k1_compute_sighash prims msg32 200
  = (Bytes.be2Z (digest (varint7 200 ++ msg32)) mod n,
     Bytes.be2Z (digest (varint7 200 ++ msg32)) <? n)
  /\ varint7 200 = [Bytes.of_Z 72; Bytes.of_Z 1].
Proof.
  split; [|reflexivity].
  exact (proj1 (@compute_sighash_spec prims hash_laws msg32 200 eq_refl)).
Defined.

(** Index 0 of [Example] is SIGNED after the signing phase, and signing on
    it again returns 0 with the session and the partial as they were. *)
Lemma signed_is_terminal_witness :
  @progress prims session2 !! 0%nat = Some NONCE_PROGRESS_SIGNED
  /\ @secp256k1_aggsig_partial_sign prims ctx session2 (replicate 32 x00)
       msg32 (Bytes.Z2be 32 1) 0
     = Returns (session2, replicate 32 x00, false).
Proof.
  split; [reflexivity|].
  apply (proj1 (proj2 (@signed_is_terminal prims ctx 0))). reflexivity.
Defined.

(** The first [generate_nonce] of [Example]: the drawn scalar is 1, its
    point lacks a quadratic-residue y, and the stored nonce is 30 = -1. *)
Lemma generate_nonce_canonical_witness :
  exists k r',
    @nonce_loop prims 10 (@rng prims session0) = Some (k, r') /\ 0 < k < n /\
    let R := @secp256k1_ecmult_gen prims k in
    @secp256k1_ecmult_gen prims (default 0 (@secnonce prims session_first !! 0%nat))
      = (if quad_y (proj1_sig R) then R else pneg R)
    /\ @pubnonce_sum prims session_first
       = padd (@pubnonce_sum prims session0)
           (if quad_y (proj1_sig R) then R else pneg R)
    /\ quad_y (proj1_sig (if quad_y (proj1_sig R) then R else pneg R)) = true
    /\ @progress prims session_first !! 0%nat = Some NONCE_PROGRESS_OURS.
Proof.
  apply (@generate_nonce_canonical prims group_laws 10 ctx session0 0
           session_first).
  - repeat split; reflexivity.
  - reflexivity.
Defined.

(** [combine] on the partials of [Example]. *)
Lemma combine_signatures_spec_witness :
  (combined.2 = false <->
     3%nat <> @n_sigs prims session2
     \/ Exists (fun q => n <= Bytes.be2Z q) partials)
  /\ combined.2 = true.
Proof.
  split; [|vm_compute; reflexivity].
  apply (@combine_signatures_spec prims ctx session2 (replicate 64 x00)
           partials 3).
  - reflexivity.
  - repeat constructor.
Defined.

(** [generate_nonce] on an index whose nonce is already there. *)
Lemma generate_nonce_requires_witness :
  @secp256k1_aggsig_generate_nonce prims 10 ctx session1 0
  = Some (session1, false).
Proof.
  apply (@generate_nonce_requires prims 10 ctx session1 0).
  intros [_ Hu]. vm_compute in Hu. discriminate Hu.
Defined.

(** [combine] twice on the session of [Example]. *)
Lemma combine_idempotent_witness :
  @secp256k1_aggsig_combine_signatures prims ctx combined.1.1 combined.1.2
    partials 3 = combined
  /\ (combined.2 = true ->
      @pubnonce_sum prims combined.1.1 = @qr_rep prims (@pubnonce_sum prims session2)
      /\ @qr_rep prims (@pubnonce_sum prims combined.1.1)
         = @pubnonce_sum prims combined.1.1).
Proof.
  exact (@combine_idempotent prims group_laws ctx session2 (replicate 64 x00)
           partials 3).
Defined.

End Runs.

(** ** More runs on the small instance *)

Module MoreRuns.
Import Toy Example.

(** The calls of the ceremony of [Example], with a [generate_nonce] and a
    [partial_sign] that fail in between. *)
Definition calls : list call :=
  [CallGenerateNonce 10 0; CallGenerateNonce 10 1; CallGenerateNonce 10 0;
   CallPartialSign (replicate 32 x00) msg32 (seckey_at seckeys 0) 0;
   CallGenerateNonce 10 2;
   CallPartialSign (replicate 32 x00) msg32 (seckey_at seckeys 0) 0;
   CallPartialSign (replicate 32 x00) msg32 (seckey_at seckeys 1) 1;
   CallPartialSign (replicate 32 x00) msg32 (seckey_at seckeys 2) 2].

(** The prehash of the signing phase of [Example] and the challenge of
    index 0. *)
Definition prehash1 : list byte :=
  Eval vm_compute in
    match @secp256k1_compute_prehash prims (@pubkeys prims session1) 3
            (@qr_rep prims (@pubnonce_sum prims session1)) msg32 with
    | Returns h => h
    | Aborts => []
    end.

Definition e0 : Z :=
  Eval vm_compute in (@secp256k1_compute_sighash prims prehash1 0).1.

(** A secret key that is not below the group order. *)
Definition badkey32 : list byte := Bytes.Z2be 32 31.

(** The session and the partial after index 0 has signed, and after index
    1 has signed next. *)
Definition signed0 : @secp256k1_aggsig_context prims * list byte :=
  match @secp256k1_aggsig_partial_sign prims ctx session1 (replicate 32 x00)
          msg32 (seckey_at seckeys 0) 0 with
  | Returns (a, p, _) => (a, p)
  | Aborts => (session1, [])
  end.

Definition signed01 : @secp256k1_aggsig_context prims * list byte :=
  match @secp256k1_aggsig_partial_sign prims ctx signed0.1 (replicate 32 x00)
          msg32 (seckey_at seckeys 1) 1 with
  | Returns (a, p, _) => (a, p)
  | Aborts => (session1, [])
  end.

Lemma calls_reach_session2 : @run prims ctx calls session0 = Some session2.
Proof. reflexivity. Qed.

Lemma session_first_reached :
  @secp256k1_aggsig_generate_nonce prims 10 ctx session0 0
  = Some (session_first, true).
Proof. reflexivity. Qed.

Lemma prehash1_computed :
  @secp256k1_compute_prehash prims (@pubkeys prims session1)
    (@n_sigs prims session1) (@qr_rep prims (@pubnonce_sum prims session1)) msg32
  = Returns prehash1.
Proof. vm_compute. reflexivity. Qed.

Lemma session1_all_known j :
  (j < @n_sigs prims session1)%nat ->
  @progress prims session1 !! j <> Some NONCE_PROGRESS_UNKNOWN.
Proof.
  intros Hj. destruct j as [|[|[|j]]];
    [vm_compute; discriminate .. | vm_compute in Hj; lia].
Qed.

Lemma signed0_reached :
  @secp256k1_aggsig_partial_sign prims ctx session1 (replicate 32 x00)
    msg32 (seckey_at seckeys 0) 0
  = Returns (signed0.1, signed0.2, true).
Proof. reflexivity. Qed.

Lemma signed01_reached :
  @secp256k1_aggsig_partial_sign prims ctx signed0.1 (replicate 32 x00)
    msg32 (seckey_at seckeys 1) 1
  = Returns (signed01.1, signed01.2, true).
Proof. reflexivity. Qed.

(** The challenge inputs of index 200 on a 32-byte prehash. *)
Lemma sighash_input_injective_witness :
  sighash_input msg32 200 = varint7 200 ++ msg32
  /\ 200%nat = 200%nat /\ take 32 msg32 = take 32 msg32.
Proof.
  split; [reflexivity|].
  apply (sighash_input_injective msg32 msg32 200 200).
  - vm_compute. lia.
  - vm_compute. lia.
  - reflexivity.
Defined.

Lemma run_keeps_roster_witness :
  @n_sigs prims session2 = @n_sigs prims session0
  /\ @pubkeys prims session2 = @pubkeys prims session0
  /\ (@wf_session prims session0 -> @wf_session prims session2).
Proof.
  exact (@run_keeps_roster prims ctx calls session0 session2
           calls_reach_session2).
Defined.

Lemma progress_only_advances_witness :
  exists x',
    @progress prims session2 !! 0%nat = Some x'
    /\ advances NONCE_PROGRESS_UNKNOWN x' = true
    /\ (NONCE_PROGRESS_UNKNOWN <> NONCE_PROGRESS_UNKNOWN ->
        x' <> NONCE_PROGRESS_UNKNOWN)
    /\ (x' = NONCE_PROGRESS_OTHER
        <-> NONCE_PROGRESS_UNKNOWN = NONCE_PROGRESS_OTHER).
Proof.
  apply (@progress_only_advances prims ctx calls session0 session2 0
           NONCE_PROGRESS_UNKNOWN calls_reach_session2).
  reflexivity.
Defined.

Lemma nonce_never_regenerated_witness :
  @secp256k1_aggsig_generate_nonce prims 7 ctx session2 0
  = Some (session2, false).
Proof.
  apply (@nonce_never_regenerated prims 10 ctx session0 0 session_first
           (tail calls) session2).
  - exact session_first_reached.
  - reflexivity.
Defined.

Lemma partial_sign_gate_witness :
  @secp256k1_aggsig_partial_sign prims ctx session_first (replicate 32 x00)
    msg32 (seckey_at seckeys 0) 0
  = Returns (session_first, replicate 32 x00, false).
Proof.
  apply (@partial_sign_gate prims ctx session_first (replicate 32 x00) msg32
           (seckey_at seckeys 0) 0).
  right. right. left. exists 1%nat. split; [vm_compute; lia | reflexivity].
Defined.

Lemma partial_sign_late_failure_witness :
  exists aggctx',
    @secp256k1_aggsig_partial_sign prims ctx session1 (replicate 32 x00)
      msg32 badkey32 0
    = Returns (aggctx', replicate 32 x00, false)
    /\ @progress prims aggctx' = @progress prims session1
    /\ @pubkeys prims aggctx' = @pubkeys prims session1
    /\ @pubnonce_sum prims aggctx' = @pubnonce_sum prims session1
    /\ @n_sigs prims aggctx' = @n_sigs prims session1
    /\ @rng prims aggctx' = @rng prims session1
    /\ (forall j, j <> 0%nat ->
          @secnonce prims aggctx' !! j = @secnonce prims session1 !! j)
    /\ @secnonce prims aggctx' !! 0%nat
       = Some (if quad_y (proj1_sig (@pubnonce_sum prims session1))
               then 30 else @secp256k1_scalar_negate prims 30).
Proof.
  apply (@partial_sign_late_failure prims ctx session1 (replicate 32 x00)
           msg32 badkey32 0 prehash1 30).
  - reflexivity.
  - vm_compute. lia.
  - exact session1_all_known.
  - reflexivity.
  - reflexivity.
  - exact prehash1_computed.
  - right. vm_compute. discriminate.
Defined.

Lemma partial_sign_commute_witness :
  exists aggctx1',
    @secp256k1_aggsig_partial_sign prims ctx session1 (replicate 32 x00)
      msg32 (seckey_at seckeys 1) 1
    = Returns (aggctx1', signed01.2, true)
    /\ @secp256k1_aggsig_partial_sign prims ctx aggctx1' (replicate 32 x00)
         msg32 (seckey_at seckeys 0) 0
       = Returns (signed01.1, signed0.2, true).
Proof.
  apply (@partial_sign_commute prims ctx session1 0 1
           (replicate 32 x00) msg32 (seckey_at seckeys 0)
           (replicate 32 x00) msg32 (seckey_at seckeys 1)
           signed0.1 signed0.2 signed01.1 signed01.2).
  - discriminate.
  - exact signed0_reached.
  - exact signed01_reached.
Defined.

Lemma combine_permutation_witness :
  @secp256k1_aggsig_combine_signatures prims ctx session2 (replicate 64 x00)
    (rev partials) 3
  = @secp256k1_aggsig_combine_signatures prims ctx session2 (replicate 64 x00)
      partials 3.
Proof.
  apply (@combine_permutation prims ctx session2 (replicate 64 x00)
           partials (rev partials) 3).
  - reflexivity.
  - apply Permutation_rev.
Defined.

Lemma generate_nonce_effect_witness :
  @n_sigs prims session_first = @n_sigs prims session0
  /\ @pubkeys prims session_first = @pubkeys prims session0
  /\ @wf_session prims session_first
  /\ (forall j, j <> 0%nat ->
        @progress prims session_first !! j = @progress prims session0 !! j
        /\ @secnonce prims session_first !! j = @secnonce prims session0 !! j)
  /\ exists k, @secnonce prims session_first !! 0%nat = Some k
               /\ 0 < k < n
               /\ @secp256k1_ecmult_gen prims k <> O.
Proof.
  apply (@generate_nonce_effect prims group_laws 10 ctx session0 0 session_first).
  - repeat split; reflexivity.
  - exact session_first_reached.
Defined.

Lemma pubnonce_sum_invariant_witness :
  @pubnonce_sum prims session2
  = @point_sum prims (@nonce_term prims session2) (seq 0 3)
  /\ forall j k,
       (@progress prims session2 !! j = Some NONCE_PROGRESS_OURS
        \/ @progress prims session2 !! j = Some NONCE_PROGRESS_SIGNED) ->
       @secnonce prims session2 !! j = Some k -> 0 < k < n.
Proof.
  apply (@pubnonce_sum_invariant prims group_laws ctx roster 3 seed heap calls
           session2).
  - vm_compute. lia.
  - reflexivity.
  - exact calls_reach_session2.
Defined.

Lemma partial_is_schnorr_share_witness :
  exists prehash,
    @secp256k1_compute_prehash prims (@pubkeys prims session1)
      (@n_sigs prims session1) (@qr_rep prims (@pubnonce_sum prims session1))
      msg32 = Returns prehash
    /\ length signed0.2 = 32%nat
    /\ Bytes.be2Z signed0.2 < n
    /\ @secp256k1_ecmult_gen prims (Bytes.be2Z signed0.2)
       = padd (@ecmult prims (@secp256k1_compute_sighash prims prehash 0).1
                 (@secp256k1_ecmult_gen prims
                    (Bytes.be2Z (take 32 (seckey_at seckeys 0)))))
              (@secp256k1_ecmult_gen prims
                 (default 0 (@secnonce prims signed0.1 !! 0%nat))).
Proof.
  exact (@partial_is_schnorr_share prims group_laws ctx session1
           (replicate 32 x00) msg32 (seckey_at seckeys 0) 0
           signed0.1 signed0.2 signed0_reached).
Defined.

Lemma partial_sign_retry_uses_unflipped_nonce_witness :
  let x := Bytes.be2Z (take 32 (seckey_at seckeys 0)) mod n in
  let first_time :=
    @secp256k1_scalar_get_b32
      (@secp256k1_scalar_add prims (@secp256k1_scalar_mul prims x e0)
         (@secp256k1_scalar_negate prims 30)) in
  let retried :=
    @secp256k1_scalar_get_b32
      (@secp256k1_scalar_add prims (@secp256k1_scalar_mul prims x e0) 30) in
  exists aggctx1 aggctx2 aggctx2',
    @secp256k1_aggsig_partial_sign prims ctx session1 (replicate 32 x00) msg32
      (seckey_at seckeys 0) 0
    = Returns (aggctx2, first_time, true)
    /\ @secp256k1_aggsig_partial_sign prims ctx session1 (replicate 32 x00)
         msg32 badkey32 0
       = Returns (aggctx1, replicate 32 x00, false)
    /\ @secp256k1_aggsig_partial_sign prims ctx aggctx1 (replicate 32 x00)
         msg32 (seckey_at seckeys 0) 0
       = Returns (aggctx2', retried, true)
    /\ retried <> first_time.
Proof.
  apply (@partial_sign_retry_uses_unflipped_nonce prims group_laws ctx session1
           (replicate 32 x00) msg32 badkey32 (seckey_at seckeys 0) 0
           prehash1 e0 30).
  - reflexivity.
  - vm_compute. lia.
  - exact session1_all_known.
  - reflexivity.
  - exact prehash1_computed.
  - vm_compute. reflexivity.
  - vm_compute. reflexivity.
  - reflexivity.
  - vm_compute. split; reflexivity.
  - vm_compute. discriminate.
  - vm_compute. reflexivity.
Defined.

Lemma combined_reached :
  @secp256k1_aggsig_combine_signatures prims ctx session2 (replicate 64 x00)
    partials 3
  = (combined.1.1, combined.1.2, true).
Proof.
  unfold combined.
  set (r := @secp256k1_aggsig_combine_signatures prims ctx session2
              (replicate 64 x00) partials 3).
  assert (H : r.2 = true) by (vm_compute; reflexivity).
  clearbody r. destruct r as [[a s] b]. cbn in H. rewrite H. reflexivity.
Qed.

Lemma combine_output_parses_witness :
  length combined.1.2 = 64%nat
  /\ @secp256k1_scalar_set_b32 prims combined.1.2
     = (Zsum (map (fun p => Bytes.be2Z (take 32 p)) (take 3 partials))
        mod @order_n prims,
        false)
  /\ @secp256k1_fe_set_b32 prims (drop 32 combined.1.2)
     = Some (@ge_x prims (@pubnonce_sum prims combined.1.1))
  /\ @secp256k1_ge_set_xquad prims
       (@ge_x prims (@pubnonce_sum prims combined.1.1))
     = Some (@pubnonce_sum prims combined.1.1).
Proof.
  apply (@combine_output_parses prims group_laws ctx session2
           (replicate 64 x00) partials 3 combined.1.1 combined.1.2).
  - apply point_neq. vm_compute. discriminate.
  - exact combined_reached.
Defined.

Lemma endo_split_spec_witness :
  let '(s1, s2, p1, p2) := @secp256k1_aggsig_endo_split prims_endo 7 G in
  let '(r1, r2) := split_lambda 7 in
  padd (@ecmult prims_endo s1 p1) (@ecmult prims_endo s2 p2)
  = @ecmult prims_endo 7 G
  /\ (s1, p1) = (if is_high r1
                 then (@secp256k1_scalar_negate prims_endo r1, pneg G)
                 else (r1, G))
  /\ (s2, p2) = (if is_high r2
                 then (@secp256k1_scalar_negate prims_endo r2,
                       pneg (pmul_lambda G))
                 else (r2, pmul_lambda G)).
Proof.
  apply (@endo_split_spec prims_endo group_laws_endo endo_laws_endo 7 G).
  reflexivity.
Defined.

Lemma verify_scratch_independent_witness :
  @secp256k1_aggsig_verify prims ctx sig64 msg32 roster 3
    (replicate 2 5) (replicate 2 G)
  = @secp256k1_aggsig_verify prims ctx sig64 msg32 roster 3 sc0 pt0.
Proof.
  apply (@verify_scratch_independent prims group_laws endo_laws ctx sig64 msg32
           roster 3 sc0 pt0 (replicate 2 5) (replicate 2 G)).
  - reflexivity.
  - exact Runs.roster_valid.
  - reflexivity.
  - reflexivity.
  - reflexivity.
  - reflexivity.
  - reflexivity.
Defined.

Lemma verify_accepts_one_s_witness : sig64 = sig64.
Proof.
  apply (@verify_accepts_one_s prims group_laws endo_laws ctx sig64 sig64 msg32
           roster 3 sc0 pt0).
  - reflexivity.
  - exact Runs.roster_valid.
  - reflexivity.
  - reflexivity.
  - reflexivity.
  - reflexivity.
  - reflexivity.
  - vm_compute. reflexivity.
  - vm_compute. reflexivity.
Defined.

Lemma destroy_zeroes_arrays_witness :
  exists r,
    @secp256k1_aggsig_context_destroy prims (fun _ => 0) (Some session2) = Some r
    /\ @released_secnonce prims r = replicate 3 0
    /\ @released_pubkeys prims r = replicate 3 None
    /\ @released_progress prims r = replicate 3 NONCE_PROGRESS_UNKNOWN
    /\ @released_pubnonce_sum prims r = @pubnonce_sum prims session2
    /\ @released_rng prims r = 0.
Proof.
  apply (@destroy_zeroes_arrays prims (fun _ => 0) ctx roster 3 seed heap calls
           session2).
  - vm_compute. lia.
  - exact calls_reach_session2.
Defined.

(** The session of [Example] before signing, with the key of index 1
    replaced by the point at infinity, and the roster with that key. *)
Definition roster_bad : list curve_point := <[1%nat := O]> roster.

Definition session_bad : @secp256k1_aggsig_context prims :=
  @Build_secp256k1_aggsig_context prims
    (@progress prims session1) roster_bad (@secnonce prims session1)
    (@pubnonce_sum prims session1) 3 (@rng prims session1).

Lemma partial_sign_aborts_iff_witness :
  @secp256k1_aggsig_partial_sign prims ctx session_bad (replicate 32 x00)
    msg32 (seckey_at seckeys 0) 0
  = Aborts.
Proof.
  apply (@partial_sign_aborts_iff prims group_laws ctx session_bad
           (replicate 32 x00) msg32 (seckey_at seckeys 0) 0).
  split; [reflexivity|]. split; [vm_compute; lia|].
  split; [exact session1_all_known|]. split; [reflexivity|].
  left. apply Exists_cons_tl, Exists_cons_hd. reflexivity.
Defined.

Lemma verify_aborts_iff_witness :
  @secp256k1_aggsig_verify prims ctx sig64 msg32 roster_bad 3 sc0 pt0 = Aborts.
Proof.
  apply (@verify_aborts_iff prims group_laws endo_laws ctx sig64 msg32
           roster_bad 3 sc0 pt0).
  split; [discriminate|]. split; [vm_compute; reflexivity|].
  split; [vm_compute; reflexivity|]. split; [vm_compute; discriminate|].
  apply Exists_cons_tl, Exists_cons_hd. reflexivity.
Defined.

Lemma session1_wf : @wf_session prims session1.
Proof. repeat split; reflexivity. Qed.

Lemma session1_all_ours j :
  (j < @n_sigs prims session1)%nat ->
  @progress prims session1 !! j = Some NONCE_PROGRESS_OURS.
Proof.
  intros Hj. destruct j as [|[|[|j]]];
    [reflexivity .. | vm_compute in Hj; lia].
Qed.

Lemma signature_verifies_iff_nonces_consistent_witness :
  exists aggctx3 s64,
    @combine_all prims ctx session2 partials = Some (aggctx3, s64)
    /\ forall sc0 pt0,
         length sc0 = Pos.to_nat (@SECP256K1_ECMULT_MULTI_MAX_N prims) ->
         length pt0 = Pos.to_nat (@SECP256K1_ECMULT_MULTI_MAX_N prims) ->
         exists b,
           @secp256k1_aggsig_verify prims ctx s64 msg32
             (@pubkeys prims session1) (@n_sigs prims session1) sc0 pt0
           = Returns b
           /\ (b = true
               <-> @pubnonce_sum prims session1
                   = @psum prims (map (@secp256k1_ecmult_gen prims)
                                    (@secnonce prims session1))).
Proof.
  apply (@signature_verifies_iff_nonces_consistent prims group_laws endo_laws
           ctx msg32 seckeys session1 session2 partials).
  - exact session1_wf.
  - vm_compute. discriminate.
  - exact session1_all_ours.
  - exact Runs.roster_keypairs.
  - exact Runs.session2_reached.
Defined.

(** The session of [Example] after a call of [partial_sign] on index 0 with
    [badkey32], and the signing phase that follows it. *)
Definition failed0 : @secp256k1_aggsig_context prims :=
  match @secp256k1_aggsig_partial_sign prims ctx session1 (replicate 32 x00)
          msg32 badkey32 0 with
  | Returns (a, _, _) => a
  | Aborts => session1
  end.

Definition resigned : @secp256k1_aggsig_context prims * list (list byte) :=
  default (failed0, [])
    (@partial_sign_all prims ctx failed0 msg32 seckeys (seq 0 3)).

Definition resigned_partials : list (list byte) := Eval vm_compute in resigned.2.

Definition resigned_sig64 : list byte :=
  Eval vm_compute in
    (@secp256k1_aggsig_combine_signatures prims ctx resigned.1
       (replicate 64 x00) resigned_partials 3).1.2.



(** The partials and the signature of the two signing phases, and what
    [verify] returns on them. *)
Lemma resigned_run :
  map Bytes.be2Z partials = [15; 6; 3]
  /\ map Bytes.be2Z resigned_partials = [13; 6; 3]
  /\ @secp256k1_aggsig_verify prims ctx sig64 msg32 roster 3 sc0 pt0
     = Returns true
  /\ @secp256k1_aggsig_verify prims ctx resigned_sig64 msg32 roster 3 sc0 pt0
     = Returns false.
Proof. repeat split; vm_compute; reflexivity. Qed.


(** The session of [Example] on which [combine] is called with three
    zero partials before anyone has signed, and the signing phase that
    follows. *)
Definition early_partials : list (list byte) := replicate 3 (Bytes.Z2be 32 0).

Definition early :=
  @secp256k1_aggsig_combine_signatures prims ctx session1 (replicate 64 x00)
    early_partials 3.

Definition late_signed : @secp256k1_aggsig_context prims * list (list byte) :=
  default (early.1.1, [])
    (@partial_sign_all prims ctx early.1.1 msg32 seckeys (seq 0 3)).

Definition late_partials : list (list byte) := Eval vm_compute in late_signed.2.

Definition late_sig64 : list byte :=
  Eval vm_compute in
    (@secp256k1_aggsig_combine_signatures prims ctx late_signed.1
       (replicate 64 x00) late_partials 3).1.2.



Lemma late_run :
  map Bytes.be2Z late_partials = [13; 18; 25]
  /\ @secp256k1_aggsig_verify prims ctx late_sig64 msg32 roster 3 sc0 pt0
     = Returns false.
Proof. split; vm_compute; reflexivity. Qed.


Lemma nonces_depend_on_seed_only_witness :
  exists aggctx aggctx',
    @generate_nonces prims 10 ctx
      (@secp256k1_aggsig_context_create prims roster (length roster) seed heap)
      (seq 0 (length roster)) = Some aggctx
    /\ @generate_nonces prims 10 ctx
         (@secp256k1_aggsig_context_create prims (rev roster)
            (length (rev roster)) seed (fun _ => 7))
         (seq 0 (length (rev roster))) = Some aggctx'
    /\ @secnonce prims aggctx' = @secnonce prims aggctx
    /\ @pubnonce_sum prims aggctx' = @pubnonce_sum prims aggctx
    /\ @pubkeys prims aggctx = roster /\ @pubkeys prims aggctx' = rev roster.
Proof.
  apply (@nonces_depend_on_seed_only prims group_laws 10 ctx roster (rev roster)
           seed heap (fun _ => 7) [1; 6; 11] 10).
  - reflexivity.
  - reflexivity.
  - reflexivity.
Defined.

Lemma session_signs_once_witness :
  @secp256k1_aggsig_partial_sign prims ctx session2 (replicate 32 x00)
    (replicate 32 x00) (seckey_at seckeys 1) 1
  = Returns (session2, replicate 32 x00, false).
Proof.
  apply (@session_signs_once prims ctx msg32 seckeys session1 session2 partials).
  exact Runs.session2_reached.
Defined.

End MoreRuns.
